(** * image-scraper: a two-level crawler for product images

    Shallow embedding of the two copies of the crawler kept in the
    repository,

      - [src/scrape-botech.js]   (module [Botech]),
      - [src/unnamed/part_001]   (module [Part001]),

    together with models of the platform pieces they call (JavaScript
    string primitives, Node's [path] module, the [sanitize-filename]
    package, the WHATWG URL parser behind [new URL], the p-limit queue).

    A JavaScript string is modelled by a [string] whose characters are
    UTF-16 code units below 256 (Latin-1); every string of the program's
    configuration is of that kind. *)

From Stdlib Require Import String Ascii List Arith Bool Lia.
From Stdlib Require Import NArith DecimalString DecimalNat DecimalN.
From Equations Require Import Equations.
Import ListNotations.
Local Open Scope list_scope.
Local Open Scope string_scope.

(* ===================================================================== *)
(** * JavaScript string primitives                                        *)
(* ===================================================================== *)

Module JS.

Definition code (c : ascii) : nat := nat_of_ascii c.

Definition chr (n : nat) : ascii := ascii_of_nat n.

Definition in_range (lo hi : nat) (c : ascii) : bool :=
  Nat.leb lo (code c) && Nat.leb (code c) hi.

Definition is_digit : ascii -> bool := in_range 48 57.
Definition is_upper_alpha : ascii -> bool := in_range 65 90.
Definition is_lower_alpha : ascii -> bool := in_range 97 122.
Definition is_alpha (c : ascii) : bool := is_upper_alpha c || is_lower_alpha c.
Definition is_alnum (c : ascii) : bool := is_alpha c || is_digit c.

(** ASCII case folding: what a regular expression with the [i] flag and
    an ASCII pattern compares. *)
Definition ascii_lower_char (c : ascii) : ascii :=
  if is_upper_alpha c then chr (code c + 32) else c.

(** [String.prototype.toLowerCase] on Latin-1 code units: A-Z and the
    accented capitals U+00C0..U+00DE except the multiplication sign. *)
Definition lower_char (c : ascii) : ascii :=
  if is_upper_alpha c then chr (code c + 32)
  else if in_range 192 222 c && negb (Nat.eqb (code c) 215) then chr (code c + 32)
  else c.

Fixpoint map_chars (f : ascii -> ascii) (s : string) : string :=
  match s with
  | EmptyString => EmptyString
  | String c r => String (f c) (map_chars f r)
  end.

Definition ascii_lower : string -> string := map_chars ascii_lower_char.
Definition toLowerCase : string -> string := map_chars lower_char.

Fixpoint filter_chars (keep : ascii -> bool) (s : string) : string :=
  match s with
  | EmptyString => EmptyString
  | String c r => if keep c then String c (filter_chars keep r) else filter_chars keep r
  end.

Fixpoint forall_chars (p : ascii -> bool) (s : string) : bool :=
  match s with
  | EmptyString => true
  | String c r => p c && forall_chars p r
  end.

Fixpoint exists_char (p : ascii -> bool) (s : string) : bool :=
  match s with
  | EmptyString => false
  | String c r => p c || exists_char p r
  end.

(** [s.includes(c)] for a one-character needle. *)
Definition includes_char (c : ascii) (s : string) : bool :=
  exists_char (Ascii.eqb c) s.

(** [s.startsWith(p)]. *)
Definition startsWith (p s : string) : bool := String.prefix p s.

(** A prefix test that ignores ASCII case ([/^p/i.test(s)] for a literal
    ASCII pattern [p], given in lower case). *)
Definition startsWith_ci (p s : string) : bool :=
  String.prefix p (ascii_lower s).

(** [s.slice(0, n)]. *)
Fixpoint take (n : nat) (s : string) : string :=
  match n, s with
  | S n', String c r => String c (take n' r)
  | _, _ => EmptyString
  end.

(** [s.slice(n)]. *)
Fixpoint drop (n : nat) (s : string) : string :=
  match n, s with
  | S n', String _ r => drop n' r
  | _, _ => s
  end.

Fixpoint rev_onto (s acc : string) : string :=
  match s with
  | EmptyString => acc
  | String c r => rev_onto r (String c acc)
  end.

Definition rev (s : string) : string := rev_onto s EmptyString.

(** The last [n] code units of [s] (all of [s] when it is shorter). *)
Definition last_chars (n : nat) (s : string) : string :=
  drop (String.length s - n) s.

(** [s.split(c)[0]]: the text before the first [c]. *)
Fixpoint before_char (c : ascii) (s : string) : string :=
  match s with
  | EmptyString => EmptyString
  | String x r => if Ascii.eqb x c then EmptyString else String x (before_char c r)
  end.

(** [s.split(c)] as a non-empty list of pieces. *)
Fixpoint split_on (c : ascii) (s : string) : list string :=
  match s with
  | EmptyString => [EmptyString]
  | String x r =>
      if Ascii.eqb x c then EmptyString :: split_on c r
      else match split_on c r with
           | h :: t => String x h :: t
           | [] => [String x EmptyString]
           end
  end.

(** [pieces.join(sep)]. *)
Fixpoint join (sep : string) (l : list string) : string :=
  match l with
  | [] => EmptyString
  | [x] => x
  | x :: r => x ++ sep ++ join sep r
  end.

(** Removes the characters satisfying [p] from the end of [s]. *)
Fixpoint drop_while (p : ascii -> bool) (s : string) : string :=
  match s with
  | EmptyString => EmptyString
  | String c r => if p c then drop_while p r else s
  end.

Definition strip_trailing (p : ascii -> bool) (s : string) : string :=
  rev (drop_while p (rev s)).

(** [String(n)] for a non-negative integer: its decimal digits. *)
Definition String_of_nat (n : nat) : string :=
  NilEmpty.string_of_uint (Nat.to_uint n).

Fixpoint repeat_char (c : ascii) (n : nat) : string :=
  match n with
  | 0 => EmptyString
  | S k => String c (repeat_char c k)
  end.

(** [s.padStart(n, c)] for a one-character filler. *)
Definition padStart (n : nat) (c : ascii) (s : string) : string :=
  repeat_char c (n - String.length s) ++ s.

(** JavaScript truthiness of a string-or-undefined value. *)
Definition truthy (v : option string) : bool :=
  match v with
  | None => false
  | Some s => negb (String.eqb s EmptyString)
  end.

End JS.

(* ===================================================================== *)
(** * Node's [path] module (POSIX flavour)                                *)
(* ===================================================================== *)

Module NodePath.

Definition slash : ascii := "/"%char.
Definition is_slash (c : ascii) : bool := Ascii.eqb c slash.

(** [path.basename(p)]: trailing separators are skipped, then the text
    after the last separator is returned. *)
Definition basename (p : string) : string :=
  JS.rev (JS.before_char slash (JS.rev (JS.strip_trailing is_slash p))).

(** [path.dirname(p)]: the scan runs from the end down to index 1, skips
    trailing separators and the last segment, and cuts at the separator
    before it. *)
Definition dirname (p : string) : string :=
  match p with
  | EmptyString => "."
  | String c0 tl =>
      let hasRoot := is_slash c0 in
      match JS.drop_while (fun c => negb (is_slash c))
              (JS.drop_while is_slash (JS.rev tl)) with
      | EmptyString => if hasRoot then "/" else "."
      | String _ before =>
          if hasRoot && (before =? "") then "//"
          else String c0 (JS.rev before)
      end
  end.

(** [normalizeString]: empty and [.] segments vanish, [..] removes the
    segment before it (or stays, when the path may climb above its
    start).  [stack] holds the kept segments, last one first. *)
Fixpoint normalize_segments (allowAboveRoot : bool) (segs stack : list string)
  : list string :=
  match segs with
  | [] => List.rev stack
  | s :: r =>
      if (s =? "") || (s =? ".") then normalize_segments allowAboveRoot r stack
      else if s =? ".." then
        match stack with
        | top :: below =>
            if top =? ".." then
              normalize_segments allowAboveRoot r
                (if allowAboveRoot then ".." :: stack else stack)
            else normalize_segments allowAboveRoot r below
        | [] =>
            normalize_segments allowAboveRoot r
              (if allowAboveRoot then [".."] else [])
        end
      else normalize_segments allowAboveRoot r (s :: stack)
  end.

(** [path.normalize(p)]. *)
Definition normalize (p : string) : string :=
  if p =? "" then "."
  else
    let isAbsolute := JS.startsWith "/" p in
    let trailing := JS.startsWith "/" (JS.rev p) in
    let body :=
      JS.join "/" (normalize_segments (negb isAbsolute) (JS.split_on slash p) []) in
    if body =? "" then
      if isAbsolute then "/" else if trailing then "./" else "."
    else (if isAbsolute then "/" else "") ++ body ++ (if trailing then "/" else "").

(** [path.join(a, b)]: empty arguments are skipped, the rest is glued with
    a separator and normalized. *)
Definition join (a b : string) : string :=
  let joined :=
    if a =? "" then b else if b =? "" then a else a ++ "/" ++ b in
  if joined =? "" then "." else normalize joined.

End NodePath.

(* ===================================================================== *)
(** * The [sanitize-filename] package                                     *)
(* ===================================================================== *)

Module SanitizeFilename.

Definition dquote : ascii := JS.chr 34.

(** [illegalRe]: slash, question mark, angle brackets, backslash,
    colon, star, bar and double quote. *)
Definition illegal (c : ascii) : bool :=
  existsb (Ascii.eqb c)
    ["/"; "?"; "<"; ">"; "\"; ":"; "*"; "|"; dquote]%char.

(** [controlRe]: code units 0x00-0x1f and 0x80-0x9f. *)
Definition control (c : ascii) : bool :=
  JS.in_range 0 31 c || JS.in_range 128 159 c.

(** [reservedRe]: a name made of dots only. *)
Definition reserved (s : string) : bool :=
  negb (s =? "") && JS.forall_chars (Ascii.eqb ".") s.

Definition windows_names : list string :=
  ["con"; "prn"; "aux"; "nul";
   "com0"; "com1"; "com2"; "com3"; "com4"; "com5"; "com6"; "com7"; "com8"; "com9";
   "lpt0"; "lpt1"; "lpt2"; "lpt3"; "lpt4"; "lpt5"; "lpt6"; "lpt7"; "lpt8"; "lpt9"].

(** [windowsReservedRe]: the whole name is one of the device names,
    in any letter case, alone or followed by a dot and anything. *)
Definition windows_reserved (s : string) : bool :=
  let l := JS.ascii_lower s in
  existsb (fun n => (l =? n) || JS.startsWith (n ++ ".") l) windows_names.

(** [windowsTrailingRe]: the dots and spaces that end the name. *)
Definition dot_or_space (c : ascii) : bool :=
  Ascii.eqb c "." || Ascii.eqb c " ".

(** UTF-8 length of one Latin-1 code unit. *)
Definition utf8_len (c : ascii) : nat := if Nat.ltb (JS.code c) 128 then 1 else 2.

(** [truncate-utf8-bytes]: the longest prefix that fits in [budget] bytes. *)
Fixpoint truncate (budget : nat) (s : string) : string :=
  match s with
  | EmptyString => EmptyString
  | String c r =>
      if Nat.leb (utf8_len c) budget
      then String c (truncate (budget - utf8_len c) r)
      else EmptyString
  end.

(** [sanitize(input)] with the default (empty) replacement. *)
Definition sanitize (input : string) : string :=
  let s1 := JS.filter_chars (fun c => negb (illegal c)) input in
  let s2 := JS.filter_chars (fun c => negb (control c)) s1 in
  let s3 := if reserved s2 then "" else s2 in
  let s4 := if windows_reserved s3 then "" else s3 in
  let s5 := JS.strip_trailing dot_or_space s4 in
  truncate 255 s5.

End SanitizeFilename.

(* ===================================================================== *)
(** * The URL parser behind [new URL(input, base)]                        *)
(* ===================================================================== *)

(** A functional rendering of the WHATWG basic URL parser (the state
    machine of the URL standard, one function per state, each working on
    the input that is left) and of the URL serializer.  Three parts of the
    standard are left out and answer [Unmodelled]: the [file] scheme,
    IPv4/IPv6 literals, and host names that need percent-decoding or IDNA
    processing. *)

Module WhatwgURL.

Inductive Outcome (A : Type) : Type :=
| Parsed (a : A)
| Failure
| Unmodelled.
Arguments Parsed {A} a.
Arguments Failure {A}.
Arguments Unmodelled {A}.

Definition bind {A B : Type} (o : Outcome A) (k : A -> Outcome B) : Outcome B :=
  match o with
  | Parsed a => k a
  | Failure => Failure
  | Unmodelled => Unmodelled
  end.

Record URLRecord : Type := mkURL {
  scheme : string;
  username : string;
  password : string;
  host : option string;
  port : option N;
  path : list string;
  opaque_path : option string;
  query : option string;
  fragment : option string }.

Definition is_one_of (cs : list ascii) (c : ascii) : bool := existsb (Ascii.eqb c) cs.

(** ** Percent-encode sets *)

(** The sets as the URL implementation of Node 18 to 22 has them: the
    caret is encoded in the user information, not in the path. *)

Definition c0_control_set (c : ascii) : bool :=
  Nat.leb (JS.code c) 31 || Nat.ltb 126 (JS.code c).

Definition fragment_set (c : ascii) : bool :=
  c0_control_set c || is_one_of [" "; JS.chr 34; "<"; ">"; "`"]%char c.

Definition query_set (c : ascii) : bool :=
  c0_control_set c || is_one_of [" "; JS.chr 34; "#"; "<"; ">"]%char c.

Definition special_query_set (c : ascii) : bool :=
  query_set c || Ascii.eqb c "'".

Definition path_set (c : ascii) : bool :=
  query_set c || is_one_of ["?"; "`"; "{"; "}"]%char c.

Definition userinfo_set (c : ascii) : bool :=
  path_set c || is_one_of ["/"; ":"; ";"; "="; "@"; "["; "\"; "]"; "^"; "|"]%char c.

Definition hex_digit (n : nat) : ascii :=
  if Nat.ltb n 10 then JS.chr (48 + n) else JS.chr (55 + n).

Definition pct_byte (b : nat) : string :=
  String "%" (String (hex_digit (b / 16)) (String (hex_digit (b mod 16)) "")).

(** UTF-8 percent-encoding of one Latin-1 code unit. *)
Definition percent_encode (in_set : ascii -> bool) (c : ascii) : string :=
  if in_set c then
    if Nat.ltb (JS.code c) 128 then pct_byte (JS.code c)
    else pct_byte (192 + JS.code c / 64) ++ pct_byte (128 + JS.code c mod 64)
  else String c "".

Fixpoint encode_all (in_set : ascii -> bool) (s : string) : string :=
  match s with
  | EmptyString => ""
  | String c r => percent_encode in_set c ++ encode_all in_set r
  end.

(** ** Schemes *)

Definition is_special (sch : string) : bool :=
  existsb (String.eqb sch) ["ftp"; "file"; "http"; "https"; "ws"; "wss"].

Definition default_port (sch : string) : option N :=
  if sch =? "ftp" then Some 21%N
  else if (sch =? "http") || (sch =? "ws") then Some 80%N
  else if (sch =? "https") || (sch =? "wss") then Some 443%N
  else None.

(** ** Input preparation: leading and trailing C0 controls and spaces go,
    then every tab and newline. *)

Definition c0_or_space (c : ascii) : bool := Nat.leb (JS.code c) 32.
Definition tab_or_newline (c : ascii) : bool :=
  is_one_of [JS.chr 9; JS.chr 10; JS.chr 13] c.

Definition preprocess (input : string) : string :=
  JS.filter_chars (fun c => negb (tab_or_newline c))
    (JS.strip_trailing c0_or_space (JS.drop_while c0_or_space input)).

(** ** Fragment, query and path states *)

Definition fragment_state (s : string) : string := encode_all fragment_set s.

Fixpoint query_state (special : bool) (s : string) : string * option string :=
  match s with
  | EmptyString => ("", None)
  | String c r =>
      if Ascii.eqb c "#" then ("", Some (fragment_state r))
      else
        let '(q, f) := query_state special r in
        (percent_encode (if special then special_query_set else query_set) c ++ q, f)
  end.

Definition is_single_dot (b : string) : bool :=
  let l := JS.ascii_lower b in (l =? ".") || (l =? "%2e").

Definition is_double_dot (b : string) : bool :=
  let l := JS.ascii_lower b in
  (l =? "..") || (l =? ".%2e") || (l =? "%2e.") || (l =? "%2e%2e").

(** What the path state does with the segment in [buffer] when it meets
    a separator ([at_slash]) or the end of the path. *)
Definition flush_segment (at_slash : bool) (buffer : string) (p : list string)
  : list string :=
  if is_double_dot buffer then
    if at_slash then removelast p else removelast p ++ [""]
  else if is_single_dot buffer then
    if at_slash then p else p ++ [""]
  else p ++ [buffer].

Definition is_separator (special : bool) (c : ascii) : bool :=
  Ascii.eqb c "/" || (special && Ascii.eqb c "\").

Definition Tail : Type := (list string * option string * option string)%type.

Fixpoint path_state (special : bool) (s buffer : string) (p : list string) : Tail :=
  match s with
  | EmptyString => (flush_segment false buffer p, None, None)
  | String c r =>
      if is_separator special c then
        path_state special r "" (flush_segment true buffer p)
      else if Ascii.eqb c "?" then
        let '(q, f) := query_state special r in
        (flush_segment false buffer p, Some q, f)
      else if Ascii.eqb c "#" then
        (flush_segment false buffer p, None, Some (fragment_state r))
      else path_state special r (buffer ++ percent_encode path_set c) p
  end.

Definition path_start_state (special : bool) (s : string) : Tail :=
  match s with
  | EmptyString => if special then path_state special "" "" [] else ([], None, None)
  | String c r =>
      if special then
        if is_separator true c then path_state true r "" []
        else path_state true s "" []
      else if Ascii.eqb c "?" then
        let '(q, f) := query_state false r in ([], Some q, f)
      else if Ascii.eqb c "#" then ([], None, Some (fragment_state r))
      else if Ascii.eqb c "/" then path_state false r "" []
      else path_state false s "" []
  end.

(** ** Host parsing *)

Definition forbidden_host_cp (c : ascii) : bool :=
  is_one_of [JS.chr 0; JS.chr 9; JS.chr 10; JS.chr 13; " "; "#"; "/"; ":"; "<";
             ">"; "?"; "@"; "["; "\"; "]"; "^"; "|"]%char c.

Definition forbidden_domain_cp (c : ascii) : bool :=
  forbidden_host_cp c || Nat.leb (JS.code c) 31 || Ascii.eqb c "%"
  || Nat.eqb (JS.code c) 127.

Definition is_hex_digit (c : ascii) : bool :=
  JS.is_digit c || JS.in_range 65 70 c || JS.in_range 97 102 c.

(** The standard's ends-in-a-number check, on the last non-empty label. *)
Definition ends_in_number (d : string) : bool :=
  let parts := JS.split_on "." d in
  let parts' :=
    if (last parts "x" =? "") then
      match parts with [_] => [] | _ => removelast parts end
    else parts in
  match parts' with
  | [] => false
  | _ =>
      let l := last parts' "" in
      (negb (l =? "") && JS.forall_chars JS.is_digit l)
      || (JS.startsWith_ci "0x" l && JS.forall_chars is_hex_digit (JS.drop 2 l))
  end.

Definition host_parse (input : string) (isOpaque : bool) : Outcome string :=
  if JS.startsWith "[" input then
    if JS.startsWith "]" (JS.rev input) then Unmodelled else Failure
  else if isOpaque then
    if JS.exists_char forbidden_host_cp input then Failure
    else Parsed (encode_all c0_control_set input)
  else if JS.forall_chars (fun c => Nat.ltb (JS.code c) 128 && negb (Ascii.eqb c "%")) input then
    let d := JS.ascii_lower input in
    if existsb (JS.startsWith "xn--") (JS.split_on "." d) then Unmodelled
    else if d =? "" then Failure
    else if JS.exists_char forbidden_domain_cp d then Failure
    else if ends_in_number d then Unmodelled
    else Parsed d
  else Unmodelled.

(** ** Port, host and authority states *)

Definition N_of_digits (s : string) : N :=
  (fix go (s : string) (acc : N) : N :=
     match s with
     | EmptyString => acc
     | String c r => go r (acc * 10 + N.of_nat (JS.code c - 48))%N
     end) s 0%N.

Definition is_terminator (special : bool) (c : ascii) : bool :=
  is_one_of ["/"; "?"; "#"]%char c || (special && Ascii.eqb c "\").

Definition finish_port (sch buffer rest : string) : Outcome (option N * string) :=
  if buffer =? "" then Parsed (None, rest)
  else
    let p := N_of_digits buffer in
    if N.ltb 65535 p then Failure
    else
      match default_port sch with
      | Some d => if N.eqb d p then Parsed (None, rest) else Parsed (Some p, rest)
      | None => Parsed (Some p, rest)
      end.

Fixpoint port_state (special : bool) (sch s buffer : string)
  : Outcome (option N * string) :=
  match s with
  | EmptyString => finish_port sch buffer ""
  | String c r =>
      if JS.is_digit c then port_state special sch r (buffer ++ String c "")
      else if is_terminator special c then finish_port sch buffer s
      else Failure
  end.

Definition end_of_host (special : bool) (buffer rest : string)
  : Outcome (string * option N * string) :=
  if special && (buffer =? "") then Failure
  else bind (host_parse buffer (negb special)) (fun h => Parsed (h, None, rest)).

Fixpoint host_state (special : bool) (sch s buffer : string) (inside : bool)
  : Outcome (string * option N * string) :=
  match s with
  | EmptyString => end_of_host special buffer ""
  | String c r =>
      if Ascii.eqb c ":" && negb inside then
        if buffer =? "" then Failure
        else
          bind (host_parse buffer (negb special)) (fun h =>
          bind (port_state special sch r "") (fun '(p, rest) =>
          Parsed (h, p, rest)))
      else if is_terminator special c then end_of_host special buffer s
      else
        host_state special sch r (buffer ++ String c "")
          (if Ascii.eqb c "[" then true
           else if Ascii.eqb c "]" then false else inside)
  end.

(** The credentials seen before an [@]: the text up to the first colon
    goes to the user name, the rest to the password. *)
Fixpoint credentials (buffer : string) (pwSeen : bool) (user pass : string)
  : string * string * bool :=
  match buffer with
  | EmptyString => (user, pass, pwSeen)
  | String c r =>
      if Ascii.eqb c ":" && negb pwSeen then credentials r true user pass
      else if pwSeen then credentials r pwSeen user (pass ++ percent_encode userinfo_set c)
      else credentials r pwSeen (user ++ percent_encode userinfo_set c) pass
  end.

(** Authority state: returns the credentials and the input at which the
    host state starts (after the last [@] of the authority). *)
Fixpoint authority_state (special : bool) (s buffer : string) (atSeen pwSeen : bool)
  (user pass hoststart : string) : Outcome (string * string * string) :=
  match s with
  | EmptyString =>
      if atSeen && (buffer =? "") then Failure else Parsed (user, pass, hoststart)
  | String c r =>
      if Ascii.eqb c "@" then
        let '(user', pass', pwSeen') :=
          credentials (if atSeen then "%40" ++ buffer else buffer) pwSeen user pass in
        authority_state special r "" true pwSeen' user' pass' r
      else if is_terminator special c then
        if atSeen && (buffer =? "") then Failure else Parsed (user, pass, hoststart)
      else authority_state special r (buffer ++ String c "") atSeen pwSeen user pass hoststart
  end.

(** Authority, host, port and the path after them; [s] is the input after
    the slashes that introduce the authority. *)
Definition authority_onwards (sch s : string) : Outcome URLRecord :=
  let special := is_special sch in
  bind (authority_state special s "" false false "" "" s) (fun '(user, pass, hoststart) =>
  bind (host_state special sch hoststart "" false) (fun '(h, p, rest) =>
  let '(segs, q, f) := path_start_state special rest in
  Parsed (mkURL sch user pass (Some h) p segs None q f))).

Definition slash_or_backslash (c : ascii) : bool := is_one_of ["/"; "\"]%char c.

(** Special authority (ignore) slashes states. *)
Definition special_authority (sch s : string) : Outcome URLRecord :=
  authority_onwards sch (JS.drop_while slash_or_backslash s).

(** ** Relative states *)

Definition relative_slash_state (b : URLRecord) (s : string) : Outcome URLRecord :=
  let sch := scheme b in
  let special := is_special sch in
  let from_base tl :=
    let '(segs, q, f) := tl in
    Parsed (mkURL sch (username b) (password b) (host b) (port b) segs None q f) in
  match s with
  | EmptyString => from_base (path_state special "" "" [])
  | String c r =>
      if special && slash_or_backslash c then special_authority sch r
      else if Ascii.eqb c "/" then authority_onwards sch r
      else from_base (path_state special s "" [])
  end.

Definition relative_state (b : URLRecord) (s : string) : Outcome URLRecord :=
  let sch := scheme b in
  let special := is_special sch in
  let copy segs q f :=
    Parsed (mkURL sch (username b) (password b) (host b) (port b) segs None q f) in
  match s with
  | EmptyString => copy (path b) (query b) None
  | String c r =>
      if is_separator special c then relative_slash_state b r
      else if Ascii.eqb c "?" then
        let '(q, f) := query_state special r in copy (path b) (Some q) f
      else if Ascii.eqb c "#" then copy (path b) (query b) (Some (fragment_state r))
      else
        let '(segs, q, f) := path_state special s "" (removelast (path b)) in
        copy segs q f
  end.

Definition no_scheme_state (base : option URLRecord) (s : string) : Outcome URLRecord :=
  match base with
  | None => Failure
  | Some b =>
      match opaque_path b with
      | Some op =>
          match s with
          | String "#" r =>
              Parsed (mkURL (scheme b) "" "" None None [] (Some op) (query b)
                        (Some (fragment_state r)))
          | _ => Failure
          end
      | None => if scheme b =? "file" then Unmodelled else relative_state b s
      end
  end.

(** ** Scheme states *)

Fixpoint scheme_state (s buffer : string) : option (string * string) :=
  match s with
  | EmptyString => None
  | String c r =>
      if JS.is_alnum c || is_one_of ["+"; "-"; "."]%char c
      then scheme_state r (buffer ++ String (JS.ascii_lower_char c) "")
      else if Ascii.eqb c ":" then Some (buffer, r)
      else None
  end.

Definition scheme_start_state (s : string) : option (string * string) :=
  match s with
  | String c r =>
      if JS.is_alpha c then scheme_state r (String (JS.ascii_lower_char c) "") else None
  | EmptyString => None
  end.

Fixpoint opaque_path_state (s : string) : string * option string * option string :=
  match s with
  | EmptyString => ("", None, None)
  | String c r =>
      if Ascii.eqb c "?" then let '(q, f) := query_state false r in ("", Some q, f)
      else if Ascii.eqb c "#" then ("", None, Some (fragment_state r))
      else
        let '(p, q, f) := opaque_path_state r in
        if Ascii.eqb c " " then
          ((if JS.startsWith "?" r || JS.startsWith "#" r then "%20" else " ") ++ p, q, f)
        else (percent_encode c0_control_set c ++ p, q, f)
  end.

(** The basic URL parser, without a state override. *)
Definition basic_parse (input : string) (base : option URLRecord) : Outcome URLRecord :=
  let s := preprocess input in
  match scheme_start_state s with
  | None => no_scheme_state base s
  | Some (sch, rest) =>
      if sch =? "file" then Unmodelled
      else if is_special sch then
        match base with
        | Some b =>
            if scheme b =? sch then
              if JS.startsWith "//" rest then special_authority sch (JS.drop 2 rest)
              else relative_state b rest
            else special_authority sch rest
        | None => special_authority sch rest
        end
      else
        match rest with
        | String "/" (String "/" r) => authority_onwards sch r
        | String "/" r =>
            let '(segs, q, f) := path_state false r "" [] in
            Parsed (mkURL sch "" "" None None segs None q f)
        | _ =>
            let '(p, q, f) := opaque_path_state rest in
            Parsed (mkURL sch "" "" None None [] (Some p) q f)
        end
  end.

(** ** Serializer *)

Definition String_of_N (n : N) : string := NilEmpty.string_of_uint (N.to_uint n).

Definition serialize_path (u : URLRecord) : string :=
  match opaque_path u with
  | Some p => p
  | None => String.concat "" (map (fun seg => "/" ++ seg) (path u))
  end.

Definition serialize (u : URLRecord) : string :=
  scheme u ++ ":" ++
  match host u with
  | Some h =>
      "//" ++
      (if (username u =? "") && (password u =? "") then ""
       else username u ++ (if password u =? "" then "" else ":" ++ password u) ++ "@") ++
      h ++
      match port u with Some p => ":" ++ String_of_N p | None => "" end
  | None =>
      match opaque_path u, path u with
      | None, "" :: _ :: _ => "/."
      | _, _ => ""
      end
  end ++
  serialize_path u ++
  match query u with Some q => "?" ++ q | None => "" end ++
  match fragment u with Some f => "#" ++ f | None => "" end.

(** [new URL(input, base).href]; [Failure] stands for the [TypeError]
    the constructor throws. *)
Definition href (input base : string) : Outcome string :=
  bind (basic_parse base None) (fun b =>
  bind (basic_parse input (Some b)) (fun u => Parsed (serialize u))).

End WhatwgURL.

(* ===================================================================== *)
(** * Effects: errors, events, the world and the platform                 *)
(* ===================================================================== *)

(** What a [throw] carries; [message] is [e.message]. *)
Inductive Error : Type :=
| TypeError (msg : string)
| AxiosError (msg : string)
| FsError (msg : string).

Definition message (e : Error) : string :=
  match e with
  | TypeError m => m
  | AxiosError m => m
  | FsError m => m
  end.

Inductive Result (A : Type) : Type :=
| Ok (a : A)
| Throw (e : Error).
Arguments Ok {A} a.
Arguments Throw {A} e.

(** The axios configuration object handed to [client.get]. *)
Definition Options : Type := list (string * string).

(** The two request profiles of the program: [client.get(url, opts)] (base
    URL, 30 s timeout, redirects, any 2xx/3xx status accepted) and the
    plain [axios.get(url, {responseType: arraybuffer, timeout: 60000})].
    A page request may carry [null] for its URL. *)
Inductive Request : Type :=
| PageGet (url : option string) (opts : Options)
| AssetGet (url : string).

Inductive Event : Type :=
| EvGet (r : Request)
| EvSleep (ms : nat)
| EvMkdir (dir : string)
| EvExists (p : string) (found : bool)
| EvWrite (p : string)
| EvLog (args : list string)
| EvError (args : list string).

(** The state the program acts on: the paths that exist on disk and the
    history of what it did, oldest event first. *)
Record World : Type := mkWorld {
  paths : list string;
  trace : list Event }.

(** An HTML element as the program reads it: its attributes. *)
Definition Element : Type := list (string * string).

(** The collaborators of the program.  Each answer of the network or of
    the file system may depend on everything that happened before. *)
Record Platform : Type := mkPlatform {
  (** [new URL(input, base).href], [None] when the constructor throws *)
  URL_href : string -> string -> option string;
  (** [cheerio.load(html)(selector)]: the matched elements, in document order *)
  cheerio_select : string -> string -> list Element;
  (** the body of the response, or the rejection of the request *)
  http_get : list Event -> Request -> Result string;
  (** [fs.ensureDir]: [None] on success *)
  fs_mkdir : list Event -> string -> option Error;
  (** [fs.writeFile]: [None] on success *)
  fs_write : list Event -> string -> option Error;
  (** [path.resolve] of the output directory name *)
  OUTPUT_DIR : string }.

(** The state-and-exception monad of the asynchronous functions. *)
Definition M (A : Type) : Type := World -> World * Result A.

Definition ret {A : Type} (a : A) : M A := fun w => (w, Ok a).

Definition throw {A : Type} (e : Error) : M A := fun w => (w, Throw e).

Definition bindM {A B : Type} (m : M A) (k : A -> M B) : M B :=
  fun w =>
    match m w with
    | (w1, Ok a) => k a w1
    | (w1, Throw e) => (w1, Throw e)
    end.

(** [try { m } catch (e) { h e }] *)
Definition try_catch {A : Type} (m : M A) (h : Error -> M A) : M A :=
  fun w =>
    match m w with
    | (w1, Ok a) => (w1, Ok a)
    | (w1, Throw e) => h e w1
    end.

(** A synchronous result used where a promise is awaited. *)
Definition lift {A : Type} (r : Result A) : M A := fun w => (w, r).

Declare Scope monad_scope.
Delimit Scope monad_scope with monad.
Notation "x <- m ;; k" := (bindM m (fun x => k))
  (at level 61, m at next level, right associativity) : monad_scope.
Notation "m ;;; k" := (bindM m (fun _ => k))
  (at level 61, right associativity) : monad_scope.

Definition bindR {A B : Type} (r : Result A) (k : A -> Result B) : Result B :=
  match r with
  | Ok a => k a
  | Throw e => Throw e
  end.

(** [xs.map(f)] for an [f] that may throw: the first exception wins. *)
Fixpoint mapR {A B : Type} (f : A -> Result B) (l : list A) : Result (list B) :=
  match l with
  | [] => Ok []
  | x :: r => bindR (f x) (fun y => bindR (mapR f r) (fun ys => Ok (y :: ys)))
  end.

Definition emit (e : Event) : M unit :=
  fun w => (mkWorld (paths w) (trace w ++ [e]), Ok tt).

(** [console.log] and [console.error] record their arguments.  The
    pictographs that open some of the source's messages lie outside the
    Latin-1 range of the strings here and are written as a plain word
    ([Downloaded], [Failed:], [Product fetch failed:]); no property below
    depends on the text of a message. *)
Definition console_log (args : list string) : M unit := emit (EvLog args).
Definition console_error (args : list string) : M unit := emit (EvError args).

(** [new Promise(r => setTimeout(r, ms))] *)
Definition sleep (ms : nat) : M unit := emit (EvSleep ms).

(** [fs.pathExists(p)] *)
Definition pathExists (p : string) : M bool :=
  fun w =>
    let found := existsb (String.eqb p) (paths w) in
    (mkWorld (paths w) (trace w ++ [EvExists p found]), Ok found).

(** The number of requests sent, as a fetch-call counter would count. *)
Definition fetch_count (tr : list Event) : nat :=
  List.length (filter (fun e => match e with EvGet _ => true | _ => false end) tr).

(** [String(v)] for a string-or-null value, as a template literal prints it. *)
Definition show (v : option string) : string :=
  match v with Some s => s | None => "null" end.

Section PlatformOps.
Variable P : Platform.

(** [fs.ensureDir(dir)] *)
Definition ensureDir (dir : string) : M unit :=
  fun w =>
    let w1 := mkWorld (paths w) (trace w ++ [EvMkdir dir]) in
    match fs_mkdir P (trace w) dir with
    | None => (mkWorld (dir :: paths w1) (trace w1), Ok tt)
    | Some e => (w1, Throw e)
    end.

(** [fs.writeFile(p, data)] *)
Definition writeFile (p : string) : M unit :=
  fun w =>
    let w1 := mkWorld (paths w) (trace w ++ [EvWrite p]) in
    match fs_write P (trace w) p with
    | None => (mkWorld (p :: paths w1) (trace w1), Ok tt)
    | Some e => (w1, Throw e)
    end.

(** One request: the event is recorded, the platform answers. *)
Definition request (r : Request) : M string :=
  fun w => (mkWorld (paths w) (trace w ++ [EvGet r]), http_get P (trace w) r).

Definition client_get (url : option string) (opts : Options) : M string :=
  request (PageGet url opts).

Definition axios_get (url : string) : M string := request (AssetGet url).

End PlatformOps.

(* ===================================================================== *)
(** * The text the two copies share                                       *)
(* ===================================================================== *)

Module Common.

Definition MAX_RETRIES : nat := 3.
Definition RETRY_DELAY_MS : nat := 1200.
Definition FETCH_CONCURRENCY : nat := 4.
Definition DOWNLOAD_CONCURRENCY : nat := 4.

Definition image_exts : list string := [".jpg"; ".jpeg"; ".png"; ".webp"].

(** The end of [s] when it is [e] up to ASCII case. *)
Definition suffix_ci (e s : string) : option string :=
  let m := JS.last_chars (String.length e) s in
  if Nat.leb (String.length e) (String.length s) && (JS.ascii_lower m =? e)
  then Some m else None.

(** The first of the endings [es] that [s] has, as [s] spells it. *)
Fixpoint first_suffix_ci (es : list string) (s : string) : option string :=
  match es with
  | [] => None
  | e :: r =>
      match suffix_ci e s with
      | Some m => Some m
      | None => first_suffix_ci r s
      end
  end.

(** [s.match(re)] for the expression that accepts a final [.jpg], [.jpeg],
    [.png] or [.webp] in any letter case: the matched text. *)
Definition match_image_ext (s : string) : option string :=
  first_suffix_ci image_exts s.

Definition strip_query (u : string) : string := JS.before_char "?" u.

Definition isImageUrl (u : string) : bool :=
  match match_image_ext (strip_query u) with
  | Some _ => true
  | None => false
  end.

Definition extFromUrl (u : string) : string :=
  match match_image_ext (strip_query u) with
  | Some m => JS.toLowerCase m
  | None => ".jpg"
  end.

(** The class [\s] of regular expressions, on Latin-1 code units. *)
Definition is_space (c : ascii) : bool :=
  JS.in_range 9 13 c || Nat.eqb (JS.code c) 32 || Nat.eqb (JS.code c) 160.

(** [s.replace(/\s+/g, u)]: every run of white space becomes one [_]. *)
Fixpoint collapse_ws (in_run : bool) (s : string) : string :=
  match s with
  | EmptyString => EmptyString
  | String c r =>
      if is_space c then
        if in_run then collapse_ws true r else String "_" (collapse_ws true r)
      else String c (collapse_ws false r)
  end.

Definition safeFileName (name : string) : string :=
  JS.take 150 (collapse_ws false (SanitizeFilename.sanitize name)).

(** [s] contains [needle] (given in lower case) up to ASCII case. *)
Fixpoint contains_ci (needle s : string) : bool :=
  JS.startsWith_ci needle s ||
  match s with
  | EmptyString => false
  | String _ r => contains_ci needle r
  end.

(** [$(el).attr(name)] *)
Fixpoint attr (el : Element) (name : string) : option string :=
  match el with
  | [] => None
  | (k, v) :: r => if k =? name then Some v else attr r name
  end.

(** [a || b] on string-or-undefined values. *)
Definition or_else (a b : option string) : option string :=
  if JS.truthy a then a else b.

(** The synthetic name of the [index]-th image without a usable name. *)
Definition syntheticName (categoryName : string) (index : nat) (ext : string) : string :=
  safeFileName categoryName ++ "_" ++ JS.padStart 3 "0" (JS.String_of_nat index) ++ ext.

(** [new Set()] kept as the list of its members in insertion order. *)
Definition set_has {A : Type} (eqb : A -> A -> bool) (s : list A) (x : A) : bool :=
  existsb (eqb x) s.

Definition set_add {A : Type} (eqb : A -> A -> bool) (s : list A) (x : A) : list A :=
  if set_has eqb s x then s else s ++ [x].

Definition opt_eqb (a b : option string) : bool :=
  match a, b with
  | Some x, Some y => x =? y
  | None, None => true
  | _, _ => false
  end.

(** The values that are neither [null] nor [undefined]. *)
Fixpoint somes {A : Type} (l : list (option A)) : list A :=
  match l with
  | [] => []
  | Some x :: r => x :: somes r
  | None :: r => somes r
  end.

(** A loop over [l] whose body may throw. *)
Fixpoint foldR {A S : Type} (f : S -> A -> Result S) (l : list A) (s : S) : Result S :=
  match l with
  | [] => Ok s
  | x :: r => bindR (f s x) (foldR f r)
  end.

(** [Promise.all] over settled results: the values when every promise
    was fulfilled, the first rejection otherwise. *)
Fixpoint all_settled {A : Type} (rs : list (Result A)) : Result (list A) :=
  match rs with
  | [] => Ok []
  | Ok a :: r => bindR (all_settled r) (fun l => Ok (a :: l))
  | Throw e :: _ => Throw e
  end.

(** The workers of a p-limit queue, run in the order in which the queue
    starts them, each to its end before the next begins; a worker that
    throws does not stop the ones behind it.  The queue with its
    invocations in flight together is [Async.all], further down. *)
Fixpoint run_queue {A B : Type} (worker : A -> M B) (items : list A) (w : World)
  : World * list (Result B) :=
  match items with
  | [] => (w, [])
  | x :: r =>
      let '(w1, res) := worker x w in
      let '(w2, rs) := run_queue worker r w1 in
      (w2, res :: rs)
  end.

(** [for (const x of items) body(x)] *)
Fixpoint for_each {A : Type} (body : A -> M unit) (items : list A) : M unit :=
  match items with
  | [] => ret tt
  | x :: r => (body x ;;; for_each body r)%monad
  end.

Definition e_acute : string := String (JS.chr 233) "".
Definition e_circ : string := String (JS.chr 234) "".
Definition a_grave : string := String (JS.chr 224) "".
Definition E_acute : string := String (JS.chr 201) "".

(** The table [CATEGORIES], in the order of [Object.entries]. *)
Definition CATEGORIES : list (string * string) :=
  [ ("Fauteuils M" ++ e_acute ++ "dicals", "prod/fauteuils-medicals-maroc");
    ("Lits hospitaliers", "cat/lits-hospitaliers-maroc");
    ("Matelas m" ++ e_acute ++ "dical", "prod/matelas-medical-maroc");
    ("Table de chevet", "prod/table-de-chevet-maroc");
    ("Table " ++ a_grave ++ " manger", "prod/table-a-manger-maroc");
    ("Berceaux", "prod/berceaux-maroc");
    ("Chariots brancards", "prod/chariots-brancards-maroc");
    ("Divan d'examen", "prod/divan-d-examen-maroc");
    ("Tabourets", "prod/tabourets-maroc");
    (E_acute ++ "clairage m" ++ e_acute ++ "dical", "prod/eclairage-medical-maroc");
    ("Chariots", "prod/chariots-maroc");
    ("Gyn" ++ e_acute ++ "cologie", "prod/gynecologie-maroc");
    ("Paravents", "prod/paravents-maroc");
    ("Armoire et vitrine", "prod/armoire-et-vitrine-maroc");
    ("R" ++ e_acute ++ e_acute ++ "ducation et massage", "prod/reeduction-et-massage-maroc");
    ("Mobilier de bureau", "cat/mobilier-de-bureau-maroc");
    ("Mobilier laboratoire", "prod/mobilier-laboratoire-maroc");
    ("Couveuses n" ++ e_acute ++ "onatales", "prod/couveuses-neonatales-maroc");
    ("Tables chauffantes", "prod/tables-chauffantes-maroc");
    ("Appareils de phototh" ++ e_acute ++ "rapie", "prod/appareils-de-phototherapie-maroc");
    ("Gaines t" ++ e_circ ++ "te de lit", "prod/gaines-tete-de-lit-maroc");
    (E_acute ++ "clairage op" ++ e_acute ++ "ratoire", "prod/eclairage-operatoire-maroc");
    ("Diagnostique", "prod/diagnostique-maroc") ].

(** The selectors of the three extractors. *)
Definition SEL_CARD_IMG : string := ".single-product-item .img-holder img".
Definition SEL_CARD_LINK : string :=
  ".single-product-item .img-holder a, .single-product-item .product-title a".
Definition SEL_PRODUCT_IMG : string := ".img-holder img, .thumb-image img, .thumb-image".
Definition SEL_IMG : string := "img".

(** The test of the product-link filter: [details/] or [prod/], in any
    letter case, anywhere in the reference. *)
Definition isProductHref (href : string) : bool :=
  contains_ci "details/" href || contains_ci "prod/" href.

(** The test of the blanket image scan: [/images/produits/] in the URL. *)
Definition underProductImages (u : string) : bool :=
  contains_ci "/images/produits/" u.

(** [url.replace(re, empty)] for the expression that accepts one leading
    [/] or [./]. *)
Definition strip_dot_slash (u : string) : string :=
  if JS.startsWith "./" u then JS.drop 2 u
  else if JS.startsWith "/" u then JS.drop 1 u
  else u.

Section WithPlatform.
Variable P : Platform.

(** [fetchWithRetry(url, opts, attempt)] *)
Equations fetchWithRetry (url : option string) (opts : Options) (attempt : nat)
  (w : World) : World * Result string by wf (MAX_RETRIES - attempt) lt :=
fetchWithRetry url opts attempt w with client_get P url opts w => {
  | (w1, Ok res) => (w1, Ok res);
  | (w1, Throw e) with le_lt_dec MAX_RETRIES attempt => {
      | left _ => (w1, Throw e);
      | right _ =>
          fetchWithRetry url opts (attempt + 1)
            (fst (sleep (RETRY_DELAY_MS * attempt) w1)) } }.
Next Obligation.
  unfold MAX_RETRIES in *; destruct attempt as [|[|[|k]]]; simpl; lia.
Qed.

(** The body of [downloadFile]'s [try] block. *)
Definition download_attempt (url dest : string) : M unit :=
  (data <- axios_get P url ;; writeFile P dest)%monad.

(** [downloadFile(url, dest, attempt)] *)
Equations downloadFile (url dest : string) (attempt : nat) (w : World)
  : World * Result unit by wf (MAX_RETRIES - attempt) lt :=
downloadFile url dest attempt w with ensureDir P (NodePath.dirname dest) w => {
  | (w0, Throw e) => (w0, Throw e);
  | (w0, Ok _) with download_attempt url dest w0 => {
      | (w1, Ok _) => (w1, Ok tt);
      | (w1, Throw e) with le_lt_dec MAX_RETRIES attempt => {
          | left _ =>
              console_error ["Failed:"; url; "->"; dest; message e] w1;
          | right _ =>
              downloadFile url dest (attempt + 1)
                (fst (sleep (RETRY_DELAY_MS * attempt) w1)) } } }.
Next Obligation.
  unfold MAX_RETRIES in *; destruct attempt as [|[|[|k]]]; simpl; lia.
Qed.

End WithPlatform.

End Common.

(* ===================================================================== *)
(** * src/scrape-botech.js                                                *)
(* ===================================================================== *)

Module Botech.
Import Common.

Definition BASE_URL : string := "https://www.botech.ma/".

(** [uniq = arr => [...new Set(arr)]] *)
Definition uniq {A : Type} (eqb : A -> A -> bool) (arr : list A) : list A :=
  fold_left (set_add eqb) arr [].

Section WithPlatform.
Variable P : Platform.

Definition toAbs (url : option string) : Result (option string) :=
  match url with
  | None => Ok None
  | Some u =>
      if u =? "" then Ok None
      else if JS.startsWith_ci "http://" u || JS.startsWith_ci "https://" u
      then Ok (Some u)
      else
        match URL_href P (strip_dot_slash u) BASE_URL with
        | Some h => Ok (Some h)
        | None => Throw (TypeError "Invalid URL")
        end
  end.

Definition extractCategoryImages (html : string) : Result (list string) :=
  bindR (mapR (fun el => toAbs (attr el "src")) (cheerio_select P html SEL_CARD_IMG))
    (fun urls => Ok (uniq String.eqb (filter isImageUrl (somes urls)))).

Definition extractProductLinks (html : string) : Result (list (option string)) :=
  let hrefs := somes (map (fun el => attr el "href") (cheerio_select P html SEL_CARD_LINK)) in
  bindR (mapR (fun href => toAbs (Some href)) (filter isProductHref hrefs))
    (fun links => Ok (uniq opt_eqb links)).

(** The body of the first [each] of [extractProductImages]. *)
Definition addHolderImage (urls : list string) (el : Element) : Result (list string) :=
  let src := or_else (or_else (attr el "src") (attr el "data-src")) (attr el "data-imagezoom") in
  bindR (toAbs src) (fun abs =>
    match abs with
    | Some a => if JS.truthy abs && isImageUrl a then Ok (set_add String.eqb urls a) else Ok urls
    | None => Ok urls
    end).

(** The body of the second [each]. *)
Definition addProductImage (urls : list string) (el : Element) : Result (list string) :=
  bindR (toAbs (attr el "src")) (fun abs =>
    match abs with
    | Some a =>
        if JS.truthy abs && isImageUrl a && underProductImages a
        then Ok (set_add String.eqb urls a) else Ok urls
    | None => Ok urls
    end).

Definition extractProductImages (html : string) : Result (list string) :=
  bindR (foldR addHolderImage (cheerio_select P html SEL_PRODUCT_IMG) [])
    (fun urls => foldR addProductImage (cheerio_select P html SEL_IMG) urls).

(** The worker of the fetch phase. *)
Definition fetchProduct (url : option string) : M string :=
  try_catch (fetchWithRetry P url [] 1)
    (fun e => (console_error ["Product fetch failed:"; show url; message e] ;;; ret "")%monad).

(** [productPages.flatMap(html => extractProductImages(html))] *)
Definition productImages (productPages : list string) : Result (list string) :=
  bindR (mapR extractProductImages productPages) (fun ls => Ok (List.concat ls)).

(** The value of [allImages]. *)
Definition allImages (catThumbs : list string) (productPages : list string)
  : Result (list string) :=
  bindR (productImages productPages) (fun imgs => Ok (uniq String.eqb (catThumbs ++ imgs)%list)).

(** The file name chosen for [imgUrl] and the value of [index] after it. *)
Definition fileNameFor (categoryName imgUrl : string) (index : nat) : string * nat :=
  let ext := extFromUrl imgUrl in
  let urlName := safeFileName (NodePath.basename (strip_query imgUrl)) in
  if JS.includes_char "." urlName then (urlName, index)
  else (syntheticName categoryName index ext, S index).

(** The worker of the download phase, once the name is chosen. *)
Definition downloadTo (folder imgUrl fileName : string) : M unit :=
  let dest := NodePath.join folder fileName in
  (found <- pathExists dest ;;
   if negb found then
     downloadFile P imgUrl dest 1 ;;;
     console_log ["Downloaded"; imgUrl; "->"; fileName]
   else ret tt)%monad.

(** The download phase: the workers in queue order and one at a time,
    [index] threaded through them as the shared counter it is. *)
Fixpoint downloadAll (folder categoryName : string) (imgs : list string) (index : nat)
  (w : World) : World * list (Result unit) :=
  match imgs with
  | [] => (w, [])
  | imgUrl :: rest =>
      let '(fileName, index') := fileNameFor categoryName imgUrl index in
      let '(w1, r) := downloadTo folder imgUrl fileName w in
      let '(w2, rs) := downloadAll folder categoryName rest index' w1 in
      (w2, r :: rs)
  end.

(** The destination paths of the download phase, in order. *)
Fixpoint destinations (folder categoryName : string) (imgs : list string) (index : nat)
  : list string :=
  match imgs with
  | [] => []
  | imgUrl :: rest =>
      let '(fileName, index') := fileNameFor categoryName imgUrl index in
      NodePath.join folder fileName :: destinations folder categoryName rest index'
  end.

Definition folderOf (categoryName : string) : string :=
  NodePath.join (OUTPUT_DIR P) (safeFileName categoryName).

(** The download phase of [scrapeCategory], its workers taken one at a
    time: what [Promise.all] answers is looked at when the last of them
    has run. *)
Definition downloadPhase (categoryName : string) (allImages : list string) : M unit :=
  fun w =>
    let '(w1, rs) := downloadAll (folderOf categoryName) categoryName allImages 1 w in
    (w1, bindR (all_settled rs) (fun _ => Ok tt)).

(** The phases of [scrapeCategory] up to the final image set. *)
Definition collectImages (categoryName relativePath : string)
  : M (list string * list (option string)) :=
  (ensureDir P (folderOf categoryName) ;;;
   categoryUrl <- lift (toAbs (Some relativePath)) ;;
   console_log ["==>"; categoryName; show categoryUrl] ;;;
   catHtml <- fetchWithRetry P categoryUrl [] 1 ;;
   catThumbs <- lift (extractCategoryImages catHtml) ;;
   productLinks <- lift (extractProductLinks catHtml) ;;
   productPages <- (fun w =>
      let '(w1, rs) := run_queue fetchProduct productLinks w in (w1, all_settled rs)) ;;
   imgs <- lift (allImages catThumbs productPages) ;;
   ret (imgs, productLinks))%monad.

Definition scrapeCategory (categoryName relativePath : string) : M unit :=
  (found <- collectImages categoryName relativePath ;;
   let '(imgs, productLinks) := found in
   console_log [categoryName; JS.String_of_nat (List.length imgs); "image(s)";
                JS.String_of_nat (List.length productLinks); "product(s)"] ;;;
   downloadPhase categoryName imgs)%monad.

(** The body of the loop of [main]. *)
Definition attemptCategory (entry : string * string) : M unit :=
  let '(name, rel) := entry in
  try_catch (scrapeCategory name rel)
    (fun e => console_error ["[ERROR] Category"; name; "failed:"; message e]).

Definition main_over (categories : list (string * string)) : M unit :=
  (ensureDir P (OUTPUT_DIR P) ;;;
   console_log ["Saving images into:"; OUTPUT_DIR P] ;;;
   for_each attemptCategory categories ;;;
   console_log ["All done!"])%monad.

Definition main : M unit := main_over CATEGORIES.

End WithPlatform.

End Botech.

(* ===================================================================== *)
(** * src/unnamed/part_001                                                *)
(* ===================================================================== *)

Module Part001.
Import Common.

Definition BASE : string := "https://www.botech.ma/".

(** The loop of [uniq]: [s] is the set of values seen, [out] the result. *)
Fixpoint uniq_loop {A : Type} (eqb : A -> A -> bool) (arr s out : list A) : list A :=
  match arr with
  | [] => out
  | x :: r =>
      if negb (set_has eqb s x)
      then uniq_loop eqb r (set_add eqb s x) (out ++ [x])
      else uniq_loop eqb r s out
  end.

Definition uniq {A : Type} (eqb : A -> A -> bool) (arr : list A) : list A :=
  uniq_loop eqb arr [] [].

Section WithPlatform.
Variable P : Platform.

Definition toAbs (url : option string) : Result (option string) :=
  match url with
  | None => Ok None
  | Some u =>
      if u =? "" then Ok None
      else if JS.startsWith "http://" u || JS.startsWith "https://" u then Ok (Some u)
      else if JS.startsWith "/" u then
        match URL_href P u BASE with
        | Some h => Ok (Some h)
        | None => Throw (TypeError "Invalid URL")
        end
      else Ok (Some (BASE ++ strip_dot_slash u))
  end.

(** [if (abs && keep(abs)) urls.push(abs)] *)
Definition pushIf (keep : string -> bool) (urls : list string) (abs : option string)
  : list string :=
  match abs with
  | Some a => if JS.truthy abs && keep a then urls ++ [a] else urls
  | None => urls
  end.

Definition getCategoryPageImageUrls (html : string) : Result (list string) :=
  bindR (foldR (fun urls el =>
                  bindR (toAbs (attr el "src")) (fun abs => Ok (pushIf isImageUrl urls abs)))
           (cheerio_select P html SEL_CARD_IMG) [])
    (fun urls => Ok (uniq String.eqb urls)).

Definition getProductLinksFromCategory (html : string) : Result (list (option string)) :=
  bindR (foldR (fun links el =>
                  match attr el "href" with
                  | Some href =>
                      if JS.truthy (Some href) && isProductHref href
                      then bindR (toAbs (Some href)) (fun abs => Ok (links ++ [abs])%list)
                      else Ok links
                  | None => Ok links
                  end)
           (cheerio_select P html SEL_CARD_LINK) [])
    (fun links => Ok (uniq opt_eqb links)).

Definition getProductImages (html : string) : Result (list string) :=
  bindR (foldR (fun urls el =>
                  let src := or_else (attr el "src") (attr el "data-src") in
                  let dataZoom := attr el "data-imagezoom" in
                  let cand := or_else src dataZoom in
                  bindR (toAbs cand) (fun abs => Ok (pushIf isImageUrl urls abs)))
           (cheerio_select P html SEL_PRODUCT_IMG) [])
    (fun urls =>
  bindR (foldR (fun urls el =>
                  bindR (toAbs (attr el "src")) (fun abs =>
                    Ok (pushIf (fun a => isImageUrl a && underProductImages a) urls abs)))
           (cheerio_select P html SEL_IMG) urls)
    (fun urls => Ok (uniq String.eqb urls))).

(** A fetched product page, [{ url, html }]. *)
Record ProductPage : Type := mkPage {
  page_url : option string;
  page_html : string }.

(** The worker of the fetch phase. *)
Definition fetchProduct (u : option string) : M ProductPage :=
  try_catch (html <- fetchWithRetry P u [] 1 ;; ret (mkPage u html))%monad
    (fun e => (console_error ["Product fetch failed:"; show u; message e] ;;;
               ret (mkPage u ""))%monad).

(** The loop that fills [productImgs]; pages without a body are skipped. *)
Definition productImages (productPages : list ProductPage) : Result (list string) :=
  foldR (fun productImgs p =>
           if negb (JS.truthy (Some (page_html p))) then Ok productImgs
           else bindR (getProductImages (page_html p)) (fun imgs =>
                  Ok (productImgs ++ imgs)%list))
    productPages [].

(** The value of [allImages]. *)
Definition allImages (catThumbs : list string) (productPages : list ProductPage)
  : Result (list string) :=
  bindR (productImages productPages) (fun imgs => Ok (uniq String.eqb (catThumbs ++ imgs)%list)).

(** The file name chosen for [imgUrl] and the value of [idx] after it. *)
Definition fileNameFor (categoryName imgUrl : string) (idx : nat) : string * nat :=
  let ext := extFromUrl imgUrl in
  let urlName := safeFileName (NodePath.basename (strip_query imgUrl)) in
  if JS.truthy (Some urlName) && JS.includes_char "." urlName then (urlName, idx)
  else (syntheticName categoryName idx ext, S idx).

(** The worker of the download phase, once the name is chosen. *)
Definition downloadTo (folder imgUrl fileName : string) : M unit :=
  let dest := NodePath.join folder fileName in
  (found <- pathExists dest ;;
   if found then ret tt
   else
     downloadFile P imgUrl dest 1 ;;;
     console_log ["Downloaded"; imgUrl; "->"; dest])%monad.

Fixpoint downloadAll (folder categoryName : string) (imgs : list string) (idx : nat)
  (w : World) : World * list (Result unit) :=
  match imgs with
  | [] => (w, [])
  | imgUrl :: rest =>
      let '(fileName, idx') := fileNameFor categoryName imgUrl idx in
      let '(w1, r) := downloadTo folder imgUrl fileName w in
      let '(w2, rs) := downloadAll folder categoryName rest idx' w1 in
      (w2, r :: rs)
  end.

(** The destination paths of the download phase, in order. *)
Fixpoint destinations (folder categoryName : string) (imgs : list string) (idx : nat)
  : list string :=
  match imgs with
  | [] => []
  | imgUrl :: rest =>
      let '(fileName, idx') := fileNameFor categoryName imgUrl idx in
      NodePath.join folder fileName :: destinations folder categoryName rest idx'
  end.

Definition folderOf (categoryName : string) : string :=
  NodePath.join (OUTPUT_DIR P) (safeFileName categoryName).

(** The download phase of [scrapeCategory], its workers taken one at a
    time: what [Promise.all] answers is looked at when the last of them
    has run. *)
Definition downloadPhase (categoryName : string) (allImages : list string) : M unit :=
  fun w =>
    let '(w1, rs) := downloadAll (folderOf categoryName) categoryName allImages 1 w in
    (w1, bindR (all_settled rs) (fun _ => Ok tt)).

(** The phases of [scrapeCategory] up to the final image set. *)
Definition collectImages (categoryName relativePath : string)
  : M (list string * list (option string)) :=
  (ensureDir P (folderOf categoryName) ;;;
   categoryUrl <- lift (toAbs (Some relativePath)) ;;
   console_log ["==> Category:"; categoryName; show categoryUrl] ;;;
   catHtml <- fetchWithRetry P categoryUrl [] 1 ;;
   catThumbs <- lift (getCategoryPageImageUrls catHtml) ;;
   productLinks <- lift (getProductLinksFromCategory catHtml) ;;
   productPages <- (fun w =>
      let '(w1, rs) := run_queue fetchProduct productLinks w in (w1, all_settled rs)) ;;
   imgs <- lift (allImages catThumbs productPages) ;;
   ret (imgs, productLinks))%monad.

Definition scrapeCategory (categoryName relativePath : string) : M unit :=
  (found <- collectImages categoryName relativePath ;;
   let '(imgs, productLinks) := found in
   console_log ["Found"; JS.String_of_nat (List.length imgs); "image(s) in"; categoryName;
                JS.String_of_nat (List.length productLinks); "product page(s)"] ;;;
   downloadPhase categoryName imgs)%monad.

(** The body of the loop of [main]. *)
Definition attemptCategory (entry : string * string) : M unit :=
  let '(name, rel) := entry in
  try_catch (scrapeCategory name rel)
    (fun e => console_error ["[ERROR] Category"; name; "failed:"; message e]).

Definition main_over (categories : list (string * string)) : M unit :=
  (ensureDir P (OUTPUT_DIR P) ;;;
   console_log ["Saving into:"; OUTPUT_DIR P] ;;;
   for_each attemptCategory categories ;;;
   console_log ["Done."])%monad.

Definition main : M unit := main_over CATEGORIES.

(** [main().catch(e => { console.error(e); process.exit(1) })]: the exit
    code of the process. *)
Definition run (w : World) : World * nat :=
  match main w with
  | (w1, Ok _) => (w1, 0)
  | (w1, Throw e) => (fst (console_error [message e] w1), 1)
  end.

End WithPlatform.

End Part001.

(* ===================================================================== *)
(** * Asynchronous execution                                              *)
(* ===================================================================== *)

(** The functions above run one call to its end before the next begins.
    The program does not: an [async] function runs until it awaits an
    operation of the platform, and goes on later, when the event loop
    resumes it; the invocations that p-limit has started take turns in
    between.  Here the program is written once more as a tree of
    operations, and the turns are left to a scheduler.

    An operation takes effect where the code calls it: the event is
    recorded and the answer of the platform is fixed then, so that the
    history lists the operations in the order in which the code calls
    them.  What is left open is the order in which the suspended
    invocations go on. *)

Module Async.

(** The operations of the program.  All but the two of the console are
    awaited. *)
Inductive Op : Type -> Type :=
| Get (r : Request) : Op string
| Sleep (ms : nat) : Op unit
| EnsureDir (dir : string) : Op unit
| WriteFile (p : string) : Op unit
| PathExists (p : string) : Op bool
| Log (args : list string) : Op unit
| LogError (args : list string) : Op unit.

Definition perform (P : Platform) {X : Type} (op : Op X) : M X :=
  match op in Op X return M X with
  | Get r => request P r
  | Sleep ms => sleep ms
  | EnsureDir dir => ensureDir P dir
  | WriteFile p => writeFile P p
  | PathExists p => pathExists p
  | Log args => console_log args
  | LogError args => console_error args
  end.

Definition awaited {X : Type} (op : Op X) : bool :=
  match op with
  | Log _ | LogError _ => false
  | _ => true
  end.

(** A computation over the commands [E]: it has returned or thrown, or
    it issues a command and goes on with the outcome. *)
Section Free.
Variable E : Type -> Type.

Inductive Free (A : Type) : Type :=
| Return (r : Result A)
| Do {X : Type} (e : E X) (k : Result X -> Free A).

Arguments Return {A} r.
Arguments Do {A X} e k.

Fixpoint bind {A B : Type} (t : Free A) (f : A -> Free B) : Free B :=
  match t with
  | Return (Ok a) => f a
  | Return (Throw e) => Return (Throw e)
  | Do e k => Do e (fun x => bind (k x) f)
  end.

(** [try { t } catch (e) { h e }] *)
Fixpoint try_catch {A : Type} (t : Free A) (h : Error -> Free A) : Free A :=
  match t with
  | Return (Ok a) => Return (Ok a)
  | Return (Throw e) => h e
  | Do e k => Do e (fun x => try_catch (k x) h)
  end.

End Free.

Arguments Return {E A} r.
Arguments Do {E A X} e k.
Arguments bind {E A B} t f.
Arguments try_catch {E A} t h.

Definition ret {E : Type -> Type} {A : Type} (a : A) : Free E A := Return (Ok a).
Definition throw {E : Type -> Type} {A : Type} (e : Error) : Free E A := Return (Throw e).
Definition lift {E : Type -> Type} {A : Type} (r : Result A) : Free E A := Return r.

Declare Scope async_scope.
Delimit Scope async_scope with async.
Notation "x <- m ;; k" := (bind m (fun x => k))
  (at level 61, m at next level, right associativity) : async_scope.
Notation "m ;;; k" := (bind m (fun _ => k))
  (at level 61, right associativity) : async_scope.

(** The body of one invocation: what an [async] function does between
    its call and the settling of its promise. *)
Definition Task : Type -> Type := Free Op.

Definition io {X : Type} (op : Op X) : Task X := Do op Return.

(** One turn of an invocation: it runs on from [t] until it settles or
    has issued an awaited operation; what is left of it then waits. *)
Fixpoint segment (P : Platform) {A : Type} (t : Task A) (w : World)
  : World * (Result A + Task A) :=
  match t with
  | Return r => (w, inl r)
  | Do op k =>
      let '(w1, x) := perform P op w in
      if awaited op then (w1, inr (k x)) else segment P (k x) w1
  end.

(** The invocation run to its end with no other in between. *)
Fixpoint alone (P : Platform) {A : Type} (t : Task A) (w : World) : World * Result A :=
  match t with
  | Return r => (w, r)
  | Do op k => let '(w1, x) := perform P op w in alone P (k x) w1
  end.

(** [r] is an outcome of the invocation [t]: its turns, each taken in
    some world, end with [r]. *)
Inductive may_settle (P : Platform) {A : Type} : Task A -> Result A -> Prop :=
| settles_now : forall t w r,
    snd (segment P t w) = inl r -> may_settle P t r
| settles_later : forall t w t' r,
    snd (segment P t w) = inr t' -> may_settle P t' r -> may_settle P t r.

(** Whatever the worlds in which its operations are performed, the
    outcome of [t] satisfies [Q]. *)
Fixpoint always (P : Platform) {A : Type} (Q : Result A -> Prop) (t : Task A) : Prop :=
  match t with
  | Return r => Q r
  | Do op k => forall w, always P Q (k (snd (perform P op w)))
  end.

(** ** p-limit and Promise.all *)

(** [Promise.all(items.map(x => limit(() => worker(x))))].  A worker is
    the function handed to [limit]: called with the value of the
    variable that the workers share, it runs its synchronous opening
    and gives the value it leaves and the rest of its body. *)
Definition Worker (R : Type) : Type := nat -> nat * Task R.

Record Pool (R : Type) : Type := mkPool {
  (** the queue of p-limit: the calls not yet made, with their index *)
  pending : list (nat * Worker R);
  (** the invocations started and not settled, each waiting at an [await] *)
  active : list (nat * Task R);
  (** the values of [Promise.all], by index *)
  slots : list (option R);
  (** the first rejection *)
  rejected : option Error;
  (** the variable the workers share *)
  shared : nat }.

Arguments mkPool {R} pending active slots rejected shared.
Arguments pending {R} p.
Arguments active {R} p.
Arguments slots {R} p.
Arguments rejected {R} p.
Arguments shared {R} p.

Fixpoint store {R : Type} (i : nat) (v : R) (l : list (option R)) : list (option R) :=
  match l, i with
  | [], _ => []
  | _ :: t, 0 => Some v :: t
  | h :: t, S k => h :: store k v t
  end.

Fixpoint index_from {T : Type} (n : nat) (items : list T) : list (nat * T) :=
  match items with
  | [] => []
  | x :: r => (n, x) :: index_from (S n) r
  end.

Definition initial {R : Type} (index : nat) (workers : list (Worker R)) : Pool R :=
  mkPool (index_from 0 workers) [] (map (fun _ => None) workers) None index.

(** The promise of invocation [i] settles. *)
Definition settle {R : Type} (i : nat) (r : Result R) (q : Pool R) : Pool R :=
  match r with
  | Ok v => mkPool (pending q) (active q) (store i v (slots q)) (rejected q) (shared q)
  | Throw e =>
      mkPool (pending q) (active q) (slots q)
        (match rejected q with Some e0 => Some e0 | None => Some e end) (shared q)
  end.

(** Invocation [i] takes a turn from [t]; [before] and [after] are the
    other invocations in flight. *)
Definition turn (P : Platform) {R : Type} (i : nat) (t : Task R)
  (before after : list (nat * Task R)) (q : Pool R) (w : World) : World * Pool R :=
  match segment P t w with
  | (w1, inl r) =>
      (w1, settle i r (mkPool (pending q) (before ++ after)%list (slots q) (rejected q) (shared q)))
  | (w1, inr t') =>
      (w1, mkPool (pending q) (before ++ (i, t') :: after)%list (slots q) (rejected q) (shared q))
  end.

(** A call is waiting and fewer than [limit] invocations are in flight:
    p-limit makes the call before anything else happens. *)
Definition ready {R : Type} (limit : nat) (q : Pool R) : bool :=
  match pending q with
  | [] => false
  | _ :: _ => Nat.ltb (List.length (active q)) limit
  end.

Definition start (P : Platform) {R : Type} (limit : nat) (q : Pool R) (w : World)
  : option (World * Pool R) :=
  match pending q with
  | (i, f) :: rest =>
      if Nat.ltb (List.length (active q)) limit then
        let '(index, t) := f (shared q) in
        Some (turn P i t (active q) []
                (mkPool rest (active q) (slots q) (rejected q) index) w)
      else None
  | [] => None
  end.

(** The [n]-th invocation in flight goes on. *)
Definition resume (P : Platform) {R : Type} (limit n : nat) (q : Pool R) (w : World)
  : option (World * Pool R) :=
  if ready limit q then None
  else
    match skipn n (active q) with
    | (i, t) :: after => Some (turn P i t (firstn n (active q)) after q w)
    | [] => None
    end.

Definition step (P : Platform) {R : Type} (limit : nat) (s s' : World * Pool R) : Prop :=
  start P limit (snd s) (fst s) = Some s'
  \/ exists n, resume P limit n (snd s) (fst s) = Some s'.

(** The states that the queue reaches from [q0], one turn after the
    other, whatever the world of each turn. *)
Inductive reached (P : Platform) {R : Type} (limit : nat) (q0 : Pool R) : Pool R -> Prop :=
| reached_first : reached P limit q0 q0
| reached_next : forall q w q' w',
    reached P limit q0 q -> step P limit (w, q) (w', q') -> reached P limit q0 q'.

Definition finished {R : Type} (q : Pool R) : bool :=
  match pending q, active q with
  | [], [] => true
  | _, _ => false
  end.

(** What the caller of [Promise.all] gets, if anything yet: the first
    rejection as soon as there is one, the values once every invocation
    has settled. *)
Definition outcome {R : Type} (limit : nat) (q : Pool R) : option (Result (list R)) :=
  if ready limit q then None
  else
    match rejected q with
    | Some e => Some (Throw e)
    | None => if finished q then Some (Ok (Common.somes (slots q))) else None
    end.

(** A queue whose [Promise.all] has rejected.  Nobody awaits it any
    more, but its invocations go on and p-limit goes on starting the
    calls that wait. *)
Inductive Detached : Type :=
| detach {R : Type} (limit : nat) (q : Pool R).

(** The world, and the queues left behind. *)
Definition Config : Type := World * list Detached.

Inductive background (P : Platform) : Config -> Config -> Prop :=
| background_step :
    forall (R : Type) (limit : nat) (q q' : Pool R) (w w' : World) (pre post : list Detached),
      step P limit (w, q) (w', q') ->
      background P (w, (pre ++ detach limit q :: post)%list)
        (w', (pre ++ detach limit q' :: post)%list).

(** What may happen while the caller waits. *)
Inductive meanwhile (P : Platform) : Config -> Config -> Prop :=
| meanwhile_nothing : forall c, meanwhile P c c
| meanwhile_more : forall c1 c2 c3,
    background P c1 c2 -> meanwhile P c2 c3 -> meanwhile P c1 c3.

(** [await Promise.all(...)] from the state [q] of the queue. *)
Inductive all (P : Platform) {R : Type} (limit : nat)
  : Pool R -> Config -> Config -> Result (list R) -> Prop :=
| all_fulfilled : forall q c vs,
    outcome limit q = Some (Ok vs) ->
    all P limit q c c (Ok vs)
| all_rejected : forall q w bg e,
    outcome limit q = Some (Throw e) ->
    all P limit q (w, bg) (w, (bg ++ [detach limit q])%list) (Throw e)
| all_step : forall q q' w w' bg c' r,
    outcome limit q = None ->
    step P limit (w, q) (w', q') ->
    all P limit q' (w', bg) c' r ->
    all P limit q (w, bg) c' r
| all_background : forall q c c1 c' r,
    outcome limit q = None ->
    ready limit q = false ->
    background P c c1 ->
    all P limit q c1 c' r ->
    all P limit q c c' r.

(** What holds of every state that the queue of [workers] reaches. *)
Section Reached.
Variable P : Platform.
Context {R : Type}.
Variable limit : nat.
Variable workers : list (Worker R).

(** The invocation [i] is what is left of a call of worker [i]. *)
Definition origin (i : nat) (t : Task R) : Prop :=
  exists f n,
    nth_error workers i = Some f
    /\ forall r, may_settle P t r -> may_settle P (snd (f n)) r.

Record Inv (q : Pool R) : Prop := mkInv {
  inv_pending : forall i f, In (i, f) (pending q) -> nth_error workers i = Some f;
  inv_active : forall i t, In (i, t) (active q) -> origin i t;
  inv_slots : forall i v,
    nth_error (slots q) i = Some (Some v) ->
    exists f n, nth_error workers i = Some f /\ may_settle P (snd (f n)) (Ok v);
  inv_rejected : forall e,
    rejected q = Some e ->
    exists i f n, nth_error workers i = Some f /\ may_settle P (snd (f n)) (Throw e);
  inv_length : List.length (slots q) = List.length workers;
  inv_waiting : forall i,
    nth_error (slots q) i = Some None ->
    rejected q <> None
    \/ (exists f, In (i, f) (pending q))
    \/ (exists t, In (i, t) (active q));
  inv_bound : List.length (active q) <= limit }.

End Reached.

(** ** The orchestrator *)

(** The commands of the functions that are not workers: an operation,
    or a bounded queue of workers with the first value of the variable
    they share. *)
Inductive Cmd : Type -> Type :=
| Basic {X : Type} (op : Op X) : Cmd X
| AllOf {R : Type} (limit : nat) (index : nat) (workers : list (Worker R)) : Cmd (list R).

Definition Proc : Type -> Type := Free Cmd.

Definition all_of {R : Type} (limit index : nat) (workers : list (Worker R)) : Proc (list R) :=
  Do (AllOf limit index workers) Return.

(** A task called from the orchestrator. *)
Fixpoint call {A : Type} (t : Task A) : Proc A :=
  match t with
  | Return r => Return r
  | Do op k => Do (Basic op) (fun x => call (k x))
  end.

(** One command: the configuration it leaves and its outcome. *)
Definition exec (P : Platform) {X : Type} (e : Cmd X) (c c' : Config) (x : Result X) : Prop :=
  match e in Cmd X return Result X -> Prop with
  | Basic op => fun x =>
      x = snd (perform P op (fst c))
      /\ if awaited op then meanwhile P (fst (perform P op (fst c)), snd c) c'
         else c' = (fst (perform P op (fst c)), snd c)
  | AllOf limit index workers => fun x =>
      all P limit (initial index workers) c c' x
  end x.

Fixpoint runs (P : Platform) {A : Type} (p : Proc A) (c c' : Config) (r : Result A) : Prop :=
  match p with
  | Return r0 => c' = c /\ r = r0
  | Do e k => exists c1 x, exec P e c c1 x /\ runs P (k x) c1 c' r
  end.

(** [p] is answered, whatever the configuration it starts in. *)
Definition total (P : Platform) {A : Type} (p : Proc A) : Prop :=
  forall c, exists c' r, runs P p c c' r.

(** ** One invocation at a time *)

(** The workers of a queue, each run alone and to its end, in the order
    of the queue. *)
Fixpoint queue_alone (P : Platform) {R : Type} (workers : list (Worker R)) (index : nat)
  (w : World) : World * list (Result R) :=
  match workers with
  | [] => (w, [])
  | f :: rest =>
      let '(index', t) := f index in
      let '(w1, r) := alone P t w in
      let '(w2, rs) := queue_alone P rest index' w1 in
      (w2, r :: rs)
  end.

Definition exec_in_order (P : Platform) {X : Type} (e : Cmd X) : M X :=
  match e in Cmd X return M X with
  | Basic op => perform P op
  | AllOf limit index workers =>
      fun w =>
        let '(w1, rs) := queue_alone P workers index w in
        (w1, Common.all_settled rs)
  end.

(** The process as a function of the world: nothing happens between an
    operation and what follows it, and the invocations of a queue do
    not overlap.  This is how the functions of the first part read the
    program. *)
Fixpoint in_order (P : Platform) {A : Type} (p : Proc A) (w : World) : World * Result A :=
  match p with
  | Return r => (w, r)
  | Do e k => let '(w1, x) := exec_in_order P e w in in_order P (k x) w1
  end.

(** ** The two retrying functions *)

(** [fetchWithRetry(url, opts, attempt)].  The function calls itself
    with [attempt + 1] as long as [attempt] is below [MAX_RETRIES];
    [calls] counts the calls that may still follow. *)
Fixpoint fetchWithRetry_within (calls : nat) (url : option string) (opts : Options)
  (attempt : nat) : Task string :=
  try_catch (io (Get (PageGet url opts)))
    (fun e =>
       if Nat.leb Common.MAX_RETRIES attempt then throw e
       else
         (io (Sleep (Common.RETRY_DELAY_MS * attempt)) ;;;
          match calls with
          | S calls' => fetchWithRetry_within calls' url opts (attempt + 1)
          | 0 => throw e
          end)%async).

Definition fetchWithRetry (url : option string) (opts : Options) (attempt : nat)
  : Task string :=
  fetchWithRetry_within (Common.MAX_RETRIES - attempt) url opts attempt.

(** [downloadFile(url, dest, attempt)] *)
Fixpoint downloadFile_within (calls : nat) (url dest : string) (attempt : nat) : Task unit :=
  (io (EnsureDir (NodePath.dirname dest)) ;;;
   try_catch (data <- io (Get (AssetGet url)) ;; io (WriteFile dest))
     (fun e =>
        if Nat.leb Common.MAX_RETRIES attempt then
          io (LogError ["Failed:"; url; "->"; dest; message e])
        else
          io (Sleep (Common.RETRY_DELAY_MS * attempt)) ;;;
          match calls with
          | S calls' => downloadFile_within calls' url dest (attempt + 1)
          | 0 => ret tt
          end))%async.

Definition downloadFile (url dest : string) (attempt : nat) : Task unit :=
  downloadFile_within (Common.MAX_RETRIES - attempt) url dest attempt.

(** [for (const x of items) await body(x)] *)
Fixpoint for_each {A : Type} (body : A -> Proc unit) (items : list A) : Proc unit :=
  match items with
  | [] => ret tt
  | x :: r => (body x ;;; for_each body r)%async
  end.

End Async.

(** ** src/scrape-botech.js *)

Module BotechAsync.
Import Common Async.

Section WithPlatform.
Variable P : Platform.

(** The worker of the fetch phase. *)
Definition fetchProduct (url : option string) : Task string :=
  try_catch (fetchWithRetry url [] 1)
    (fun e => (io (LogError ["Product fetch failed:"; show url; message e]) ;;; ret "")%async).

Definition fetchWorker (url : option string) : Worker string :=
  fun index => (index, fetchProduct url).

(** The worker of the download phase, once the name is chosen. *)
Definition downloadTo (folder imgUrl fileName : string) : Task unit :=
  let dest := NodePath.join folder fileName in
  (found <- io (PathExists dest) ;;
   if negb found then
     downloadFile imgUrl dest 1 ;;;
     io (Log ["Downloaded"; imgUrl; "->"; fileName])
   else ret tt)%async.

(** The worker of the download phase: it chooses the name, taking the
    next value of [index] when it needs one, before it first awaits. *)
Definition downloadWorker (folder categoryName imgUrl : string) : Worker unit :=
  fun index =>
    let '(fileName, index') := Botech.fileNameFor categoryName imgUrl index in
    (index', downloadTo folder imgUrl fileName).

(** The fetch phase. *)
Definition fetchPages (productLinks : list (option string)) : Proc (list string) :=
  all_of FETCH_CONCURRENCY 0 (map fetchWorker productLinks).

(** The download phase. *)
Definition downloadPhase (categoryName : string) (allImages : list string) : Proc unit :=
  (all_of DOWNLOAD_CONCURRENCY 1
     (map (downloadWorker (Botech.folderOf P categoryName) categoryName) allImages) ;;;
   ret tt)%async.

(** The phases of [scrapeCategory] up to the final image set. *)
Definition collectImages (categoryName relativePath : string)
  : Proc (list string * list (option string)) :=
  (call (io (EnsureDir (Botech.folderOf P categoryName))) ;;;
   categoryUrl <- lift (Botech.toAbs P (Some relativePath)) ;;
   call (io (Log ["==>"; categoryName; show categoryUrl])) ;;;
   catHtml <- call (fetchWithRetry categoryUrl [] 1) ;;
   catThumbs <- lift (Botech.extractCategoryImages P catHtml) ;;
   productLinks <- lift (Botech.extractProductLinks P catHtml) ;;
   productPages <- fetchPages productLinks ;;
   imgs <- lift (Botech.allImages P catThumbs productPages) ;;
   ret (imgs, productLinks))%async.

Definition scrapeCategory (categoryName relativePath : string) : Proc unit :=
  (found <- collectImages categoryName relativePath ;;
   let '(imgs, productLinks) := found in
   call (io (Log [categoryName; JS.String_of_nat (List.length imgs); "image(s)";
                  JS.String_of_nat (List.length productLinks); "product(s)"])) ;;;
   downloadPhase categoryName imgs)%async.

(** The body of the loop of [main]. *)
Definition attemptCategory (entry : string * string) : Proc unit :=
  let '(name, rel) := entry in
  try_catch (scrapeCategory name rel)
    (fun e => call (io (LogError ["[ERROR] Category"; name; "failed:"; message e]))).

Definition main_over (categories : list (string * string)) : Proc unit :=
  (call (io (EnsureDir (OUTPUT_DIR P))) ;;;
   call (io (Log ["Saving images into:"; OUTPUT_DIR P])) ;;;
   for_each attemptCategory categories ;;;
   call (io (Log ["All done!"])))%async.

Definition main : Proc unit := main_over CATEGORIES.

End WithPlatform.

End BotechAsync.

(** ** src/unnamed/part_001 *)

Module Part001Async.
Import Common Async.

Section WithPlatform.
Variable P : Platform.

(** The worker of the fetch phase. *)
Definition fetchProduct (u : option string) : Task Part001.ProductPage :=
  try_catch (html <- fetchWithRetry u [] 1 ;; ret (Part001.mkPage u html))%async
    (fun e => (io (LogError ["Product fetch failed:"; show u; message e]) ;;;
               ret (Part001.mkPage u ""))%async).

Definition fetchWorker (u : option string) : Worker Part001.ProductPage :=
  fun idx => (idx, fetchProduct u).

(** The worker of the download phase, once the name is chosen. *)
Definition downloadTo (folder imgUrl fileName : string) : Task unit :=
  let dest := NodePath.join folder fileName in
  (found <- io (PathExists dest) ;;
   if found then ret tt
   else
     downloadFile imgUrl dest 1 ;;;
     io (Log ["Downloaded"; imgUrl; "->"; dest]))%async.

Definition downloadWorker (folder categoryName imgUrl : string) : Worker unit :=
  fun idx =>
    let '(fileName, idx') := Part001.fileNameFor categoryName imgUrl idx in
    (idx', downloadTo folder imgUrl fileName).

(** The fetch phase. *)
Definition fetchPages (productLinks : list (option string))
  : Proc (list Part001.ProductPage) :=
  all_of FETCH_CONCURRENCY 0 (map fetchWorker productLinks).

(** The download phase. *)
Definition downloadPhase (categoryName : string) (allImages : list string) : Proc unit :=
  (all_of DOWNLOAD_CONCURRENCY 1
     (map (downloadWorker (Part001.folderOf P categoryName) categoryName) allImages) ;;;
   ret tt)%async.

(** The phases of [scrapeCategory] up to the final image set. *)
Definition collectImages (categoryName relativePath : string)
  : Proc (list string * list (option string)) :=
  (call (io (EnsureDir (Part001.folderOf P categoryName))) ;;;
   categoryUrl <- lift (Part001.toAbs P (Some relativePath)) ;;
   call (io (Log ["==> Category:"; categoryName; show categoryUrl])) ;;;
   catHtml <- call (fetchWithRetry categoryUrl [] 1) ;;
   catThumbs <- lift (Part001.getCategoryPageImageUrls P catHtml) ;;
   productLinks <- lift (Part001.getProductLinksFromCategory P catHtml) ;;
   productPages <- fetchPages productLinks ;;
   imgs <- lift (Part001.allImages P catThumbs productPages) ;;
   ret (imgs, productLinks))%async.

Definition scrapeCategory (categoryName relativePath : string) : Proc unit :=
  (found <- collectImages categoryName relativePath ;;
   let '(imgs, productLinks) := found in
   call (io (Log ["Found"; JS.String_of_nat (List.length imgs); "image(s) in"; categoryName;
                  JS.String_of_nat (List.length productLinks); "product page(s)"])) ;;;
   downloadPhase categoryName imgs)%async.

(** The body of the loop of [main]. *)
Definition attemptCategory (entry : string * string) : Proc unit :=
  let '(name, rel) := entry in
  try_catch (scrapeCategory name rel)
    (fun e => call (io (LogError ["[ERROR] Category"; name; "failed:"; message e]))).

Definition main_over (categories : list (string * string)) : Proc unit :=
  (call (io (EnsureDir (OUTPUT_DIR P))) ;;;
   call (io (Log ["Saving into:"; OUTPUT_DIR P])) ;;;
   for_each attemptCategory categories ;;;
   call (io (Log ["Done."])))%async.

Definition main : Proc unit := main_over CATEGORIES.

(** [main().catch(e => { console.error(e); process.exit(1) })]: the exit
    code of the process. *)
Definition run : Proc nat :=
  try_catch (main ;;; ret 0)%async
    (fun e => (call (io (LogError [message e])) ;;; ret 1)%async).

End WithPlatform.

End Part001Async.

(* ===================================================================== *)
(** * A site to run the crawler on                                        *)
(* ===================================================================== *)

(** A small, fully explicit platform: the URL parser modelled above, three
    documents with their matched elements, a network in which the second
    product page and one listing page are never served, and a file system
    that never fails. *)

Module Site.
Import Common.

(** The parser of the site is the URL parser modelled above.  Where the
    model gives no answer (a host written as an IP address, a [file:]
    URL, a host outside ASCII) the parser of the site fails, which Node
    does not; the site is run on no such reference. *)
Definition URL_href (input base : string) : option string :=
  match WhatwgURL.href input base with
  | WhatwgURL.Parsed h => Some h
  | _ => None
  end.

Definition LISTING : string := "<html>listing: berceaux</html>".
Definition PRODUCT_1 : string := "<html>product: berceau 1</html>".
Definition PRODUCT_3 : string := "<html>product: berceau 3</html>".

Definition img (src : string) : Element := [("class", "img-fluid"); ("src", src)].
Definition anchor (href : string) : Element := [("href", href)].

Definition select (html selector : string) : list Element :=
  if html =? LISTING then
    if selector =? SEL_CARD_IMG then
      [img "/images/produits/berceau-1.jpg"; img "images/produits/berceau-2.png"]
    else if selector =? SEL_CARD_LINK then
      [anchor "details/berceau-1"; anchor "details/berceau-2"; anchor "details/berceau-3";
       anchor "details/berceau-1"; anchor "/contact"]
    else []
  else if html =? PRODUCT_1 then
    if selector =? SEL_PRODUCT_IMG then
      [img "/images/produits/berceau-1.jpg"; img "/images/produits/a/lit.jpg"]
    else if selector =? SEL_IMG then
      [img "/images/logo.png"; img "/images/produits/berceau-1.jpg";
       img "/images/produits/a/lit.jpg"]
    else []
  else if html =? PRODUCT_3 then
    if selector =? SEL_PRODUCT_IMG then
      [[("data-src", "/images/produits/b/lit.jpg")]]
    else if selector =? SEL_IMG then
      [img "/images/produits/berceau-3.webp?v=2"]
    else []
  else [].

Definition http (history : list Event) (r : Request) : Result string :=
  match r with
  | PageGet (Some url) _ =>
      if url =? "https://www.botech.ma/prod/berceaux-maroc" then Ok LISTING
      else if url =? "https://www.botech.ma/details/berceau-1" then Ok PRODUCT_1
      else if url =? "https://www.botech.ma/details/berceau-3" then Ok PRODUCT_3
      else if url =? "https://www.botech.ma/details/berceau-2"
      then Throw (AxiosError "timeout of 30000ms exceeded")
      else Throw (AxiosError "Request failed with status code 404")
  | PageGet None _ => Throw (AxiosError "Request failed with status code 404")
  | AssetGet _ => Ok "bytes"
  end.

Definition platform : Platform :=
  mkPlatform URL_href select http (fun _ _ => None) (fun _ _ => None) "/srv/botech_images".

(** Nothing on disk, nothing done yet. *)
Definition fresh : World := mkWorld [] [].

Definition two_categories : list (string * string) :=
  [("Lits hospitaliers", "cat/lits-hospitaliers-maroc"); ("Berceaux", "prod/berceaux-maroc")].

(** The product links and the final image set of the category
    [Berceaux] on this site. *)
Definition links : list (option string) :=
  [Some "https://www.botech.ma/details/berceau-1";
   Some "https://www.botech.ma/details/berceau-2";
   Some "https://www.botech.ma/details/berceau-3"].

Definition images : list string :=
  ["https://www.botech.ma/images/produits/berceau-1.jpg";
   "https://www.botech.ma/images/produits/berceau-2.png";
   "https://www.botech.ma/images/produits/a/lit.jpg";
   "https://www.botech.ma/images/produits/b/lit.jpg";
   "https://www.botech.ma/images/produits/berceau-3.webp?v=2"].

(** The world after one complete run of the category. *)
Definition after_first_run : World :=
  fst (Botech.scrapeCategory platform "Berceaux" "prod/berceaux-maroc" fresh).

End Site.

(* ===================================================================== *)
(** * Vocabulary of the statements                                        *)
(* ===================================================================== *)

Module Spec.
Import Common.

(** The events of [k] attempts at [req], the first of them numbered [n]:
    the requests, and between two of them the wait that follows a failed
    attempt. *)
Fixpoint attempts (req : Request) (n k : nat) : list Event :=
  match k with
  | 0 => []
  | S k' =>
      match k' with
      | 0 => [EvGet req]
      | S _ => EvGet req :: EvSleep (RETRY_DELAY_MS * n) :: attempts req (S n) k'
      end
  end.

(** What the platform answers to the [j]-th attempt of a call of
    [fetchWithRetry] that starts in the world [w]. *)
Definition answer (P : Platform) (w : World) (req : Request) (j : nat) : Result string :=
  http_get P (trace w ++ removelast (attempts req 1 j)) req.

(** What the run driver logs when a category fails. *)
Definition category_failure (name : string) (e : Error) : Event :=
  EvError ["[ERROR] Category"; name; "failed:"; message e].

(** The configuration [c] with one more event in its history. *)
Definition logged (ev : Event) (c : Async.Config) : Async.Config :=
  (mkWorld (paths (fst c)) (trace (fst c) ++ [ev]), snd c).

(** [visits P scrape categories c c']: starting in [c], every category
    of the list is handed to [scrape] once, in order, each in the
    configuration in which the previous one was answered; a failure is
    logged with the name of its category; [c'] is the configuration
    after the last one.  The queue of a category that failed may still
    be at work in the configurations of the categories behind it. *)
Inductive visits (P : Platform) (scrape : string -> string -> Async.Proc unit)
  : list (string * string) -> Async.Config -> Async.Config -> Prop :=
| visits_done : forall c, visits P scrape [] c c
| visits_completed : forall name rel rest c c1 c2,
    Async.runs P (scrape name rel) c c1 (Ok tt) ->
    visits P scrape rest c1 c2 ->
    visits P scrape ((name, rel) :: rest) c c2
| visits_failed : forall name rel rest c c1 c2 e,
    Async.runs P (scrape name rel) c c1 (Throw e) ->
    visits P scrape rest (logged (category_failure name e) c1) c2 ->
    visits P scrape ((name, rel) :: rest) c c2.

(** The world in which the loop of [main] starts: the output directory
    exists and the first line is logged. *)
Definition after_setup (P : Platform) (line : string) (w : World) : World :=
  mkWorld (OUTPUT_DIR P :: paths w)
    (trace w ++ [EvMkdir (OUTPUT_DIR P); EvLog [line; OUTPUT_DIR P]]).

(** The page [u] is never served: whatever happened before, a request
    for it is rejected. *)
Definition never_served (P : Platform) (u : option string) : Prop :=
  forall history, exists e, http_get P history (PageGet u []) = Throw e.

(** The page [u] is always served, with the body [body]. *)
Definition served (P : Platform) (u : option string) (body : string) : Prop :=
  forall history, http_get P history (PageGet u []) = Ok body.

(** What the fetch phase may hold for the link [u]: a body that the
    platform answered to a request for [u], or the empty body after the
    platform rejected a request for [u]. *)
Definition page_of (P : Platform) (u : option string) (page : string) : Prop :=
  (exists history, http_get P history (PageGet u []) = Ok page)
  \/ (page = "" /\ exists history e, http_get P history (PageGet u []) = Throw e).

(** [w'] is [w] after some more events. *)
Definition extends (w w' : World) : Prop :=
  exists events, trace w' = (trace w ++ events)%list.

(** [new URL(reference, base).href] as a statement of the program: the
    reference resolved by the URL parser, or the [TypeError] it throws. *)
Definition resolve (P : Platform) (reference base : string) : Result (option string) :=
  match URL_href P reference base with
  | Some h => Ok (Some h)
  | None => Throw (TypeError "Invalid URL")
  end.

(** The contract [toAbsolute(maybeRelative, baseOrigin)] in the words of
    the specification: null or empty gives null; a string that carries an
    [http://] or [https://] scheme is returned unchanged; a string that
    begins with [/] is resolved against the origin; any other string is a
    path relative to the origin root, a leading [./] stripped; what cannot
    be parsed against the base is null. *)
Definition toAbsolute (P : Platform) (maybeRelative : option string) (baseOrigin : string)
  : Result (option string) :=
  match maybeRelative with
  | None => Ok None
  | Some r =>
      if r =? "" then Ok None
      else if JS.startsWith "http://" r || JS.startsWith "https://" r then Ok (Some r)
      else if JS.startsWith "/" r then Ok (URL_href P r baseOrigin)
      else Ok (Some (baseOrigin ++ (if JS.startsWith "./" r then JS.drop 2 r else r)))
  end.

Definition not_slash (c : ascii) : bool := negb (Ascii.eqb c NodePath.slash).

(** A file name that is one path segment: not empty, not [.] or [..],
    and without a separator. *)
Definition plain_segment (n : string) : Prop :=
  n <> "" /\ n <> "." /\ n <> ".." /\ JS.forall_chars not_slash n = true.

(** The sanitized basename of an image URL, as the download phase
    computes it. *)
Definition urlName (imgUrl : string) : string :=
  safeFileName (NodePath.basename (strip_query imgUrl)).

(** The image gets the synthetic sequence name: its own name has no dot. *)
Definition usesFallback (imgUrl : string) : bool :=
  negb (JS.includes_char "." (urlName imgUrl)).

(** The characters of a plain reference: letters, digits, and
    [-], [_], [.], [~], [/]. *)
Definition plain_char (c : ascii) : bool :=
  JS.is_alnum c || WhatwgURL.is_one_of ["-"; "_"; "."; "~"; "/"]%char c.

(** A plain relative reference: not empty, made of plain characters, not
    starting with a slash, and without a [.] or [..] segment. *)
Definition plain_reference (p : string) : bool :=
  negb (p =? "") && JS.forall_chars plain_char p && negb (JS.startsWith "/" p)
  && forallb (fun seg => negb (WhatwgURL.is_single_dot seg || WhatwgURL.is_double_dot seg))
       (JS.split_on "/" p).

End Spec.

(** What a file name may be made of after [safeFileName], and how many
    images of a list get a synthetic name. *)
Module Names.

Definition allowed (c : ascii) : bool :=
  negb (SanitizeFilename.illegal c) && negb (SanitizeFilename.control c)
  && negb (Common.is_space c).

Definition fallbacks (imgs : list string) : nat :=
  List.length (filter Spec.usesFallback imgs).

(** A list of image URLs: nothing twice, and only what [isImageUrl]
    accepts. *)
Definition image_list (urls : list string) : Prop :=
  NoDup urls /\ Forall (fun u => Common.isImageUrl u = true) urls.

End Names.

(** What makes a reference absolute. *)
Module Urls.

(** A URL record with the scheme [https] and a host. *)
Definition https_with_host (u : WhatwgURL.URLRecord) : Prop :=
  WhatwgURL.scheme u = "https" /\ WhatwgURL.host u <> None.

(** A string that starts with [http://] or [https://]. *)
Definition absolute (h : string) : bool :=
  JS.startsWith "http://" h || JS.startsWith "https://" h.

Definition no_colon (s : string) : bool :=
  JS.forall_chars (fun c => negb (Ascii.eqb c ":")) s.

(** A URL parser that reads no scheme where there is none: a reference
    that starts with a slash, or that holds no colon, is resolved
    against the base, so that what the parser returns for it against
    [https://www.botech.ma/] starts with [https://].  The URL standard
    asks this of every parser, and it asks that a plain relative
    reference, with or without a slash in front, is resolved to the base
    followed by the reference. *)
Definition resolves_plain_references (P : Platform) : Prop :=
  forall u,
    Spec.plain_reference u = true ->
    URL_href P u "https://www.botech.ma/" = Some ("https://www.botech.ma/" ++ u)
    /\ URL_href P ("/" ++ u) "https://www.botech.ma/" = Some ("https://www.botech.ma/" ++ u).

Definition keeps_scheme_of_base (P : Platform) : Prop :=
  forall input h,
    JS.startsWith "/" input = true \/ no_colon input = true ->
    URL_href P input "https://www.botech.ma/" = Some h ->
    absolute h = true.

End Urls.

(** Readings of a history: the requests sent, the waits, the directories
    asked for, the files written, the failures reported. *)
Module Log.

Definition requests (tr : list Event) : list Request :=
  flat_map (fun e => match e with EvGet r => [r] | _ => [] end) tr.

Definition sleeps (tr : list Event) : list nat :=
  flat_map (fun e => match e with EvSleep ms => [ms] | _ => [] end) tr.

Definition mkdirs (tr : list Event) : list string :=
  flat_map (fun e => match e with EvMkdir d => [d] | _ => [] end) tr.

Definition writes (tr : list Event) : list string :=
  flat_map (fun e => match e with EvWrite p => [p] | _ => [] end) tr.

Definition errors (tr : list Event) : list (list string) :=
  flat_map (fun e => match e with EvError args => [args] | _ => [] end) tr.




(** The events of [w'] that [w] does not have yet. *)
Definition since (w w' : World) : list Event :=
  skipn (List.length (trace w)) (trace w').

(** The waits between [k] attempts, the first of them numbered [attempt]. *)
Definition delays (attempt k : nat) : list nat :=
  map (fun i => Common.RETRY_DELAY_MS * i) (seq attempt (k - 1)).



End Log.

(** Platforms on which something goes wrong: a disk on which no
    directory can be made, and a disk on which no file can be written. *)
Module Faults.

Definition read_only : Platform :=
  mkPlatform Site.URL_href Site.select Site.http
    (fun _ _ => Some (FsError "EACCES: permission denied, mkdir"))
    (fun _ _ => None) "/srv/botech_images".

Definition disk_full : Platform :=
  mkPlatform Site.URL_href Site.select Site.http
    (fun _ _ => None)
    (fun _ _ => Some (FsError "ENOSPC: no space left on device, write"))
    "/srv/botech_images".

End Faults.

(* ===================================================================== *)
(** * Properties                                                          *)
(* ===================================================================== *)

(** ** The monad *)

Lemma bindM_ok_inv {A B : Type} (m : M A) (k : A -> M B) w w' v :
  bindM m k w = (w', Ok v) ->
  exists w1 a, m w = (w1, Ok a) /\ k a w1 = (w', Ok v).
Proof.
  unfold bindM. destruct (m w) as [w1 [a|e]]; intros H.
  - exists w1, a. split; [reflexivity | exact H].
  - discriminate.
Qed.

Lemma lift_ok_inv {A : Type} (r : Result A) w w' v :
  lift r w = (w', Ok v) -> r = Ok v /\ w' = w.
Proof. unfold lift. intros H. inversion H. split; reflexivity. Qed.

Lemma ret_ok_inv {A : Type} (a : A) w w' v :
  ret a w = (w', Ok v) -> a = v /\ w' = w.
Proof. unfold ret. intros H. inversion H. split; reflexivity. Qed.

Lemma bindR_ok_inv {A B : Type} (r : Result A) (k : A -> Result B) v :
  bindR r k = Ok v -> exists a, r = Ok a /\ k a = Ok v.
Proof.
  destruct r as [a|e]; simpl; intros H; [exists a; auto | discriminate].
Qed.

(** Takes a successful run of a sequence of binds apart, step by step. *)
Ltac split_run H :=
  repeat match type of H with
  | bindM _ _ _ = (_, Ok _) =>
      let w1 := fresh "w" in let a := fresh "a" in
      let H1 := fresh "Hstep" in
      apply bindM_ok_inv in H; destruct H as (w1 & a & H1 & H)
  | ret _ _ = (_, Ok _) => apply ret_ok_inv in H; destruct H as [? ?]
  end.

(** ** Insertion-ordered sets and [uniq] *)

Section SetFacts.
Context {A : Type} (eqb : A -> A -> bool).
Hypothesis eqb_eq : forall x y, eqb x y = true <-> x = y.

Lemma set_has_In (s : list A) (x : A) : Common.set_has eqb s x = true <-> In x s.
Proof.
  unfold Common.set_has. rewrite existsb_exists. split.
  - intros (y & Hy & E). apply eqb_eq in E. subst. exact Hy.
  - intros H. exists x. split; [exact H | apply eqb_eq; reflexivity].
Qed.

Lemma set_add_In (s : list A) (x y : A) :
  In y (Common.set_add eqb s x) <-> In y s \/ y = x.
Proof.
  unfold Common.set_add. destruct (Common.set_has eqb s x) eqn:E.
  - apply set_has_In in E. split; [auto | intros [H | ->]; assumption].
  - rewrite in_app_iff. simpl. intuition (subst; auto).
Qed.

Lemma set_add_NoDup (s : list A) (x : A) : NoDup s -> NoDup (Common.set_add eqb s x).
Proof.
  intros Hs. unfold Common.set_add. destruct (Common.set_has eqb s x) eqn:E; [exact Hs|].
  assert (Hx : ~ In x s).
  { intros Hin. apply set_has_In in Hin. congruence. }
  apply NoDup_rev in Hs. rewrite <- (rev_involutive (s ++ [x])).
  apply NoDup_rev. rewrite rev_app_distr. simpl. constructor; [|exact Hs].
  rewrite <- in_rev. exact Hx.
Qed.

Lemma fold_set_add_NoDup (arr s : list A) :
  NoDup s -> NoDup (fold_left (Common.set_add eqb) arr s).
Proof.
  revert s. induction arr as [|x arr IH]; intros s Hs; simpl; [exact Hs|].
  apply IH, set_add_NoDup, Hs.
Qed.

Lemma fold_set_add_In (arr s : list A) (y : A) :
  In y (fold_left (Common.set_add eqb) arr s) <-> In y s \/ In y arr.
Proof.
  revert s. induction arr as [|x arr IH]; intros s; simpl; [tauto|].
  rewrite IH, set_add_In. intuition (subst; auto).
Qed.

Lemma uniq_loop_fold (arr s : list A) :
  Part001.uniq_loop eqb arr s s = fold_left (Common.set_add eqb) arr s.
Proof.
  revert s. induction arr as [|x arr IH]; intros s; simpl; [reflexivity|].
  unfold Common.set_add at 1 3. destruct (Common.set_has eqb s x); simpl; apply IH.
Qed.

(** The two copies of [uniq] compute the same list. *)
Lemma uniq_same (arr : list A) : Part001.uniq eqb arr = Botech.uniq eqb arr.
Proof. unfold Part001.uniq, Botech.uniq. apply uniq_loop_fold. Qed.

Lemma uniq_NoDup (arr : list A) : NoDup (Botech.uniq eqb arr).
Proof. apply fold_set_add_NoDup. constructor. Qed.

Lemma uniq_In (arr : list A) (y : A) : In y (Botech.uniq eqb arr) <-> In y arr.
Proof. unfold Botech.uniq. rewrite fold_set_add_In. simpl. tauto. Qed.

End SetFacts.

Lemma string_eqb_eq (x y : string) : (x =? y) = true <-> x = y.
Proof. apply String.eqb_eq. Qed.

Lemma allImages_botech_spec P thumbs pages imgs :
  Botech.allImages P thumbs pages = Ok imgs ->
  exists pimgs, Botech.productImages P pages = Ok pimgs
                /\ imgs = Botech.uniq String.eqb (thumbs ++ pimgs)%list.
Proof.
  unfold Botech.allImages. intros H. apply bindR_ok_inv in H.
  destruct H as (pimgs & Hp & H). inversion H. exists pimgs. auto.
Qed.

Lemma allImages_part001_spec P thumbs pages imgs :
  Part001.allImages P thumbs pages = Ok imgs ->
  exists pimgs, Part001.productImages P pages = Ok pimgs
                /\ imgs = Botech.uniq String.eqb (thumbs ++ pimgs)%list.
Proof.
  unfold Part001.allImages. intros H. apply bindR_ok_inv in H.
  destruct H as (pimgs & Hp & H). inversion H. exists pimgs. split; [exact Hp|].
  apply uniq_same.
Qed.

Lemma collectImages_botech_inv P categoryName relativePath w w' imgs links :
  Botech.collectImages P categoryName relativePath w = (w', Ok (imgs, links)) ->
  exists thumbs pages, Botech.allImages P thumbs pages = Ok imgs.
Proof.
  unfold Botech.collectImages. intros H. split_run H.
  apply lift_ok_inv in Hstep6. destruct Hstep6 as [Hall _].
  match goal with E : (_, _) = (imgs, links) |- _ => inversion E; subst end.
  eauto.
Qed.

Lemma collectImages_part001_inv P categoryName relativePath w w' imgs links :
  Part001.collectImages P categoryName relativePath w = (w', Ok (imgs, links)) ->
  exists thumbs pages, Part001.allImages P thumbs pages = Ok imgs.
Proof.
  unfold Part001.collectImages. intros H. split_run H.
  apply lift_ok_inv in Hstep6. destruct Hstep6 as [Hall _].
  match goal with E : (_, _) = (imgs, links) |- _ => inversion E; subst end.
  eauto.
Qed.

(** C8. The final image set that [scrapeCategory] hands to its download
    phase never holds a URL twice, in either copy: a URL found among the
    listing thumbnails, among the product images, or in both, occurs
    exactly once in [allImages]. *)
Theorem final_image_set_has_no_duplicates :
  forall (P : Platform) (categoryName relativePath : string) (w : World),
    (forall w' imgs links,
        Botech.collectImages P categoryName relativePath w = (w', Ok (imgs, links)) ->
        NoDup imgs) /\
    (forall w' imgs links,
        Part001.collectImages P categoryName relativePath w = (w', Ok (imgs, links)) ->
        NoDup imgs) /\
    (forall thumbs pages imgs pimgs u,
        Botech.allImages P thumbs pages = Ok imgs ->
        Botech.productImages P pages = Ok pimgs ->
        In u thumbs \/ In u pimgs ->
        count_occ string_dec imgs u = 1) /\
    (forall thumbs pages imgs pimgs u,
        Part001.allImages P thumbs pages = Ok imgs ->
        Part001.productImages P pages = Ok pimgs ->
        In u thumbs \/ In u pimgs ->
        count_occ string_dec imgs u = 1).
Proof.
  intros P categoryName relativePath w. repeat split.
  - intros w' imgs links H. apply collectImages_botech_inv in H.
    destruct H as (thumbs & pages & H). apply allImages_botech_spec in H.
    destruct H as (pimgs & _ & ->). apply uniq_NoDup, string_eqb_eq.
  - intros w' imgs links H. apply collectImages_part001_inv in H.
    destruct H as (thumbs & pages & H). apply allImages_part001_spec in H.
    destruct H as (pimgs & _ & ->). apply uniq_NoDup, string_eqb_eq.
  - intros thumbs pages imgs pimgs u H Hp Hu. apply allImages_botech_spec in H.
    destruct H as (pimgs' & Hp' & ->). rewrite Hp in Hp'. inversion Hp'. subst pimgs'.
    apply NoDup_count_occ'.
    + apply uniq_NoDup, string_eqb_eq.
    + apply (uniq_In _ string_eqb_eq). apply in_app_iff. exact Hu.
  - intros thumbs pages imgs pimgs u H Hp Hu. apply allImages_part001_spec in H.
    destruct H as (pimgs' & Hp' & ->). rewrite Hp in Hp'. inversion Hp'. subst pimgs'.
    apply NoDup_count_occ'.
    + apply uniq_NoDup, string_eqb_eq.
    + apply (uniq_In _ string_eqb_eq). apply in_app_iff. exact Hu.
Qed.

(** ** The retrying fetcher *)

Lemma fetchWithRetry_unfold P url opts attempt w :
  Common.fetchWithRetry P url opts attempt w =
  match client_get P url opts w with
  | (w1, Ok res) => (w1, Ok res)
  | (w1, Throw e) =>
      if Nat.leb Common.MAX_RETRIES attempt then (w1, Throw e)
      else Common.fetchWithRetry P url opts (attempt + 1)
             (fst (sleep (Common.RETRY_DELAY_MS * attempt) w1))
  end.
Proof.
  rewrite Common.fetchWithRetry_equation_1.
  destruct (client_get P url opts w) as [w1 [res|e]]; [reflexivity|].
  destruct (Nat.leb Common.MAX_RETRIES attempt) eqn:E;
    [apply Nat.leb_le in E | apply Nat.leb_gt in E];
    cbn [Common.fetchWithRetry_unfold_clause_1];
    destruct (le_lt_dec Common.MAX_RETRIES attempt) as [Hle|Hlt];
    try reflexivity; exfalso; lia.
Qed.

(** C5. [fetchWithRetry(url, opts)] sends at most [MAX_RETRIES] = 3
    requests.  It sends the next one only after a failed one, and only
    after waiting [RETRY_DELAY_MS] times the number of the failed attempt;
    what it returns is the answer to its last request: the first
    successful answer, or the failure of the third attempt. *)
Theorem fetchWithRetry_policy :
  forall (P : Platform) (url : option string) (opts : Options) (w : World),
    let req := PageGet url opts in
    exists k,
      1 <= k <= Common.MAX_RETRIES /\
      fst (Common.fetchWithRetry P url opts 1 w)
        = mkWorld (paths w) (trace w ++ Spec.attempts req 1 k) /\
      (forall j, 1 <= j < k -> exists e, Spec.answer P w req j = Throw e) /\
      snd (Common.fetchWithRetry P url opts 1 w) = Spec.answer P w req k /\
      (k < Common.MAX_RETRIES -> exists body, Spec.answer P w req k = Ok body).
Proof.
  intros P url opts w req.
  destruct (Spec.answer P w req 1) as [b1|e1] eqn:A1.
  { exists 1. rewrite fetchWithRetry_unfold. unfold client_get, request.
    unfold Spec.answer in A1. simpl in A1. rewrite app_nil_r in A1.
    fold req. rewrite A1. simpl. unfold Spec.answer. simpl. rewrite app_nil_r.
    repeat split; try (unfold Common.MAX_RETRIES; lia); eauto. }
  destruct (Spec.answer P w req 2) as [b2|e2] eqn:A2.
  { exists 2. rewrite fetchWithRetry_unfold. unfold client_get, request.
    pose proof A1 as A1'. unfold Spec.answer in A1'. simpl in A1'.
    rewrite app_nil_r in A1'. fold req. rewrite A1'. simpl.
    rewrite fetchWithRetry_unfold. unfold client_get, request. simpl.
    pose proof A2 as A2'. unfold Spec.answer in A2'. simpl in A2'.
    fold req. rewrite <- app_assoc. simpl. rewrite A2'. simpl.
    repeat split; try (unfold Common.MAX_RETRIES; lia); eauto.
    - rewrite <- app_assoc. reflexivity.
    - intros j Hj. assert (j = 1) by lia. subst j. eauto. }
  exists 3. rewrite fetchWithRetry_unfold. unfold client_get, request.
  pose proof A1 as A1'. unfold Spec.answer in A1'. simpl in A1'.
  rewrite app_nil_r in A1'. fold req. rewrite A1'. simpl.
  rewrite fetchWithRetry_unfold. unfold client_get, request. simpl.
  pose proof A2 as A2'. unfold Spec.answer in A2'. simpl in A2'.
  fold req. rewrite <- app_assoc. simpl. rewrite A2'. simpl.
  rewrite fetchWithRetry_unfold. unfold client_get, request. simpl.
  fold req. rewrite <- !app_assoc. simpl.
  assert (A3 : Spec.answer P w req 3
               = http_get P (trace w ++ [EvGet req; EvSleep (Common.RETRY_DELAY_MS * 1);
                                         EvGet req; EvSleep (Common.RETRY_DELAY_MS * 2)]) req)
    by reflexivity.
  simpl in A3. rewrite <- A3.
  destruct (Spec.answer P w req 3) as [b3|e3] eqn:E3; simpl;
    (split; [unfold Common.MAX_RETRIES; lia|]);
    (split; [reflexivity|]);
    (split; [intros j Hj; assert (Hj' : j = 1 \/ j = 2) by lia;
             destruct Hj' as [-> | ->]; eauto|]);
    (split; [reflexivity | unfold Common.MAX_RETRIES; lia]).
Qed.

(** ** The download phase *)

Lemma fileNameFor_same categoryName imgUrl idx :
  Part001.fileNameFor categoryName imgUrl idx = Botech.fileNameFor categoryName imgUrl idx.
Proof.
  unfold Part001.fileNameFor, Botech.fileNameFor.
  destruct (Common.safeFileName (NodePath.basename (Common.strip_query imgUrl)));
    reflexivity.
Qed.

Lemma destinations_same folder categoryName imgs idx :
  Part001.destinations folder categoryName imgs idx
  = Botech.destinations folder categoryName imgs idx.
Proof.
  revert idx. induction imgs as [|u imgs IH]; intros idx;
    cbn [Part001.destinations Botech.destinations]; [reflexivity|].
  rewrite fileNameFor_same. destruct (Botech.fileNameFor categoryName u idx) as [n i].
  rewrite IH. reflexivity.
Qed.

Lemma pathExists_found p w :
  In p (paths w) ->
  pathExists p w = (mkWorld (paths w) (trace w ++ [EvExists p true]), Ok true).
Proof.
  intros Hin. unfold pathExists.
  assert (E : existsb (String.eqb p) (paths w) = true).
  { apply existsb_exists. exists p. split; [exact Hin | apply String.eqb_refl]. }
  rewrite E. reflexivity.
Qed.

(** A worker of the download phase asks for the destination first, and
    when the file is there it does nothing else. *)
Lemma downloadTo_skips_existing P folder imgUrl fileName w :
  In (NodePath.join folder fileName) (paths w) ->
  Botech.downloadTo P folder imgUrl fileName w
    = (mkWorld (paths w) (trace w ++ [EvExists (NodePath.join folder fileName) true]), Ok tt)
  /\ Part001.downloadTo P folder imgUrl fileName w
    = (mkWorld (paths w) (trace w ++ [EvExists (NodePath.join folder fileName) true]), Ok tt).
Proof.
  intros Hin. unfold Botech.downloadTo, Part001.downloadTo, bindM.
  rewrite (pathExists_found _ _ Hin). simpl. split; reflexivity.
Qed.

Lemma downloadAll_botech_all_present P folder categoryName imgs :
  forall idx w,
    (forall d, In d (Botech.destinations folder categoryName imgs idx) -> In d (paths w)) ->
    Botech.downloadAll P folder categoryName imgs idx w
    = (mkWorld (paths w)
         (trace w ++ map (fun d => EvExists d true)
                       (Botech.destinations folder categoryName imgs idx)),
       map (fun _ => Ok tt) imgs).
Proof.
  induction imgs as [|u imgs IH]; intros idx w Hall;
    cbn [Botech.downloadAll Botech.destinations map].
  - rewrite app_nil_r. destruct w; reflexivity.
  - cbn [Botech.destinations] in Hall.
    destruct (Botech.fileNameFor categoryName u idx) as [name idx'].
    destruct (downloadTo_skips_existing P folder u name w) as [E _].
    { apply Hall. left. reflexivity. }
    rewrite E. rewrite IH.
    + cbn [paths trace map]. rewrite <- app_assoc. reflexivity.
    + intros d Hd. cbn [paths]. apply Hall. right. exact Hd.
Qed.

Lemma downloadAll_part001_all_present P folder categoryName imgs :
  forall idx w,
    (forall d, In d (Botech.destinations folder categoryName imgs idx) -> In d (paths w)) ->
    Part001.downloadAll P folder categoryName imgs idx w
    = (mkWorld (paths w)
         (trace w ++ map (fun d => EvExists d true)
                       (Botech.destinations folder categoryName imgs idx)),
       map (fun _ => Ok tt) imgs).
Proof.
  induction imgs as [|u imgs IH]; intros idx w Hall;
    cbn [Part001.downloadAll Botech.destinations map].
  - rewrite app_nil_r. destruct w; reflexivity.
  - cbn [Botech.destinations] in Hall. rewrite fileNameFor_same.
    destruct (Botech.fileNameFor categoryName u idx) as [name idx'].
    destruct (downloadTo_skips_existing P folder u name w) as [_ E].
    { apply Hall. left. reflexivity. }
    rewrite E. rewrite IH.
    + cbn [paths trace map]. rewrite <- app_assoc. reflexivity.
    + intros d Hd. cbn [paths]. apply Hall. right. exact Hd.
Qed.

Lemma all_settled_oks {A : Type} (l : list A) :
  Common.all_settled (map (fun _ => Ok tt) l) = Ok (map (fun _ => tt) l).
Proof.
  induction l as [|x l IH]; simpl; [reflexivity|]. rewrite IH. reflexivity.
Qed.

Lemma fetch_count_app tr1 tr2 :
  fetch_count (tr1 ++ tr2) = fetch_count tr1 + fetch_count tr2.
Proof. unfold fetch_count. rewrite filter_app, length_app. reflexivity. Qed.

Lemma fetch_count_checks ds :
  fetch_count (map (fun d => EvExists d true) ds) = 0.
Proof. induction ds as [|d ds IH]; simpl; [reflexivity | exact IH]. Qed.

(** C1. When every destination path computed for the final image set is
    already on disk, the download phase of either copy only asks, image
    by image and in order, whether the destination exists: it sends no
    request, writes nothing and succeeds.  The destinations are a function
    of the category name and of the image list alone. *)
Theorem rerun_of_download_phase_fetches_nothing :
  forall (P : Platform) (categoryName : string) (allImages : list string) (w : World),
    (forall d,
        In d (Botech.destinations (Botech.folderOf P categoryName) categoryName allImages 1) ->
        In d (paths w)) ->
    let checks :=
      map (fun d => EvExists d true)
        (Botech.destinations (Botech.folderOf P categoryName) categoryName allImages 1) in
    Botech.downloadPhase P categoryName allImages w
      = (mkWorld (paths w) (trace w ++ checks), Ok tt) /\
    Part001.downloadPhase P categoryName allImages w
      = (mkWorld (paths w) (trace w ++ checks), Ok tt) /\
    fetch_count (trace w ++ checks) = fetch_count (trace w).
Proof.
  intros P categoryName allImages w Hall checks. repeat split.
  - unfold Botech.downloadPhase.
    rewrite (downloadAll_botech_all_present _ _ _ _ _ _ Hall).
    rewrite all_settled_oks. reflexivity.
  - unfold Part001.downloadPhase.
    change (Part001.folderOf P categoryName) with (Botech.folderOf P categoryName).
    rewrite (downloadAll_part001_all_present _ _ _ _ _ _ Hall).
    rewrite all_settled_oks. reflexivity.
  - rewrite fetch_count_app. unfold checks. rewrite fetch_count_checks. lia.
Qed.

(** ** The run driver *)

Lemma for_each_returns (scrape : string -> string -> M unit)
  (attempt : string * string -> M unit) :
  (forall name rel,
      attempt (name, rel)
      = try_catch (scrape name rel)
          (fun e => console_error ["[ERROR] Category"; name; "failed:"; message e])) ->
  forall categories w, exists w', Common.for_each attempt categories w = (w', Ok tt).
Proof.
  intros Hattempt categories.
  induction categories as [|[name rel] rest IH]; intros w; simpl.
  - exists w. reflexivity.
  - unfold bindM. rewrite Hattempt. unfold try_catch.
    destruct (scrape name rel w) as [w1 [[]|e]] eqn:E; [apply IH|].
    unfold console_error, emit. apply IH.
Qed.

Lemma ensureDir_ok P dir w :
  fs_mkdir P (trace w) dir = None ->
  ensureDir P dir w = (mkWorld (dir :: paths w) (trace w ++ [EvMkdir dir]), Ok tt).
Proof. intros H. unfold ensureDir. rewrite H. reflexivity. Qed.

(** ** The fetch phase *)

Lemma extends_refl w : Spec.extends w w.
Proof. exists []. rewrite app_nil_r. reflexivity. Qed.

Lemma extends_trans w1 w2 w3 :
  Spec.extends w1 w2 -> Spec.extends w2 w3 -> Spec.extends w1 w3.
Proof.
  intros [e1 H1] [e2 H2]. exists (e1 ++ e2)%list. rewrite H2, H1, app_assoc. reflexivity.
Qed.

Lemma extends_In w w' ev : Spec.extends w w' -> In ev (trace w) -> In ev (trace w').
Proof. intros [e H] Hin. rewrite H. apply in_app_iff. left. exact Hin. Qed.

(** What a call of [fetchWithRetry] does to the world and what it returns,
    read off the policy. *)
Lemma fetchWithRetry_outcome_from P url :
  forall n attempt w,
    Common.MAX_RETRIES - attempt < n ->
    exists w' r,
      Common.fetchWithRetry P url [] attempt w = (w', r)
      /\ Spec.extends w w'
      /\ In (EvGet (PageGet url [])) (trace w')
      /\ (Spec.never_served P url -> exists e, r = Throw e)
      /\ (forall body, Spec.served P url body -> r = Ok body).
Proof.
  induction n as [|n IH]; intros attempt w Hn; [lia|].
  rewrite fetchWithRetry_unfold. unfold client_get, request.
  destruct (http_get P (trace w) (PageGet url [])) as [res|e] eqn:A.
  - eexists _, _. split; [reflexivity|]. cbn [trace]. repeat split.
    + eexists. reflexivity.
    + apply in_app_iff. right. left. reflexivity.
    + intros Hnever. destruct (Hnever (trace w)) as [e He]. congruence.
    + intros body Hserved. rewrite Hserved in A. exact (eq_sym A).
  - destruct (Nat.leb Common.MAX_RETRIES attempt) eqn:E.
    + eexists _, _. split; [reflexivity|]. cbn [trace]. repeat split.
      * eexists. reflexivity.
      * apply in_app_iff. right. left. reflexivity.
      * eauto.
      * intros body Hserved. rewrite Hserved in A. discriminate A.
    + apply Nat.leb_gt in E.
      match goal with
      | |- context [Common.fetchWithRetry P url [] (attempt + 1) ?w1] =>
          destruct (IH (attempt + 1) w1 ltac:(lia)) as (w' & r & Hrun & Hext & Hin & Hrest)
      end.
      exists w', r. split; [exact Hrun|]. split; [|split; [exact Hin | exact Hrest]].
      destruct Hext as [evs Hevs]. cbn [sleep emit fst trace] in Hevs.
      eexists. rewrite Hevs, <- !app_assoc. reflexivity.
Qed.

Lemma fetchWithRetry_outcome P url w :
  exists w' r,
    Common.fetchWithRetry P url [] 1 w = (w', r)
    /\ Spec.extends w w'
    /\ In (EvGet (PageGet url [])) (trace w')
    /\ (Spec.never_served P url -> exists e, r = Throw e)
    /\ (forall body, Spec.served P url body -> r = Ok body).
Proof.
  apply (fetchWithRetry_outcome_from P url (S Common.MAX_RETRIES)).
  unfold Common.MAX_RETRIES. lia.
Qed.


(** ** From the pages to the final image set *)

Lemma mapR_In {A B : Type} (f : A -> Result B) (l : list A) (ys : list B) (x : A) :
  mapR f l = Ok ys -> In x l -> exists y, f x = Ok y /\ In y ys.
Proof.
  revert ys. induction l as [|a l IH]; intros ys H Hin; [destruct Hin|].
  simpl in H. apply bindR_ok_inv in H. destruct H as (y & Hy & H).
  apply bindR_ok_inv in H. destruct H as (ys' & Hys & H). inversion H. subst ys.
  destruct Hin as [-> | Hin].
  - exists y. split; [exact Hy | left; reflexivity].
  - destruct (IH ys' Hys Hin) as (y' & Hy' & Hin'). exists y'. split; [exact Hy' | right; exact Hin'].
Qed.

Lemma productImages_botech_incl P pages pimgs page imgs :
  Botech.productImages P pages = Ok pimgs ->
  In page pages ->
  Botech.extractProductImages P page = Ok imgs ->
  incl imgs pimgs.
Proof.
  unfold Botech.productImages. intros H Hin Hpage.
  apply bindR_ok_inv in H. destruct H as (ls & Hls & H). inversion H. subst pimgs.
  destruct (mapR_In _ _ _ _ Hls Hin) as (l & Hl & Hlin).
  rewrite Hpage in Hl. inversion Hl. subst l.
  intros x Hx. apply in_concat. exists imgs. split; assumption.
Qed.

Lemma productImages_part001_fold P pages :
  forall acc out,
    Common.foldR (fun productImgs p =>
             if negb (JS.truthy (Some (Part001.page_html p))) then Ok productImgs
             else bindR (Part001.getProductImages P (Part001.page_html p)) (fun imgs =>
                    Ok (productImgs ++ imgs)%list)) pages acc = Ok out ->
    incl acc out /\
    (forall p imgs, In p pages -> Part001.page_html p <> "" ->
                    Part001.getProductImages P (Part001.page_html p) = Ok imgs ->
                    incl imgs out).
Proof.
  induction pages as [|p pages IH]; intros acc out H; simpl in H.
  - inversion H. subst out. split; [apply incl_refl | intros p imgs []].
  - apply bindR_ok_inv in H. destruct H as (acc' & Hacc & H).
    destruct (IH acc' out H) as [Hincl Hrest].
    unfold JS.truthy in Hacc.
    destruct (String.eqb_spec (Part001.page_html p) "") as [Hempty|Hne]; simpl in Hacc.
    + inversion Hacc. subst acc'. split; [exact Hincl|].
      intros q imgs [-> | Hin] Hq Hget; [contradiction | eauto].
    + apply bindR_ok_inv in Hacc. destruct Hacc as (imgs0 & Hget0 & Hacc).
      inversion Hacc. subst acc'. split.
      * intros x Hx. apply Hincl. apply in_app_iff. left. exact Hx.
      * intros q imgs [-> | Hin] Hq Hget; [|eauto].
        rewrite Hget in Hget0. inversion Hget0. subst imgs0.
        intros x Hx. apply Hincl. apply in_app_iff. right. exact Hx.
Qed.

Lemma productImages_part001_incl P pages pimgs page imgs :
  Part001.productImages P pages = Ok pimgs ->
  In page pages ->
  Part001.page_html page <> "" ->
  Part001.getProductImages P (Part001.page_html page) = Ok imgs ->
  incl imgs pimgs.
Proof.
  unfold Part001.productImages. intros H Hin Hne Hget.
  destruct (productImages_part001_fold P pages [] pimgs H) as [_ Hrest]. eauto.
Qed.

Lemma foldR_skip {A S : Type} (f : S -> A -> Result S) (x : A) (pre post : list A) :
  (forall s, f s x = Ok s) ->
  forall s, Common.foldR f (pre ++ x :: post) s = Common.foldR f (pre ++ post) s.
Proof.
  intros Hskip. induction pre as [|a pre IH]; intros s; simpl.
  - rewrite Hskip. reflexivity.
  - destruct (f s a) as [s'|e]; simpl; [apply IH | reflexivity].
Qed.

(** part_001 does not look into a page without a body. *)
Lemma productImages_part001_skips_empty P u pre post :
  Part001.productImages P (pre ++ Part001.mkPage u "" :: post)
  = Part001.productImages P (pre ++ post).
Proof. unfold Part001.productImages. apply foldR_skip. intros s. reflexivity. Qed.

(** scrape-botech.js does: it finds what cheerio finds in the empty
    document, that is nothing. *)
Lemma extractProductImages_botech_empty P :
  cheerio_select P "" Common.SEL_PRODUCT_IMG = [] ->
  cheerio_select P "" Common.SEL_IMG = [] ->
  Botech.extractProductImages P "" = Ok [].
Proof. intros H1 H2. unfold Botech.extractProductImages. rewrite H1, H2. reflexivity. Qed.

(** ** Asynchronous execution *)

Section FreeFacts.
Import Async.
Variable P : Platform.

Lemma runs_bind {A B : Type} (p : Proc A) (f : A -> Proc B) c c' r :
  runs P (bind p f) c c' r <->
  (exists c1 a, runs P p c c1 (Ok a) /\ runs P (f a) c1 c' r)
  \/ (exists e, runs P p c c' (Throw e) /\ r = Throw e).
Proof.
  revert c. induction p as [[a|e]|X cmd k IH]; intros c; cbn [bind runs].
  - split.
    + intros H. left. exists c, a. auto.
    + intros [(c1 & a' & [-> E] & H) | (e & [_ E] & _)]; [|discriminate E].
      inversion E. subst a'. exact H.
  - split.
    + intros [-> ->]. right. exists e. auto.
    + intros [(c1 & a' & [_ E] & _) | (e' & [-> E] & ->)]; [discriminate E|].
      inversion E. auto.
  - split.
    + intros (c1 & x & Hx & H). apply IH in H.
      destruct H as [(c2 & a & H1 & H2) | (e & H1 & ->)].
      * left. exists c2, a. split; [exists c1, x; auto | exact H2].
      * right. exists e. split; [exists c1, x; auto | reflexivity].
    + intros [(c2 & a & (c1 & x & Hx & H1) & H2) | (e & (c1 & x & Hx & H1) & ->)].
      * exists c1, x. split; [exact Hx|]. apply IH. left. exists c2, a. auto.
      * exists c1, x. split; [exact Hx|]. apply IH. right. exists e. auto.
Qed.

Lemma runs_try_catch {A : Type} (p : Proc A) (h : Error -> Proc A) c c' r :
  runs P (try_catch p h) c c' r <->
  (exists a, runs P p c c' (Ok a) /\ r = Ok a)
  \/ (exists c1 e, runs P p c c1 (Throw e) /\ runs P (h e) c1 c' r).
Proof.
  revert c. induction p as [[a|e]|X cmd k IH]; intros c; cbn [try_catch runs].
  - split.
    + intros [-> ->]. left. exists a. auto.
    + intros [(a' & [-> E] & ->) | (c1 & e & [_ E] & _)]; [|discriminate E].
      inversion E. auto.
  - split.
    + intros H. right. exists c, e. auto.
    + intros [(a' & [_ E] & _) | (c1 & e' & [-> E] & H)]; [discriminate E|].
      inversion E. subst e'. exact H.
  - split.
    + intros (c1 & x & Hx & H). apply IH in H.
      destruct H as [(a & H1 & ->) | (c2 & e & H1 & H2)].
      * left. exists a. split; [exists c1, x; auto | reflexivity].
      * right. exists c2, e. split; [exists c1, x; auto | exact H2].
    + intros [(a & (c1 & x & Hx & H1) & ->) | (c2 & e & (c1 & x & Hx & H1) & H2)].
      * exists c1, x. split; [exact Hx|]. apply IH. left. exists a. auto.
      * exists c1, x. split; [exact Hx|]. apply IH. right. exists c2, e. auto.
Qed.

End FreeFacts.

(** ** The bounded queue *)

Section PoolFacts.
Import Async.
Variable P : Platform.
Context {R : Type}.
Variable limit : nat.

Lemma store_length i (v : R) (l : list (option R)) :
  List.length (store i v l) = List.length l.
Proof. revert i. induction l as [|h l IH]; intros [|i]; simpl; auto. Qed.

Lemma store_same i (v : R) (l : list (option R)) :
  i < List.length l -> nth_error (store i v l) i = Some (Some v).
Proof.
  revert i. induction l as [|h l IH]; intros [|i] H; simpl in *; try lia; auto.
  apply IH. lia.
Qed.

Lemma store_other i j (v : R) (l : list (option R)) :
  i <> j -> nth_error (store i v l) j = nth_error l j.
Proof.
  revert i j. induction l as [|h l IH]; intros [|i] [|j] H; simpl; auto; try lia.
Qed.

Lemma index_from_In {T : Type} n (l : list T) i x :
  In (i, x) (index_from n l) <-> n <= i /\ nth_error l (i - n) = Some x.
Proof.
  revert n. induction l as [|a l IH]; intros n; simpl.
  - split; [intros [] | intros [_ H]; destruct (i - n); discriminate].
  - rewrite IH. split.
    + intros [E | [Hle Hnth]].
      * inversion E. subst. rewrite Nat.sub_diag. split; [lia | reflexivity].
      * split; [lia|]. replace (i - n) with (S (i - S n)) by lia. exact Hnth.
    + intros [Hle Hnth]. destruct (i - n) as [|k] eqn:E.
      * left. simpl in Hnth. inversion Hnth. f_equal. lia.
      * right. split; [lia|]. simpl in Hnth. replace (i - S n) with k by lia. exact Hnth.
Qed.

Lemma turn_cases i t before after (q : Pool R) w w' q' :
  turn P i t before after q w = (w', q') ->
  (exists r, segment P t w = (w', inl r)
      /\ q' = settle i r (mkPool (pending q) (before ++ after) (slots q) (rejected q)
                            (shared q)))
  \/ (exists t', segment P t w = (w', inr t')
      /\ q' = mkPool (pending q) (before ++ (i, t') :: after) (slots q) (rejected q)
                (shared q)).
Proof.
  unfold turn. destruct (segment P t w) as [w1 [r|t']]; intros E; inversion E; eauto.
Qed.

Lemma step_cases (q : Pool R) w w' q' :
  step P limit (w, q) (w', q') ->
  (exists i f rest,
      pending q = (i, f) :: rest /\ List.length (active q) < limit
      /\ turn P i (snd (f (shared q))) (active q) []
           (mkPool rest (active q) (slots q) (rejected q) (fst (f (shared q)))) w
         = (w', q'))
  \/ (exists i t before after,
      ready limit q = false /\ active q = (before ++ (i, t) :: after)%list
      /\ turn P i t before after q w = (w', q')).
Proof.
  intros [H | [n H]]; cbn [fst snd] in H.
  - left. unfold start in H. destruct (pending q) as [|[i f] rest]; [discriminate|].
    destruct (Nat.ltb (List.length (active q)) limit) eqn:E; [|discriminate].
    apply Nat.ltb_lt in E. exists i, f, rest.
    destruct (f (shared q)) as [index t]. inversion H. auto.
  - right. unfold resume in H. destruct (ready limit q) eqn:E; [discriminate|].
    destruct (skipn n (active q)) as [|[i t] after] eqn:S; [discriminate|].
    exists i, t, (firstn n (active q)), after. inversion H.
    split; [reflexivity|]. split; [|reflexivity].
    rewrite <- S. symmetry. apply firstn_skipn.
Qed.

(** A general way to reason about [await Promise.all]: what every step
    keeps holds when the caller is answered. *)
Lemma all_invariant (I : World -> Pool R -> Prop) :
  (forall w q w' q', I w q -> step P limit (w, q) (w', q') -> I w' q') ->
  (forall c c1 q, I (fst c) q -> background P c c1 -> I (fst c1) q) ->
  forall q c c' r,
    all P limit q c c' r -> I (fst c) q ->
    exists q', I (fst c') q' /\ outcome limit q' = Some r.
Proof.
  intros Hstep Hbg q c c' r H.
  induction H as [q c vs Hout | q w bg e Hout | q q' w w' bg c' r Hout Hs Hrest IH
                 | q c c1 c' r Hout Hready Hb Hrest IH]; intros HI.
  - exists q. auto.
  - exists q. auto.
  - apply IH. exact (Hstep _ _ _ _ HI Hs).
  - apply IH. exact (Hbg _ _ _ HI Hb).
Qed.

Section Alignment.
Variable workers : list (Worker R).

Lemma Inv_initial index : Inv P limit workers (initial index workers).
Proof.
  constructor; cbn [initial pending active slots rejected].
  - intros i f H. apply index_from_In in H. destruct H as [_ H].
    rewrite Nat.sub_0_r in H. exact H.
  - intros i t [].
  - intros i v H. rewrite nth_error_map in H. destruct (nth_error workers i); discriminate.
  - discriminate.
  - apply length_map.
  - intros i H. rewrite nth_error_map in H.
    destruct (nth_error workers i) as [f|] eqn:E; [|discriminate].
    right. left. exists f. apply index_from_In. rewrite Nat.sub_0_r. split; [lia | exact E].
  - cbn. lia.
Qed.

Lemma Inv_turn i t before after pend act sl rej sh w w' q' :
  origin P workers i t ->
  (forall j f, In (j, f) pend -> nth_error workers j = Some f) ->
  (forall j u, In (j, u) (before ++ after)%list -> origin P workers j u) ->
  (forall j v, nth_error sl j = Some (Some v) ->
     exists f n, nth_error workers j = Some f /\ may_settle P (snd (f n)) (Ok v)) ->
  (forall e, rej = Some e ->
     exists j f n, nth_error workers j = Some f /\ may_settle P (snd (f n)) (Throw e)) ->
  List.length sl = List.length workers ->
  (forall j, nth_error sl j = Some None ->
     rej <> None \/ (exists f, In (j, f) pend)
     \/ (exists u, In (j, u) (before ++ after)%list) \/ j = i) ->
  List.length (before ++ after)%list + 1 <= limit ->
  turn P i t before after (mkPool pend act sl rej sh) w = (w', q') ->
  Inv P limit workers q'.
Proof.
  intros Ho Hpend Hact Hsl Hrej Hlen Hwait Hbound Hturn.
  destruct Ho as (f & n & Hf & Hsettle).
  assert (Hi : i < List.length sl).
  { rewrite Hlen. apply nth_error_Some. congruence. }
  apply turn_cases in Hturn. cbn [pending slots rejected shared] in Hturn.
  destruct Hturn as [(r & Hseg & ->) | (t' & Hseg & ->)].
  - assert (Hr : may_settle P (snd (f n)) r).
    { apply Hsettle. apply (settles_now P t w r). rewrite Hseg. reflexivity. }
    destruct r as [v|e]; cbn [settle pending active slots rejected shared].
    + constructor; cbn [pending active slots rejected]; auto.
      * intros j v' H. destruct (Nat.eq_dec i j) as [<-|Hne].
        -- rewrite store_same in H by exact Hi. inversion H. subst v'. eauto.
        -- rewrite store_other in H by exact Hne. eauto.
      * rewrite store_length. exact Hlen.
      * intros j H. destruct (Nat.eq_dec i j) as [<-|Hne].
        -- rewrite store_same in H by exact Hi. discriminate.
        -- rewrite store_other in H by exact Hne.
           destruct (Hwait j H) as [H1 | [H1 | [H1 | H1]]]; auto; try congruence.
      * lia.
    + constructor; cbn [pending active slots rejected]; auto.
      * intros e' H. destruct rej as [e0|]; [apply Hrej; exact H|].
        inversion H. subst e'. eauto.
      * intros j _. left. destruct rej; discriminate.
      * lia.
  - constructor; cbn [pending active slots rejected]; auto.
    + intros j u H. apply in_app_iff in H. destruct H as [H | [H | H]].
      * apply Hact. apply in_app_iff. auto.
      * inversion H. subst j u. exists f, n. split; [exact Hf|].
        intros r Hr. apply Hsettle. apply (settles_later P t w t' r); [|exact Hr].
        rewrite Hseg. reflexivity.
      * apply Hact. apply in_app_iff. auto.
    + intros j H. destruct (Hwait j H) as [H1 | [H1 | [[u H1] | ->]]]; auto.
      * right. right. exists u. apply in_app_iff in H1. apply in_app_iff.
        destruct H1; [left | right; right]; assumption.
      * right. right. exists t'. apply in_app_iff. right. left. reflexivity.
    + rewrite length_app in *. cbn [List.length]. lia.
Qed.

Lemma Inv_step (q : Pool R) w w' q' :
  Inv P limit workers q -> step P limit (w, q) (w', q') -> Inv P limit workers q'.
Proof.
  intros [Hpend Hact Hsl Hrej Hlen Hwait Hbound] Hstep.
  apply step_cases in Hstep.
  destruct Hstep as [(i & f & rest & Hp & Hroom & Hturn)
                    | (i & t & before & after & Hready & Ha & Hturn)].
  - rewrite Hp in *. revert Hturn. apply Inv_turn; auto.
    + exists f, (shared q). split; [apply Hpend; left; reflexivity | auto].
    + intros j g H. apply Hpend. right. exact H.
    + intros j u H. rewrite app_nil_r in H. auto.
    + intros j H. destruct (Hwait j H) as [H1 | [[g [H1 | H1]] | [u H1]]]; auto.
      * inversion H1. auto.
      * right. left. eauto.
      * right. right. left. exists u. rewrite app_nil_r. exact H1.
    + rewrite app_nil_r. lia.
  - destruct q as [pend act sl rej sh]. cbn [pending active slots rejected shared] in *.
    subst act. revert Hturn. apply Inv_turn; auto.
    + apply Hact. apply in_app_iff. right. left. reflexivity.
    + intros j u H. apply Hact. apply in_app_iff in H. apply in_app_iff.
      destruct H; [left | right; right]; assumption.
    + intros j H. destruct (Hwait j H) as [H1 | [H1 | [u H1]]]; auto.
      apply in_app_iff in H1. destruct H1 as [H1 | [H1 | H1]].
      * right. right. left. exists u. apply in_app_iff. auto.
      * inversion H1. auto.
      * right. right. left. exists u. apply in_app_iff. auto.
    + rewrite length_app in *. cbn [List.length] in Hbound. lia.
Qed.

Lemma all_filled (sl : list (option R)) :
  (forall i, nth_error sl i <> Some None) -> sl = map Some (Common.somes sl).
Proof.
  induction sl as [|[v|] sl IH]; intros H; cbn [Common.somes map].
  - reflexivity.
  - f_equal. apply IH. intros i. apply (H (S i)).
  - exfalso. apply (H 0). reflexivity.
Qed.

Lemma Forall2_nth {A B : Type} (Q : A -> B -> Prop) (l1 : list A) (l2 : list B) :
  List.length l1 = List.length l2 ->
  (forall i x y, nth_error l1 i = Some x -> nth_error l2 i = Some y -> Q x y) ->
  Forall2 Q l1 l2.
Proof.
  revert l2. induction l1 as [|a l1 IH]; intros [|b l2] Hlen H; simpl in Hlen; try discriminate.
  - constructor.
  - constructor.
    + apply (H 0); reflexivity.
    + apply IH; [lia|]. intros i x y Hx Hy. apply (H (S i)); assumption.
Qed.

(** When [Promise.all] fulfils, the array is full and holds at index
    [i] a value of worker [i]; when it rejects, it does so with the
    rejection of a worker. *)
Lemma Inv_outcome (q : Pool R) r :
  Inv P limit workers q -> outcome limit q = Some r ->
  match r with
  | Ok vs =>
      slots q = map Some vs
      /\ Forall2 (fun f v => exists n, may_settle P (snd (f n)) (Ok v)) workers vs
  | Throw e =>
      exists i f n, nth_error workers i = Some f /\ may_settle P (snd (f n)) (Throw e)
  end.
Proof.
  intros [Hpend Hact Hsl Hrej Hlen Hwait Hbound]. unfold outcome.
  destruct (ready limit q); [discriminate|].
  destruct (rejected q) as [e|] eqn:Er.
  { intros H. inversion H. apply Hrej. reflexivity. }
  unfold finished. destruct (pending q) as [|x p] eqn:Ep; [|discriminate].
  destruct (active q) as [|y a] eqn:Ea; [|discriminate].
  intros H. inversion H. subst r.
  assert (Hfull : slots q = map Some (Common.somes (slots q))).
  { apply all_filled. intros i Hi.
    destruct (Hwait i Hi) as [H1 | [[f []] | [t []]]]. congruence. }
  split; [exact Hfull|].
  apply Forall2_nth.
  - rewrite Hfull, length_map in Hlen. symmetry. exact Hlen.
  - intros i f v Hf Hv.
    destruct (Hsl i v) as (f' & n & Hf' & Hs).
    { rewrite Hfull, nth_error_map, Hv. reflexivity. }
    assert (E : Some f = Some f') by (transitivity (nth_error workers i); auto).
    inversion E. subst f'. eauto.
Qed.

End Alignment.

End PoolFacts.

(** ** Every queue is answered *)

Section Totality.
Import Async.
Variable P : Platform.
Context {R : Type}.
Variable limit : nat.
Hypothesis Hlimit : 1 <= limit.

Lemma segment_sync {X : Type} (op : Op X) (k : Result X -> Task R) w :
  awaited op = false ->
  segment P (Do op k) w
  = segment P (k (snd (perform P op w))) (fst (perform P op w)).
Proof.
  intros H. cbn [segment]. destruct (perform P op w) as [w1 x]. rewrite H. reflexivity.
Qed.

Lemma segment_awaited {X : Type} (op : Op X) (k : Result X -> Task R) w :
  awaited op = true ->
  segment P (Do op k) w = (fst (perform P op w), inr (k (snd (perform P op w)))).
Proof.
  intros H. cbn [segment]. destruct (perform P op w) as [w1 x]. rewrite H. reflexivity.
Qed.

Lemma outcome_waiting pend i (t : Task R) after sl sh :
  ready limit (mkPool pend ((i, t) :: after) sl None sh) = false ->
  outcome limit (mkPool pend ((i, t) :: after) sl None sh) = None.
Proof.
  intros H. unfold outcome. rewrite H. unfold finished. cbn [rejected pending active].
  destruct pend; reflexivity.
Qed.

Lemma resume_first pend i (t : Task R) after sl sh w :
  ready limit (mkPool pend ((i, t) :: after) sl None sh) = false ->
  resume P limit 0 (mkPool pend ((i, t) :: after) sl None sh) w
  = Some (turn P i t [] after (mkPool pend after sl None sh) w).
Proof. intros H. unfold resume. rewrite H. reflexivity. Qed.

(** One schedule that always works: make the calls that p-limit is
    ready to make, and otherwise let the first invocation in flight go
    on. *)
Lemma all_total_within :
  forall n (q : Pool R),
    2 * List.length (pending q) + List.length (active q) < n ->
    forall c, exists c' r, all P limit q c c' r.
Proof.
  induction n as [|n IH]; intros q Hn [w bg]; [lia|].
  destruct (outcome limit q) as [[vs|e]|] eqn:Hout.
  { exists (w, bg), (Ok vs). apply all_fulfilled. exact Hout. }
  { eexists _, (Throw e). apply all_rejected. exact Hout. }
  destruct (ready limit q) eqn:Hready.
  - (* p-limit makes a call *)
    unfold ready in Hready. destruct (pending q) as [|[i f] rest] eqn:Hp; [discriminate|].
    destruct (f (shared q)) as [index t] eqn:Hf.
    destruct (turn P i t (active q) []
                (mkPool rest (active q) (slots q) (rejected q) index) w) as [w' q'] eqn:Hturn.
    assert (Hstep : step P limit (w, q) (w', q')).
    { left. cbn [fst snd]. unfold start. rewrite Hp, Hready, Hf, Hturn. reflexivity. }
    destruct (IH q') with (c := (w', bg)) as (c' & r & Hrun).
    { apply turn_cases in Hturn. cbn [pending slots rejected shared] in Hturn.
      cbn [List.length] in Hn.
      destruct Hturn as [(r & _ & ->) | (t' & _ & ->)].
      - destruct r; cbn [settle pending active]; rewrite app_nil_r; lia.
      - cbn [pending active]. rewrite length_app. cbn [List.length]. lia. }
    exists c', r. eapply all_step; eauto.
  - (* the first invocation in flight goes on *)
    assert (Hrej : rejected q = None).
    { unfold outcome in Hout. rewrite Hready in Hout.
      destruct (rejected q); [discriminate | reflexivity]. }
    assert (Hact : active q <> []).
    { unfold outcome in Hout. rewrite Hready, Hrej in Hout. unfold finished in Hout.
      unfold ready in Hready. intros E. rewrite E in *.
      destruct (pending q); [discriminate|].
      cbn [List.length] in Hready. apply Nat.ltb_ge in Hready. lia. }
    destruct q as [pend act sl rej sh]. cbn [pending active slots rejected shared] in *.
    subst rej. destruct act as [|[i t] after]; [contradiction|]. clear Hact.
    cbn [List.length] in Hn.
    assert (Hgo : forall t0 w0 w' q',
               turn P i t0 [] after (mkPool pend after sl None sh) w0 = (w', q') ->
               exists c' r, all P limit q' (w', bg) c' r).
    { induction t0 as [r0 | X op k IHk]; intros w0 w' q'.
      - unfold turn. cbn [segment app pending slots rejected shared].
        intros E. inversion E. subst w' q'.
        apply IH. destruct r0; cbn [settle pending active]; lia.
      - destruct (awaited op) eqn:Haw.
        + unfold turn. rewrite segment_awaited by exact Haw.
          cbn [app pending slots rejected shared]. intros E. inversion E. subst w' q'.
          set (x := snd (perform P op w0)). set (w1 := fst (perform P op w0)).
          destruct (turn P i (k x) [] after (mkPool pend after sl None sh) w1)
            as [w2 q2] eqn:E2.
          destruct (IHk x w1 w2 q2 E2) as (c' & r & Hrun). exists c', r.
          eapply all_step; [apply outcome_waiting; exact Hready | | exact Hrun].
          right. exists 0. cbn [fst snd].
          rewrite resume_first by exact Hready. rewrite E2. reflexivity.
        + unfold turn in *. rewrite segment_sync by exact Haw. apply IHk. }
    destruct (turn P i t [] after (mkPool pend after sl None sh) w) as [w2 q2] eqn:E2.
    destruct (Hgo t w w2 q2 E2) as (c' & r & Hrun). exists c', r.
    eapply all_step; [exact Hout | | exact Hrun].
    right. exists 0. cbn [fst snd].
    rewrite resume_first by exact Hready. rewrite E2. reflexivity.
Qed.

Lemma all_total (q : Pool R) (c : Config) : exists c' r, all P limit q c c' r.
Proof. exact (all_total_within _ q (Nat.lt_succ_diag_r _) c). Qed.

End Totality.

(** ** What an invocation may return *)

Section TaskFacts.
Import Async.
Variable P : Platform.

Lemma always_impl {A : Type} (Q Q' : Result A -> Prop) (t : Task A) :
  (forall r, Q r -> Q' r) -> always P Q t -> always P Q' t.
Proof.
  intros HQ. induction t as [r|X op k IH]; cbn [always]; [apply HQ|].
  intros H w. apply IH, H.
Qed.

Lemma always_bind {A B : Type} (Q : Result B -> Prop) (t : Task A) (f : A -> Task B) :
  always P (fun r => match r with
                     | Ok a => always P Q (f a)
                     | Throw e => Q (Throw e)
                     end) t ->
  always P Q (bind t f).
Proof.
  induction t as [[a|e]|X op k IH]; cbn [always bind]; auto.
Qed.

Lemma always_try_catch {A : Type} (Q : Result A -> Prop) (t : Task A) (h : Error -> Task A) :
  always P (fun r => match r with
                     | Ok a => Q (Ok a)
                     | Throw e => always P Q (h e)
                     end) t ->
  always P Q (try_catch t h).
Proof.
  induction t as [[a|e]|X op k IH]; cbn [always try_catch]; auto.
Qed.

Lemma always_segment {A : Type} (Q : Result A -> Prop) (t : Task A) w :
  always P Q t ->
  match snd (segment P t w) with
  | inl r => Q r
  | inr t' => always P Q t'
  end.
Proof.
  revert w. induction t as [r|X op k IH]; intros w H; cbn [segment always] in *; [exact H|].
  specialize (H w). destruct (perform P op w) as [w1 x]. cbn [snd] in H.
  destruct (awaited op); [exact H | apply IH, H].
Qed.

Lemma always_may_settle {A : Type} (Q : Result A -> Prop) (t : Task A) r :
  may_settle P t r -> always P Q t -> Q r.
Proof.
  intros H. induction H as [t w r Hseg | t w t' r Hseg Hrest IH]; intros Ht.
  - pose proof (always_segment Q t w Ht) as H. rewrite Hseg in H. exact H.
  - apply IH. pose proof (always_segment Q t w Ht) as H. rewrite Hseg in H. exact H.
Qed.

(** A task called from the orchestrator returns what it may return. *)
Lemma runs_call_always {A : Type} (Q : Result A -> Prop) (t : Task A) c c' r :
  always P Q t -> runs P (call t) c c' r -> Q r.
Proof.
  revert c. induction t as [r0|X op k IH]; intros c Ht; cbn [call runs always] in *.
  - intros [_ ->]. exact Ht.
  - intros (c1 & x & [-> _] & H). exact (IH _ c1 (Ht (fst c)) H).
Qed.

(** ** What happened stays in the history *)

Lemma perform_extends {X : Type} (op : Op X) w : Spec.extends w (fst (perform P op w)).
Proof.
  destruct op; cbn [perform]; unfold request, sleep, ensureDir, writeFile, pathExists,
    console_log, console_error, emit; cbn [fst trace paths].
  - eexists. reflexivity.
  - eexists. reflexivity.
  - destruct (fs_mkdir P (trace w) dir); cbn [fst trace]; eexists; reflexivity.
  - destruct (fs_write P (trace w) p); cbn [fst trace]; eexists; reflexivity.
  - eexists. reflexivity.
  - eexists. reflexivity.
  - eexists. reflexivity.
Qed.

Lemma segment_extends {A : Type} (t : Task A) w : Spec.extends w (fst (segment P t w)).
Proof.
  revert w. induction t as [r|X op k IH]; intros w; cbn [segment].
  - apply extends_refl.
  - pose proof (perform_extends op w) as H. destruct (perform P op w) as [w1 x].
    cbn [fst] in H. destruct (awaited op); [exact H|].
    eapply extends_trans; [exact H | apply IH].
Qed.

Lemma turn_extends {R : Type} i (t : Task R) before after q w :
  Spec.extends w (fst (turn P i t before after q w)).
Proof.
  unfold turn. pose proof (segment_extends t w) as H.
  destruct (segment P t w) as [w1 [r|t']]; exact H.
Qed.

Lemma step_extends {R : Type} limit (q q' : Pool R) w w' :
  step P limit (w, q) (w', q') -> Spec.extends w w'.
Proof.
  intros H. apply step_cases in H.
  destruct H as [(i & f & rest & _ & _ & E) | (i & t & before & after & _ & _ & E)];
    match type of E with
    | turn P ?i ?t ?b ?a ?q0 w = _ =>
        pose proof (turn_extends i t b a q0 w) as H; rewrite E in H; exact H
    end.
Qed.

Lemma background_extends c c' : background P c c' -> Spec.extends (fst c) (fst c').
Proof. intros H. destruct H as [R limit q q' w w' pre post H]. exact (step_extends _ _ _ _ _ H). Qed.

Lemma all_extends {R : Type} limit (q : Pool R) c c' r :
  all P limit q c c' r -> Spec.extends (fst c) (fst c').
Proof.
  intros H. induction H as [q c vs Hout | q w bg e Hout | q q' w w' bg c' r Hout Hs Hrest IH
                           | q c c1 c' r Hout Hready Hb Hrest IH].
  - apply extends_refl.
  - apply extends_refl.
  - eapply extends_trans; [exact (step_extends _ _ _ _ _ Hs) | exact IH].
  - eapply extends_trans; [exact (background_extends _ _ Hb) | exact IH].
Qed.

(** While a call is waiting and a place is free, the next thing to
    happen is the start of that call: the queue sends the first
    requests one after the other, before any of them is answered. *)
Lemma all_starts_first {R : Type} limit (q : Pool R) w bg c' r :
  ready limit q = true ->
  all P limit q (w, bg) c' r ->
  exists w' q', start P limit q w = Some (w', q') /\ all P limit q' (w', bg) c' r.
Proof.
  intros Hready H.
  assert (Hout : outcome limit q = None) by (unfold outcome; rewrite Hready; reflexivity).
  inversion H as [q0 c0 vs Ho | q0 w0 bg0 e Ho | q0 q' w0 w' bg0 c0 r0 Ho Hs Hrest
                 | q0 c0 c1 c2 r0 Ho Hr Hb Hrest]; subst; try congruence.
  destruct Hs as [Hs | [n Hs]]; cbn [fst snd] in Hs.
  - exists w', q'. auto.
  - unfold resume in Hs. rewrite Hready in Hs. discriminate Hs.
Qed.

End TaskFacts.

(** ** The fetch phase, whatever the order of the turns *)

Section FetchFacts.
Import Async.
Variable P : Platform.

Lemma always_fetchWithRetry (url : option string) (opts : Options) :
  forall calls attempt,
    always P (fun r => match r with
                       | Ok body => exists history, http_get P history (PageGet url opts) = Ok body
                       | Throw e => exists history, http_get P history (PageGet url opts) = Throw e
                       end)
      (fetchWithRetry_within calls url opts attempt).
Proof.
  induction calls as [|calls IH]; intros attempt; cbn [fetchWithRetry_within];
    cbn [io try_catch]; cbn [always]; intros w; cbn [perform]; unfold request; cbn [snd];
    (destruct (http_get P (trace w) (PageGet url opts)) as [body|e] eqn:E;
     [cbn [always]; eauto|]);
    (destruct (Nat.leb Common.MAX_RETRIES attempt); [cbn [throw always]; eauto|]);
    cbn [bind io]; cbn [always]; intros w'; cbn [perform sleep emit snd bind].
  - cbn [throw always]. eauto.
  - apply IH.
Qed.

Lemma always_fetchProduct_botech (u : option string) :
  always P (fun r => exists page, r = Ok page /\ Spec.page_of P u page)
    (BotechAsync.fetchProduct u).
Proof.
  unfold BotechAsync.fetchProduct. apply always_try_catch.
  eapply always_impl; [|apply always_fetchWithRetry].
  intros [body|e] H.
  - exists body. split; [reflexivity | left; exact H].
  - cbn [bind io]. cbn [always]. intros w.
    cbn [perform console_error emit snd bind ret always].
    exists "". split; [reflexivity|]. right. split; [reflexivity|].
    destruct H as [history H]. eauto.
Qed.

Lemma always_fetchProduct_part001 (u : option string) :
  always P (fun r => exists page, r = Ok (Part001.mkPage u page) /\ Spec.page_of P u page)
    (Part001Async.fetchProduct u).
Proof.
  unfold Part001Async.fetchProduct. apply always_try_catch. apply always_bind.
  eapply always_impl; [|apply always_fetchWithRetry].
  intros [body|e] H.
  - cbn [ret always]. exists body. split; [reflexivity | left; exact H].
  - cbn [bind io]. cbn [always]. intros w.
    cbn [perform console_error emit snd bind ret always].
    exists "". split; [reflexivity|]. right. split; [reflexivity|].
    destruct H as [history H]. eauto.
Qed.

End FetchFacts.

(** ** The answer of the queue *)

Section QueueFacts.
Import Async.
Variable P : Platform.
Context {R : Type}.
Variable limit : nat.
Variable workers : list (Worker R).

Lemma all_aligned index c c' r :
  all P limit (initial index workers) c c' r ->
  match r with
  | Ok vs => Forall2 (fun f v => exists n, may_settle P (snd (f n)) (Ok v)) workers vs
  | Throw e =>
      exists i f n, nth_error workers i = Some f /\ may_settle P (snd (f n)) (Throw e)
  end.
Proof.
  intros H.
  destruct (all_invariant P limit (fun _ q => Inv P limit workers q)
              (fun w q w' q' Hq Hs => Inv_step P limit workers q w w' q' Hq Hs)
              (fun _ _ _ Hq _ => Hq)
              _ _ _ _ H (Inv_initial P limit workers index))
    as (q' & Hinv & Hout).
  pose proof (Inv_outcome P limit workers q' r Hinv Hout) as Hr.
  destruct r; [exact (proj2 Hr) | exact Hr].
Qed.

Lemma turn_world i (t : Task R) before after q w :
  fst (turn P i t before after q w) = fst (segment P t w).
Proof. unfold turn. destruct (segment P t w) as [w1 [r|t']]; reflexivity. Qed.

Lemma turn_pending i (t : Task R) before after q w :
  pending (snd (turn P i t before after q w)) = pending q.
Proof. unfold turn. destruct (segment P t w) as [w1 [[v|e]|t']]; reflexivity. Qed.

(** Once [Promise.all] fulfils, every worker has taken its first turn. *)
Lemma all_started (opening : Worker R -> Event -> Prop) index c c' vs :
  (forall f e, opening f e ->
     forall n w, In e (trace (fst (segment P (snd (f n)) w)))) ->
  all P limit (initial index workers) c c' (Ok vs) ->
  forall f e, In f workers -> opening f e -> In e (trace (fst c')).
Proof.
  intros Hopening H.
  set (I := fun (w : World) (q : Pool R) =>
              forall i f, nth_error workers i = Some f ->
                          In (i, f) (pending q)
                          \/ forall e, opening f e -> In e (trace w)).
  assert (Hstep : forall w q w' q', I w q -> step P limit (w, q) (w', q') -> I w' q').
  { intros w q w' q' HI Hs. pose proof (step_extends P _ _ _ _ _ Hs) as Hext.
    apply step_cases in Hs.
    destruct Hs as [(i & f & rest & Hp & _ & E) | (i & t & before & after & _ & _ & E)].
    + intros j g Hg. destruct (HI j g Hg) as [Hin | Hdone].
      * rewrite Hp in Hin. destruct Hin as [Heq | Hin].
        -- inversion Heq. subst j g. right. intros e He.
           pose proof (Hopening f e He (shared q) w) as Hev.
           rewrite <- turn_world with (i := i) (before := active q) (after := [])
             (q := mkPool rest (active q) (slots q) (rejected q) (fst (f (shared q))))
             in Hev.
           rewrite E in Hev. exact Hev.
        -- left. pose proof (turn_pending i (snd (f (shared q))) (active q) []
                               (mkPool rest (active q) (slots q) (rejected q)
                                  (fst (f (shared q)))) w) as Hpend.
           rewrite E in Hpend. cbn [snd pending] in Hpend. rewrite Hpend. exact Hin.
      * right. intros e He. eapply extends_In; [exact Hext | auto].
    + intros j g Hg. destruct (HI j g Hg) as [Hin | Hdone].
      * left. pose proof (turn_pending i t before after q w) as Hpend.
        rewrite E in Hpend. cbn [snd] in Hpend. rewrite Hpend. exact Hin.
      * right. intros e He. eapply extends_In; [exact Hext | auto]. }
  assert (Hbg : forall c0 c1 q, I (fst c0) q -> background P c0 c1 -> I (fst c1) q).
  { intros c0 c1 q HI Hb j g Hg. destruct (HI j g Hg) as [Hin | Hdone]; [left; exact Hin|].
    right. intros e He. eapply extends_In; [exact (background_extends P _ _ Hb) | auto]. }
  assert (Hinit : I (fst c) (initial index workers)).
  { intros i f Hf. left. apply index_from_In. rewrite Nat.sub_0_r. split; [lia | exact Hf]. }
  destruct (all_invariant P limit I Hstep Hbg _ _ _ _ H Hinit) as (q' & HI & Hout).
  intros f e Hf He. apply In_nth_error in Hf. destruct Hf as [i Hi].
  destruct (HI i f Hi) as [Hin | Hdone]; [|auto].
  unfold outcome in Hout. destruct (ready limit q'); [discriminate|].
  destruct (rejected q'); [discriminate|]. unfold finished in Hout.
  destruct (pending q'); [destruct Hin | discriminate].
Qed.

End QueueFacts.

Lemma Forall2_map_left {A B C : Type} (g : A -> B) (Q : B -> C -> Prop) (l : list A) :
  forall l', Forall2 Q (map g l) l' -> Forall2 (fun x y => Q (g x) y) l l'.
Proof.
  induction l as [|a l IH]; intros l' H; inversion H; subst; constructor; auto.
Qed.

Section FetchPhase.
Import Async.
Variable P : Platform.

Lemma fetchPages_botech_runs links c c' r :
  runs P (BotechAsync.fetchPages links) c c' r ->
  exists pages,
    r = Ok pages
    /\ Forall2 (Spec.page_of P) links pages
    /\ forall u, In u links -> In (EvGet (PageGet u [])) (trace (fst c')).
Proof.
  unfold BotechAsync.fetchPages, all_of. cbn [runs exec].
  intros (c1 & x & Hall & -> & ->).
  pose proof (all_aligned P _ _ _ _ _ _ Hall) as Hal.
  destruct x as [pages|e].
  - exists pages. split; [reflexivity|]. split.
    + apply Forall2_map_left in Hal. revert Hal. apply Forall2_impl.
      intros u page [n Hs].
      destruct (always_may_settle P _ _ _ Hs (always_fetchProduct_botech P u))
        as (page' & E & Hp).
      inversion E. subst page'. exact Hp.
    + intros u Hu.
      set (opening := fun (f : Worker _) (e : Event) =>
                        exists v, f = BotechAsync.fetchWorker v /\ e = EvGet (PageGet v [])).
      assert (Hopen : forall f e, opening f e ->
                forall n w, In e (trace (fst (segment P (snd (f n)) w)))).
      { intros f e (v & -> & ->) n w. cbn [BotechAsync.fetchWorker snd].
        unfold BotechAsync.fetchProduct, fetchWithRetry.
        change (Common.MAX_RETRIES - 1) with 2.
        cbn [fetchWithRetry_within io try_catch segment perform awaited].
        unfold request. cbn [fst trace]. apply in_app_iff. right. left. reflexivity. }
      apply (all_started P _ _ opening _ _ _ _ Hopen Hall (BotechAsync.fetchWorker u)).
      * apply in_map. exact Hu.
      * exists u. auto.
  - destruct Hal as (i & f & n & Hf & Hs). rewrite nth_error_map in Hf.
    destruct (nth_error links i) as [u|]; [|discriminate]. inversion Hf. subst f.
    destruct (always_may_settle P _ _ _ Hs (always_fetchProduct_botech P u))
      as (page' & E & _).
    discriminate E.
Qed.

Lemma fetchPages_part001_runs links c c' r :
  runs P (Part001Async.fetchPages links) c c' r ->
  exists pages,
    r = Ok pages
    /\ Forall2 (fun u p => Part001.page_url p = u /\ Spec.page_of P u (Part001.page_html p))
         links pages
    /\ forall u, In u links -> In (EvGet (PageGet u [])) (trace (fst c')).
Proof.
  unfold Part001Async.fetchPages, all_of. cbn [runs exec].
  intros (c1 & x & Hall & -> & ->).
  pose proof (all_aligned P _ _ _ _ _ _ Hall) as Hal.
  destruct x as [pages|e].
  - exists pages. split; [reflexivity|]. split.
    + apply Forall2_map_left in Hal. revert Hal. apply Forall2_impl.
      intros u page [n Hs].
      destruct (always_may_settle P _ _ _ Hs (always_fetchProduct_part001 P u))
        as (page' & E & Hp).
      inversion E. subst page. cbn [Part001.page_url Part001.page_html]. auto.
    + intros u Hu.
      set (opening := fun (f : Worker _) (e : Event) =>
                        exists v, f = Part001Async.fetchWorker v /\ e = EvGet (PageGet v [])).
      assert (Hopen : forall f e, opening f e ->
                forall n w, In e (trace (fst (segment P (snd (f n)) w)))).
      { intros f e (v & -> & ->) n w. cbn [Part001Async.fetchWorker snd].
        unfold Part001Async.fetchProduct, fetchWithRetry.
        change (Common.MAX_RETRIES - 1) with 2.
        cbn [fetchWithRetry_within io try_catch bind segment perform awaited].
        unfold request. cbn [fst trace]. apply in_app_iff. right. left. reflexivity. }
      apply (all_started P _ _ opening _ _ _ _ Hopen Hall (Part001Async.fetchWorker u)).
      * apply in_map. exact Hu.
      * exists u. auto.
  - destruct Hal as (i & f & n & Hf & Hs). rewrite nth_error_map in Hf.
    destruct (nth_error links i) as [u|]; [|discriminate]. inversion Hf. subst f.
    destruct (always_may_settle P _ _ _ Hs (always_fetchProduct_part001 P u))
      as (page' & E & _).
    discriminate E.
Qed.

End FetchPhase.

(** ** Every process is answered *)

Section Totals.
Import Async.
Variable P : Platform.

Lemma total_return {A : Type} (r : Result A) : total P (Return (E := Cmd) r).
Proof. intros c. exists c, r. split; reflexivity. Qed.

Lemma total_bind {A B : Type} (p : Proc A) (f : A -> Proc B) :
  total P p -> (forall a, total P (f a)) -> total P (bind p f).
Proof.
  intros Hp Hf c. destruct (Hp c) as (c1 & [a|e] & H1).
  - destruct (Hf a c1) as (c' & r & H2). exists c', r. apply runs_bind. left. eauto.
  - exists c1, (Throw e). apply runs_bind. right. eauto.
Qed.

Lemma total_try_catch {A : Type} (p : Proc A) (h : Error -> Proc A) :
  total P p -> (forall e, total P (h e)) -> total P (try_catch p h).
Proof.
  intros Hp Hh c. destruct (Hp c) as (c1 & [a|e] & H1).
  - exists c1, (Ok a). apply runs_try_catch. left. eauto.
  - destruct (Hh e c1) as (c' & r & H2). exists c', r. apply runs_try_catch. right. eauto.
Qed.

Lemma total_call {A : Type} (t : Task A) : total P (call t).
Proof.
  induction t as [r|X op k IH]; intros c; cbn [call].
  - exists c, r. split; reflexivity.
  - destruct (IH (snd (perform P op (fst c))) (fst (perform P op (fst c)), snd c))
      as (c' & r & H).
    exists c', r. cbn [runs]. eexists _, _. split; [|exact H].
    cbn [exec]. split; [reflexivity|].
    destruct (awaited op); [apply meanwhile_nothing | reflexivity].
Qed.

Lemma total_all_of {R : Type} (limit index : nat) (workers : list (Worker R)) :
  1 <= limit -> total P (all_of limit index workers).
Proof.
  intros Hlimit c. destruct (all_total P limit Hlimit (initial index workers) c) as (c' & r & H).
  exists c', r. unfold all_of. cbn [runs exec]. exists c', r. split; [exact H|]. split; reflexivity.
Qed.

Lemma total_for_each {A : Type} (body : A -> Proc unit) (items : list A) :
  (forall x, total P (body x)) -> total P (for_each body items).
Proof.
  intros Hbody. induction items as [|x items IH]; cbn [for_each].
  - apply total_return.
  - apply total_bind; [apply Hbody | intros _; exact IH].
Qed.

Ltac total_steps :=
  repeat first
    [ apply total_return
    | apply total_call
    | apply total_all_of; unfold Common.FETCH_CONCURRENCY, Common.DOWNLOAD_CONCURRENCY; lia
    | apply total_bind; [|intros ?] ].

Lemma total_collectImages_botech name rel : total P (BotechAsync.collectImages P name rel).
Proof.
  unfold BotechAsync.collectImages, BotechAsync.fetchPages, lift, ret. total_steps.
Qed.

Lemma total_collectImages_part001 name rel : total P (Part001Async.collectImages P name rel).
Proof.
  unfold Part001Async.collectImages, Part001Async.fetchPages, lift, ret. total_steps.
Qed.

Lemma total_scrapeCategory_botech name rel : total P (BotechAsync.scrapeCategory P name rel).
Proof.
  unfold BotechAsync.scrapeCategory. apply total_bind; [apply total_collectImages_botech|].
  intros [imgs links]. unfold BotechAsync.downloadPhase, ret. total_steps.
Qed.

Lemma total_scrapeCategory_part001 name rel : total P (Part001Async.scrapeCategory P name rel).
Proof.
  unfold Part001Async.scrapeCategory. apply total_bind; [apply total_collectImages_part001|].
  intros [imgs links]. unfold Part001Async.downloadPhase, ret. total_steps.
Qed.

Lemma total_main_botech categories : total P (BotechAsync.main_over P categories).
Proof.
  unfold BotechAsync.main_over. total_steps.
  apply total_for_each. intros [name rel]. cbn [BotechAsync.attemptCategory].
  apply total_try_catch; [apply total_scrapeCategory_botech | intros e; apply total_call].
Qed.

Lemma total_main_part001 categories : total P (Part001Async.main_over P categories).
Proof.
  unfold Part001Async.main_over. total_steps.
  apply total_for_each. intros [name rel]. cbn [Part001Async.attemptCategory].
  apply total_try_catch; [apply total_scrapeCategory_part001 | intros e; apply total_call].
Qed.

End Totals.

(** C9. [Promise.all] over the workers that p-limit admits, for a limit
    of at least 1 and whatever the order in which the invocations take
    their turns: the caller is answered; never more than [limit]
    invocations are in flight; when the answer is an array, it has one
    entry per worker, the entry at index [i] being a value that worker
    [i] returned; when it is a rejection, it is the rejection of a
    worker.  In the fetch phase of either copy the workers never
    reject, so that the pages come back one per link, in the order of
    the links: the page at index [i] is a body served for link [i], or
    the empty body after a request for link [i] failed. *)
Theorem pipeline_results_are_index_aligned :
  forall (P : Platform) (R : Type) (limit index : nat) (workers : list (Async.Worker R))
         (c : Async.Config),
    1 <= limit ->
    (exists c' r, Async.all P limit (Async.initial index workers) c c' r) /\
    (forall q,
        Async.reached P limit (Async.initial index workers) q ->
        List.length (Async.active q) <= limit) /\
    (forall c' vs,
        Async.all P limit (Async.initial index workers) c c' (Ok vs) ->
        Forall2 (fun worker v => exists n, Async.may_settle P (snd (worker n)) (Ok v))
          workers vs) /\
    (forall c' e,
        Async.all P limit (Async.initial index workers) c c' (Throw e) ->
        exists i worker n,
          nth_error workers i = Some worker
          /\ Async.may_settle P (snd (worker n)) (Throw e)) /\
    (forall links c' r,
        Async.runs P (BotechAsync.fetchPages links) c c' r ->
        exists pages, r = Ok pages /\ Forall2 (Spec.page_of P) links pages) /\
    (forall links c' r,
        Async.runs P (Part001Async.fetchPages links) c c' r ->
        exists pages,
          r = Ok pages
          /\ Forall2 (fun u p => Part001.page_url p = u
                                 /\ Spec.page_of P u (Part001.page_html p)) links pages).
Proof.
  intros P R limit index workers c Hlimit.
  split; [apply all_total; exact Hlimit|].
  split.
  { intros q H. apply (Async.inv_bound P limit workers).
    induction H as [|q w q' w' _ IH Hs]; [apply Inv_initial|].
    exact (Inv_step P limit workers q w w' q' IH Hs). }
  split; [intros c' vs H; exact (all_aligned P limit workers index c c' (Ok vs) H)|].
  split; [intros c' e H; exact (all_aligned P limit workers index c c' (Throw e) H)|].
  split.
  - intros links c' r H. destruct (fetchPages_botech_runs P links c c' r H) as (pages & H1 & H2 & _).
    exists pages. auto.
  - intros links c' r H. destruct (fetchPages_part001_runs P links c c' r H) as (pages & H1 & H2 & _).
    exists pages. auto.
Qed.


(** ** A product page that cannot be fetched *)

Section CollectFacts.
Import Async.
Variable P : Platform.

Lemma runs_call_io {X : Type} (op : Op X) c c' r :
  runs P (call (io op)) c c' r <->
  r = snd (perform P op (fst c))
  /\ if awaited op then meanwhile P (fst (perform P op (fst c)), snd c) c'
     else c' = (fst (perform P op (fst c)), snd c).
Proof.
  cbn [call io runs exec]. split.
  - intros (c1 & x & [-> H] & -> & ->). auto.
  - intros [-> H]. eexists _, _. split; [split; [reflexivity | exact H]|]. split; reflexivity.
Qed.

Lemma Forall2_nth_error {A B : Type} (Q : A -> B -> Prop) (l : list A) (l' : list B) :
  Forall2 Q l l' ->
  forall i x, nth_error l i = Some x -> exists y, nth_error l' i = Some y /\ Q x y.
Proof.
  intros H. induction H as [|a b l l' Hab _ IH]; intros [|i] x Hx; try discriminate.
  - inversion Hx. subst. exists b. auto.
  - apply IH. exact Hx.
Qed.

Lemma page_of_never_served u page :
  Spec.never_served P u -> Spec.page_of P u page -> page = "".
Proof.
  intros Hn [[h E] | [E _]]; [|exact E]. destruct (Hn h) as [e He]. congruence.
Qed.

Lemma page_of_served u body page :
  Spec.served P u body -> Spec.page_of P u page -> page = body.
Proof.
  intros Hs [[h E] | [_ (h & e & E)]]; rewrite Hs in E; [congruence | discriminate].
Qed.

(** The listing that is served is what the orchestrator gets. *)
Lemma runs_fetchWithRetry_served u body attempt c c' r :
  Spec.served P u body ->
  runs P (call (fetchWithRetry u [] attempt)) c c' r -> r = Ok body.
Proof.
  intros Hs H.
  pose proof (runs_call_always P _ _ c c' r
                (always_fetchWithRetry P u [] (Common.MAX_RETRIES - attempt) attempt) H) as Hr.
  destruct r as [b|e]; destruct Hr as [h E]; rewrite Hs in E; [congruence | discriminate].
Qed.

(** The phases of [scrapeCategory] before and after the fetch phase, in
    the shape that the two copies share. *)
Lemma runs_collect {PAGE : Type} (folder : string) (toAbsR : Result (option string))
  (line : option string -> list string)
  (thumbsOf : string -> Result (list string))
  (linksOf : string -> Result (list (option string)))
  (fetchPages : list (option string) -> Proc (list PAGE))
  (allImages : list string -> list PAGE -> Result (list string))
  categoryUrl catHtml thumbs links c c' r :
  fs_mkdir P (trace (fst c)) folder = None ->
  toAbsR = Ok categoryUrl ->
  Spec.served P categoryUrl catHtml ->
  thumbsOf catHtml = Ok thumbs ->
  linksOf catHtml = Ok links ->
  runs P
    (call (io (EnsureDir folder)) ;;;
     u <- lift toAbsR ;;
     call (io (Log (line u))) ;;;
     html <- call (fetchWithRetry u [] 1) ;;
     catThumbs <- lift (thumbsOf html) ;;
     productLinks <- lift (linksOf html) ;;
     productPages <- fetchPages productLinks ;;
     imgs <- lift (allImages catThumbs productPages) ;;
     ret (imgs, productLinks))%async c c' r ->
  exists c3 rp,
    runs P (fetchPages links) c3 c' rp
    /\ r = bindR rp (fun pages =>
             bindR (allImages thumbs pages) (fun imgs => Ok (imgs, links))).
Proof.
  intros Hdir -> Hserved Hthumbs Hlinks H.
  apply runs_bind in H. destruct H as [(c1 & a1 & H1 & H) | (e & H1 & ->)].
  2:{ apply runs_call_io in H1. destruct H1 as [E _]. cbn [perform] in E.
      unfold ensureDir in E. rewrite Hdir in E. discriminate E. }
  clear H1. cbn [lift bind] in H.
  apply runs_bind in H. destruct H as [(c2 & a2 & H2 & H) | (e & H2 & ->)].
  2:{ apply runs_call_io in H2. destruct H2 as [E _]. discriminate E. }
  clear H2.
  apply runs_bind in H. destruct H as [(c3 & html & H3 & H) | (e & H3 & ->)].
  2:{ apply (runs_fetchWithRetry_served _ _ _ _ _ _ Hserved) in H3. discriminate H3. }
  apply (runs_fetchWithRetry_served _ _ _ _ _ _ Hserved) in H3. inversion H3. subst html.
  rewrite Hthumbs, Hlinks in H. cbn [lift bind] in H.
  apply runs_bind in H. destruct H as [(c4 & pages & H4 & H) | (e & H4 & ->)].
  - exists c3, (Ok pages). cbn [bindR].
    destruct (allImages thumbs pages) as [imgs|e]; cbn [lift bind ret runs] in H;
      destruct H as [-> ->]; auto.
  - exists c3, (Throw e). auto.
Qed.

End CollectFacts.

(** C6. Take a category whose directory can be made, whose listing is
    served and yields its thumbnails and its product links, and let one
    of the product links never be served.  Then [scrapeCategory] gets to
    its final image set, whatever the order in which the fetch workers
    take their turns: every product link is requested; the pages come
    back one per link, the empty body for the link that failed and for
    a link that is served its body; the image set is computed from these
    pages, so that it holds every image extracted from a page that came
    back; the empty body yields no image (part_001 skips it,
    scrape-botech.js extracts from the empty document).  This holds in
    either copy. *)
Theorem failed_product_page_leaves_the_others :
  forall (P : Platform) (categoryName relativePath : string) (c : Async.Config)
         (categoryUrl : option string) (catHtml : string) (thumbs : list string)
         (links : list (option string)) (i : nat) (failing : option string),
    fs_mkdir P (trace (fst c)) (Botech.folderOf P categoryName) = None ->
    Spec.served P categoryUrl catHtml ->
    nth_error links i = Some failing ->
    Spec.never_served P failing ->
    (Botech.toAbs P (Some relativePath) = Ok categoryUrl ->
     Botech.extractCategoryImages P catHtml = Ok thumbs ->
     Botech.extractProductLinks P catHtml = Ok links ->
     (exists c' r,
         Async.runs P (BotechAsync.collectImages P categoryName relativePath) c c' r) /\
     (forall c' r,
         Async.runs P (BotechAsync.collectImages P categoryName relativePath) c c' r ->
         exists pages,
           Forall2 (Spec.page_of P) links pages
           /\ nth_error pages i = Some ""
           /\ (forall j u body,
                  nth_error links j = Some u -> Spec.served P u body ->
                  nth_error pages j = Some body)
           /\ (forall u, In u links -> In (EvGet (PageGet u [])) (trace (fst c')))
           /\ r = bindR (Botech.allImages P thumbs pages) (fun imgs => Ok (imgs, links))
           /\ (forall imgs page found,
                  Botech.allImages P thumbs pages = Ok imgs ->
                  In page pages ->
                  Botech.extractProductImages P page = Ok found ->
                  incl found imgs)
           /\ (cheerio_select P "" Common.SEL_PRODUCT_IMG = [] ->
               cheerio_select P "" Common.SEL_IMG = [] ->
               Botech.extractProductImages P "" = Ok []))) /\
    (Part001.toAbs P (Some relativePath) = Ok categoryUrl ->
     Part001.getCategoryPageImageUrls P catHtml = Ok thumbs ->
     Part001.getProductLinksFromCategory P catHtml = Ok links ->
     (exists c' r,
         Async.runs P (Part001Async.collectImages P categoryName relativePath) c c' r) /\
     (forall c' r,
         Async.runs P (Part001Async.collectImages P categoryName relativePath) c c' r ->
         exists pages,
           Forall2 (fun u p => Part001.page_url p = u
                               /\ Spec.page_of P u (Part001.page_html p)) links pages
           /\ nth_error pages i = Some (Part001.mkPage failing "")
           /\ (forall j u body,
                  nth_error links j = Some u -> Spec.served P u body ->
                  nth_error pages j = Some (Part001.mkPage u body))
           /\ (forall u, In u links -> In (EvGet (PageGet u [])) (trace (fst c')))
           /\ r = bindR (Part001.allImages P thumbs pages) (fun imgs => Ok (imgs, links))
           /\ (forall imgs page found,
                  Part001.allImages P thumbs pages = Ok imgs ->
                  In page pages ->
                  Part001.page_html page <> "" ->
                  Part001.getProductImages P (Part001.page_html page) = Ok found ->
                  incl found imgs)
           /\ (forall u pre post,
                  Part001.productImages P (pre ++ Part001.mkPage u "" :: post)
                  = Part001.productImages P (pre ++ post)))).
Proof.
  intros P categoryName relativePath c categoryUrl catHtml thumbs links i failing
    Hdir Hlisting Hi Hfail.
  split.
  - intros Hurl Hthumbs Hlinks. split; [apply total_collectImages_botech|].
    intros c' r Hrun. unfold BotechAsync.collectImages in Hrun.
    apply (runs_collect P _ _ (fun u => ["==>"; categoryName; show u]) _ _ _ _
             categoryUrl catHtml thumbs links c c' r Hdir Hurl Hlisting Hthumbs Hlinks)
      in Hrun.
    destruct Hrun as (c3 & rp & Hfetch & ->).
    apply fetchPages_botech_runs in Hfetch.
    destruct Hfetch as (pages & -> & Hpages & Hsent).
    exists pages. cbn [bindR].
    split; [exact Hpages|].
    split.
    { destruct (Forall2_nth_error _ _ _ Hpages i failing Hi) as (page & Hp & Hof).
      rewrite (page_of_never_served P failing page Hfail Hof) in Hp. exact Hp. }
    split.
    { intros j u body Hj Hs.
      destruct (Forall2_nth_error _ _ _ Hpages j u Hj) as (page & Hp & Hof).
      rewrite (page_of_served P u body page Hs Hof) in Hp. exact Hp. }
    split; [exact Hsent|]. split; [reflexivity|].
    split; [|apply extractProductImages_botech_empty].
    intros imgs page found Hall Hin Hfound.
    apply allImages_botech_spec in Hall. destruct Hall as (pimgs & Hp & ->).
    intros x Hx. apply (uniq_In _ string_eqb_eq). apply in_app_iff. right.
    eapply productImages_botech_incl; eauto.
  - intros Hurl Hthumbs Hlinks. split; [apply total_collectImages_part001|].
    intros c' r Hrun. unfold Part001Async.collectImages in Hrun.
    apply (runs_collect P _ _ (fun u => ["==> Category:"; categoryName; show u]) _ _ _ _
             categoryUrl catHtml thumbs links c c' r Hdir Hurl Hlisting Hthumbs Hlinks)
      in Hrun.
    destruct Hrun as (c3 & rp & Hfetch & ->).
    apply fetchPages_part001_runs in Hfetch.
    destruct Hfetch as (pages & -> & Hpages & Hsent).
    exists pages. cbn [bindR].
    split; [exact Hpages|].
    split.
    { destruct (Forall2_nth_error _ _ _ Hpages i failing Hi) as ([u html] & Hp & Hu & Hof).
      cbn [Part001.page_url Part001.page_html] in Hu, Hof. subst u.
      rewrite (page_of_never_served P failing html Hfail Hof) in Hp. exact Hp. }
    split.
    { intros j u body Hj Hs.
      destruct (Forall2_nth_error _ _ _ Hpages j u Hj) as ([u' html] & Hp & Hu & Hof).
      cbn [Part001.page_url Part001.page_html] in Hu, Hof. subst u'.
      rewrite (page_of_served P u body html Hs Hof) in Hp. exact Hp. }
    split; [exact Hsent|]. split; [reflexivity|].
    split; [|intros u pre post; apply productImages_part001_skips_empty].
    intros imgs page found Hall Hin Hne Hfound.
    apply allImages_part001_spec in Hall. destruct Hall as (pimgs & Hp & ->).
    intros x Hx. apply (uniq_In _ string_eqb_eq). apply in_app_iff. right.
    eapply productImages_part001_incl; eauto.
Qed.

(** ** The run driver *)

Section DriverFacts.
Import Async.
Variable P : Platform.

(** Nothing happens in between when no queue was left behind. *)
Lemma meanwhile_idle w c : meanwhile P (w, []) c -> c = (w, []).
Proof.
  intros H. remember (w, @nil Detached) as c0 eqn:E.
  destruct H as [c | c1 c2 c3 H12 H23]; [reflexivity|].
  subst c1. inversion H12 as [R limit q q' w0 w' pre post Hs E1 E2].
  destruct pre; discriminate.
Qed.

Lemma for_each_visits (scrape : string -> string -> Proc unit)
  (attempt : string * string -> Proc unit) :
  (forall name rel,
      attempt (name, rel)
      = try_catch (scrape name rel)
          (fun e => call (io (LogError ["[ERROR] Category"; name; "failed:"; message e])))) ->
  forall categories c c' r,
    runs P (for_each attempt categories) c c' r ->
    r = Ok tt /\ Spec.visits P scrape categories c c'.
Proof.
  intros Hattempt categories.
  induction categories as [|[name rel] rest IH]; intros c c' r H; cbn [for_each] in H.
  - destruct H as [-> ->]. split; [reflexivity | constructor].
  - apply runs_bind in H. rewrite Hattempt in H.
    destruct H as [(c1 & a & H1 & H) | (e & H1 & ->)];
      apply runs_try_catch in H1;
      destruct H1 as [(a' & H1 & E) | (c0 & e' & H1 & H2)]; try discriminate E.
    + destruct (IH _ _ _ H) as [-> Hv]. split; [reflexivity|].
      destruct a'. eapply Spec.visits_completed; eauto.
    + apply runs_call_io in H2. destruct H2 as [_ H2]. cbn [awaited perform] in H2.
      subst c1. destruct (IH _ _ _ H) as [-> Hv]. split; [reflexivity|].
      eapply Spec.visits_failed; eauto.
    + apply runs_call_io in H2. destruct H2 as [E _]. discriminate E.
Qed.

Lemma runs_main_over (scrape : string -> string -> Proc unit)
  (attempt : string * string -> Proc unit) (line done : string) categories w c' r :
  (forall name rel,
      attempt (name, rel)
      = try_catch (scrape name rel)
          (fun e => call (io (LogError ["[ERROR] Category"; name; "failed:"; message e])))) ->
  fs_mkdir P (trace w) (OUTPUT_DIR P) = None ->
  runs P
    (call (io (EnsureDir (OUTPUT_DIR P))) ;;;
     call (io (Log [line; OUTPUT_DIR P])) ;;;
     for_each attempt categories ;;;
     call (io (Log [done])))%async (w, []) c' r ->
  r = Ok tt
  /\ exists c1,
       Spec.visits P scrape categories (Spec.after_setup P line w, []) c1
       /\ c' = Spec.logged (EvLog [done]) c1.
Proof.
  intros Hattempt Hdir H.
  apply runs_bind in H. destruct H as [(c1 & a1 & H1 & H) | (e & H1 & ->)];
    apply runs_call_io in H1; destruct H1 as [E H1]; cbn [perform fst snd] in E, H1;
    unfold ensureDir in E, H1; rewrite Hdir in E, H1; [|discriminate E].
  cbn [awaited fst] in H1. apply meanwhile_idle in H1. subst c1.
  apply runs_bind in H. destruct H as [(c2 & a2 & H2 & H) | (e & H2 & ->)];
    apply runs_call_io in H2; destruct H2 as [E2 H2]; [|discriminate E2].
  cbn [awaited perform console_log emit fst snd paths trace] in H2. subst c2.
  rewrite <- app_assoc in H. cbn [app] in H.
  change (mkWorld (OUTPUT_DIR P :: paths w)
            (trace w ++ [EvMkdir (OUTPUT_DIR P); EvLog [line; OUTPUT_DIR P]]))
    with (Spec.after_setup P line w) in H.
  apply runs_bind in H. destruct H as [(c3 & a3 & H3 & H) | (e & H3 & ->)];
    apply (for_each_visits scrape attempt Hattempt) in H3; destruct H3 as [E3 Hv];
    [|discriminate E3].
  apply runs_call_io in H. destruct H as [-> H]. cbn [awaited] in H.
  split; [reflexivity|]. exists c3. split; [exact Hv | exact H].
Qed.

End DriverFacts.

(** C7. Once the output directory is in place, [main] hands every
    category to [scrapeCategory], one after the other and in the order
    of the table; a failure of [scrapeCategory] is caught and logged with
    the name of the category, and the next category is tried, while
    the download queue of the failed category may still be at work;
    [main] itself is answered, and returns normally whatever the
    categories did and whatever the order of the turns; the process of
    part_001 ends with exit code 0. *)
Theorem main_attempts_every_category :
  forall (P : Platform) (categories : list (string * string)) (w : World),
    fs_mkdir P (trace w) (OUTPUT_DIR P) = None ->
    let attempts (main_over : list (string * string) -> Async.Proc unit)
                 (scrape : string -> string -> Async.Proc unit) (line done : string) :=
      (exists c', Async.runs P (main_over categories) (w, []) c' (Ok tt))
      /\ (forall c' r,
             Async.runs P (main_over categories) (w, []) c' r ->
             r = Ok tt
             /\ exists c1,
                  Spec.visits P scrape categories (Spec.after_setup P line w, []) c1
                  /\ c' = Spec.logged (EvLog [done]) c1) in
    attempts (BotechAsync.main_over P) (BotechAsync.scrapeCategory P)
      "Saving images into:" "All done!" /\
    attempts (Part001Async.main_over P) (Part001Async.scrapeCategory P)
      "Saving into:" "Done." /\
    (exists c', Async.runs P (Part001Async.run P) (w, []) c' (Ok 0)) /\
    (forall c' r, Async.runs P (Part001Async.run P) (w, []) c' r -> r = Ok 0).
Proof.
  intros P categories w Hdir attempts.
  assert (HA : forall cats c' r,
             Async.runs P (BotechAsync.main_over P cats) (w, []) c' r ->
             r = Ok tt
             /\ exists c1,
                  Spec.visits P (BotechAsync.scrapeCategory P) cats
                    (Spec.after_setup P "Saving images into:" w, []) c1
                  /\ c' = Spec.logged (EvLog ["All done!"]) c1).
  { intros cats c' r H.
    exact (runs_main_over P (BotechAsync.scrapeCategory P) (BotechAsync.attemptCategory P)
             "Saving images into:" "All done!" cats w c' r (fun _ _ => eq_refl) Hdir H). }
  assert (HB : forall cats c' r,
             Async.runs P (Part001Async.main_over P cats) (w, []) c' r ->
             r = Ok tt
             /\ exists c1,
                  Spec.visits P (Part001Async.scrapeCategory P) cats
                    (Spec.after_setup P "Saving into:" w, []) c1
                  /\ c' = Spec.logged (EvLog ["Done."]) c1).
  { intros cats c' r H.
    exact (runs_main_over P (Part001Async.scrapeCategory P) (Part001Async.attemptCategory P)
             "Saving into:" "Done." cats w c' r (fun _ _ => eq_refl) Hdir H). }
  assert (Hexit : forall c' r, Async.runs P (Part001Async.run P) (w, []) c' r -> r = Ok 0).
  { intros c' r H. unfold Part001Async.run in H. apply runs_try_catch in H.
    destruct H as [(a & H & ->) | (c1 & e & H & _)]; apply runs_bind in H;
      destruct H as [(c2 & a2 & H1 & H2) | (e' & H1 & E)].
    - cbn [Async.ret Async.runs] in H2. destruct H2 as [_ E]. inversion E. reflexivity.
    - discriminate E.
    - cbn [Async.ret Async.runs] in H2. destruct H2 as [_ E]. discriminate E.
    - apply HB in H1. destruct H1 as [E1 _]. discriminate E1. }
  unfold attempts. split; [|split; [|split]].
  - split; [|apply HA].
    destruct (total_main_botech P categories (w, [])) as (c' & r & H).
    exists c'. destruct (HA _ _ _ H) as [-> _]. exact H.
  - split; [|apply HB].
    destruct (total_main_part001 P categories (w, [])) as (c' & r & H).
    exists c'. destruct (HB _ _ _ H) as [-> _]. exact H.
  - assert (Ht : Async.total P (Part001Async.run P)).
    { unfold Part001Async.run. apply total_try_catch.
      - apply total_bind; [apply total_main_part001 | intros _; apply total_return].
      - intros e. apply total_bind; [apply total_call | intros _; apply total_return]. }
    destruct (Ht (w, [])) as (c' & r & H). exists c'.
    rewrite <- (Hexit _ _ H). exact H.
  - exact Hexit.
Qed.


(** ** The URL normalizer *)

Lemma prefix_lower_ci (p u : string) :
  JS.ascii_lower p = p -> JS.startsWith p u = true -> JS.startsWith_ci p u = true.
Proof.
  unfold JS.startsWith, JS.startsWith_ci, JS.ascii_lower. revert u.
  induction p as [|c p IH]; intros u Hp H.
  - destruct u; reflexivity.
  - destruct u as [|d u]; simpl in H; [discriminate|].
    simpl in Hp. inversion Hp as [[Hc Hp']].
    destruct (ascii_dec c d) as [<- | Hne]; [|discriminate].
    simpl. rewrite Hc. rewrite Hp'.
    destruct (ascii_dec c c) as [_ | F]; [|contradiction].
    apply IH; assumption.
Qed.

Lemma strip_dot_slash_no_slash (u : string) :
  JS.startsWith "/" u = false ->
  Common.strip_dot_slash u = if JS.startsWith "./" u then JS.drop 2 u else u.
Proof. intros H. unfold Common.strip_dot_slash. rewrite H. reflexivity. Qed.

(** C3, as the code has it.  Both copies answer null to null and to the
    empty string and return unchanged a string that starts with [http://]
    or [https://].  For the rest, part_001 resolves a string that starts
    with [/] by the URL parser and puts the base in front of any other
    string, a leading [./] stripped; scrape-botech.js accepts the scheme
    in any letter case, strips one leading [/] or [./] and lets the URL
    parser resolve what is left against the base. *)
Theorem toAbs_by_cases :
  forall (P : Platform) (u : string),
    Botech.toAbs P None = Ok None /\
    Part001.toAbs P None = Ok None /\
    Botech.toAbs P (Some "") = Ok None /\
    Part001.toAbs P (Some "") = Ok None /\
    (u <> "" ->
     JS.startsWith "http://" u || JS.startsWith "https://" u = true ->
     Botech.toAbs P (Some u) = Ok (Some u) /\ Part001.toAbs P (Some u) = Ok (Some u)) /\
    (u <> "" ->
     JS.startsWith "http://" u || JS.startsWith "https://" u = false ->
     Part001.toAbs P (Some u)
     = if JS.startsWith "/" u then Spec.resolve P u Part001.BASE
       else Ok (Some (Part001.BASE ++ (if JS.startsWith "./" u then JS.drop 2 u else u)))) /\
    (u <> "" ->
     Botech.toAbs P (Some u)
     = if JS.startsWith_ci "http://" u || JS.startsWith_ci "https://" u then Ok (Some u)
       else Spec.resolve P (Common.strip_dot_slash u) Botech.BASE_URL) /\
    (forall h,
        Part001.toAbs P (Some u) = Ok h ->
        Part001.toAbs P (Some u) = Spec.toAbsolute P (Some u) Part001.BASE).
Proof.
  intros P u.
  split; [reflexivity|]. split; [reflexivity|].
  split; [reflexivity|]. split; [reflexivity|].
  split.
  { intros Hne Hscheme. apply String.eqb_neq in Hne.
    unfold Botech.toAbs, Part001.toAbs. rewrite Hne, Hscheme.
    assert (Hci : JS.startsWith_ci "http://" u || JS.startsWith_ci "https://" u = true).
    { apply orb_true_iff in Hscheme. apply orb_true_iff.
      destruct Hscheme as [H | H]; [left | right];
        (apply prefix_lower_ci; [reflexivity | exact H]). }
    rewrite Hci. split; reflexivity. }
  split.
  { intros Hne Hscheme. apply String.eqb_neq in Hne.
    unfold Part001.toAbs, Spec.resolve. rewrite Hne, Hscheme.
    destruct (JS.startsWith "/" u) eqn:Hslash; [reflexivity|].
    rewrite (strip_dot_slash_no_slash _ Hslash). reflexivity. }
  split.
  { intros Hne. apply String.eqb_neq in Hne.
    unfold Botech.toAbs, Spec.resolve. rewrite Hne. reflexivity. }
  intros h. unfold Part001.toAbs, Spec.toAbsolute.
  destruct (u =? ""); [reflexivity|].
  destruct (JS.startsWith "http://" u || JS.startsWith "https://" u); [reflexivity|].
  destruct (JS.startsWith "/" u) eqn:Hslash.
  - destruct (URL_href P u Part001.BASE); [reflexivity | discriminate].
  - rewrite (strip_dot_slash_no_slash _ Hslash). reflexivity.
Qed.

(** C3 as stated fails on scrape-botech.js: an inline image is not put
    under the origin, and a reference that starts with two slashes is not
    resolved as the URL parser resolves it against the origin. *)
Lemma toAbs_botech_departs_from_contract :
  Botech.toAbs Site.platform (Some "data:image/gif;base64,R0lGODlh")
    = Ok (Some "data:image/gif;base64,R0lGODlh") /\
  Spec.toAbsolute Site.platform (Some "data:image/gif;base64,R0lGODlh") Botech.BASE_URL
    = Ok (Some "https://www.botech.ma/data:image/gif;base64,R0lGODlh") /\
  Botech.toAbs Site.platform (Some "//cdn.example.com/a.jpg")
    = Ok (Some "https://www.botech.ma/cdn.example.com/a.jpg") /\
  Spec.toAbsolute Site.platform (Some "//cdn.example.com/a.jpg") Botech.BASE_URL
    = Ok (Some "https://cdn.example.com/a.jpg").
Proof. repeat split; vm_compute; reflexivity. Qed.

(** C4, as the code has it.  Neither copy catches what [new URL] throws:
    [toAbs] raises exactly when it hands a string to the URL parser and
    the parser rejects it, and then it raises the parser's [TypeError];
    in every other case it returns, and it returns null only for null and
    for the empty string. *)
Theorem toAbs_raises_what_the_parser_raises :
  forall (P : Platform) (url : option string),
    (forall e,
        Botech.toAbs P url = Throw e <->
        exists u, url = Some u /\ u <> ""
                  /\ JS.startsWith_ci "http://" u || JS.startsWith_ci "https://" u = false
                  /\ URL_href P (Common.strip_dot_slash u) Botech.BASE_URL = None
                  /\ e = TypeError "Invalid URL") /\
    (forall e,
        Part001.toAbs P url = Throw e <->
        exists u, url = Some u /\ u <> ""
                  /\ JS.startsWith "http://" u || JS.startsWith "https://" u = false
                  /\ JS.startsWith "/" u = true
                  /\ URL_href P u Part001.BASE = None
                  /\ e = TypeError "Invalid URL") /\
    (Botech.toAbs P url = Ok None <-> url = None \/ url = Some "") /\
    (Part001.toAbs P url = Ok None <-> url = None \/ url = Some "").
Proof.
  intros P url. repeat split.
  - unfold Botech.toAbs. destruct url as [u|]; [|discriminate].
    destruct (String.eqb_spec u "") as [->|Hne]; [discriminate|].
    destruct (JS.startsWith_ci "http://" u || JS.startsWith_ci "https://" u) eqn:Hs;
      [discriminate|].
    destruct (URL_href P (Common.strip_dot_slash u) Botech.BASE_URL) eqn:Hp; [discriminate|].
    intros H. inversion H. exists u. repeat split; auto.
  - intros (u & -> & Hne & Hs & Hp & ->). unfold Botech.toAbs.
    apply String.eqb_neq in Hne. rewrite Hne, Hs, Hp. reflexivity.
  - unfold Part001.toAbs. destruct url as [u|]; [|discriminate].
    destruct (String.eqb_spec u "") as [->|Hne]; [discriminate|].
    destruct (JS.startsWith "http://" u || JS.startsWith "https://" u) eqn:Hs;
      [discriminate|].
    destruct (JS.startsWith "/" u) eqn:Hslash; [|discriminate].
    destruct (URL_href P u Part001.BASE) eqn:Hp; [discriminate|].
    intros H. inversion H. exists u. repeat split; auto.
  - intros (u & -> & Hne & Hs & Hslash & Hp & ->). unfold Part001.toAbs.
    apply String.eqb_neq in Hne. rewrite Hne, Hs, Hslash, Hp. reflexivity.
  - unfold Botech.toAbs. destruct url as [u|]; [|auto].
    destruct (String.eqb_spec u "") as [->|Hne]; [auto|].
    destruct (JS.startsWith_ci "http://" u || JS.startsWith_ci "https://" u);
      [discriminate|].
    destruct (URL_href P (Common.strip_dot_slash u) Botech.BASE_URL); discriminate.
  - intros [-> | ->]; reflexivity.
  - unfold Part001.toAbs. destruct url as [u|]; [|auto].
    destruct (String.eqb_spec u "") as [->|Hne]; [auto|].
    destruct (JS.startsWith "http://" u || JS.startsWith "https://" u); [discriminate|].
    destruct (JS.startsWith "/" u); [|discriminate].
    destruct (URL_href P u Part001.BASE); discriminate.
  - intros [-> | ->]; reflexivity.
Qed.

(** C4 as stated fails: with the URL parser of the platform, each copy
    raises on a reference whose authority has no host, where the contract
    asks for null. *)
Lemma toAbs_raises_on_missing_host :
  Part001.toAbs Site.platform (Some "//:0") = Throw (TypeError "Invalid URL") /\
  Spec.toAbsolute Site.platform (Some "//:0") Part001.BASE = Ok None /\
  Botech.toAbs Site.platform (Some "http:") = Throw (TypeError "Invalid URL") /\
  WhatwgURL.href "//:0" Part001.BASE = WhatwgURL.Failure /\
  WhatwgURL.href "http:" Botech.BASE_URL = WhatwgURL.Failure.
Proof. repeat split; vm_compute; reflexivity. Qed.

(** C10 as stated fails: the two copies differ on a scheme written in
    capitals, on a reference that starts with two slashes, on a space, and
    on a dot segment. *)
Lemma toAbs_copies_differ :
  Botech.toAbs Site.platform (Some "HTTP://www.botech.ma/a.jpg")
    = Ok (Some "HTTP://www.botech.ma/a.jpg") /\
  Part001.toAbs Site.platform (Some "HTTP://www.botech.ma/a.jpg")
    = Ok (Some "https://www.botech.ma/HTTP://www.botech.ma/a.jpg") /\
  Botech.toAbs Site.platform (Some "//cdn.example.com/a.jpg")
    = Ok (Some "https://www.botech.ma/cdn.example.com/a.jpg") /\
  Part001.toAbs Site.platform (Some "//cdn.example.com/a.jpg")
    = Ok (Some "https://cdn.example.com/a.jpg") /\
  Botech.toAbs Site.platform (Some "images/lit 2.jpg")
    = Ok (Some "https://www.botech.ma/images/lit%202.jpg") /\
  Part001.toAbs Site.platform (Some "images/lit 2.jpg")
    = Ok (Some "https://www.botech.ma/images/lit 2.jpg") /\
  Botech.toAbs Site.platform (Some "../images/lit.jpg")
    = Ok (Some "https://www.botech.ma/images/lit.jpg") /\
  Part001.toAbs Site.platform (Some "../images/lit.jpg")
    = Ok (Some "https://www.botech.ma/../images/lit.jpg").
Proof. repeat split; vm_compute; reflexivity. Qed.

(** ** Strings *)

Lemma string_length_app (a b : string) :
  String.length (a ++ b) = String.length a + String.length b.
Proof. induction a as [|c a IH]; simpl; [reflexivity | rewrite IH; reflexivity]. Qed.

Lemma append_nil_r (s : string) : s ++ "" = s.
Proof. induction s as [|c s IH]; simpl; [reflexivity | rewrite IH; reflexivity]. Qed.

Lemma append_assoc (a b c : string) : (a ++ b) ++ c = a ++ (b ++ c).
Proof. induction a as [|x a IH]; simpl; [reflexivity | rewrite IH; reflexivity]. Qed.

Lemma append_cancel_l (a b c : string) : a ++ b = a ++ c -> b = c.
Proof.
  induction a as [|x a IH]; simpl; intros H; [exact H|].
  inversion H. auto.
Qed.

Lemma forall_chars_app q (a b : string) :
  JS.forall_chars q (a ++ b) = JS.forall_chars q a && JS.forall_chars q b.
Proof.
  induction a as [|x a IH]; simpl; [reflexivity|]. rewrite IH, andb_assoc. reflexivity.
Qed.

Lemma exists_char_app q (a b : string) :
  JS.exists_char q (a ++ b) = JS.exists_char q a || JS.exists_char q b.
Proof.
  induction a as [|x a IH]; simpl; [reflexivity|]. rewrite IH, orb_assoc. reflexivity.
Qed.

Lemma rev_onto_app (s acc : string) : JS.rev_onto s acc = JS.rev s ++ acc.
Proof.
  unfold JS.rev. revert acc. induction s as [|c s IH]; intros acc; simpl; [reflexivity|].
  rewrite IH, (IH (String c "")), append_assoc. reflexivity.
Qed.

Lemma rev_cons (c : ascii) (s : string) : JS.rev (String c s) = JS.rev s ++ String c "".
Proof. unfold JS.rev at 1. simpl. apply rev_onto_app. Qed.

Lemma rev_app (a b : string) : JS.rev (a ++ b) = JS.rev b ++ JS.rev a.
Proof.
  induction a as [|x a IH]; simpl.
  - rewrite append_nil_r. reflexivity.
  - rewrite !rev_cons, IH, append_assoc. reflexivity.
Qed.

Lemma rev_involutive (s : string) : JS.rev (JS.rev s) = s.
Proof.
  induction s as [|c s IH]; [reflexivity|].
  rewrite rev_cons, rev_app, IH. reflexivity.
Qed.

Lemma forall_chars_rev q (s : string) : JS.forall_chars q (JS.rev s) = JS.forall_chars q s.
Proof.
  induction s as [|c s IH]; [reflexivity|].
  rewrite rev_cons, forall_chars_app, IH. simpl. rewrite andb_true_r, andb_comm. reflexivity.
Qed.

Lemma forall_chars_weaken (q q' : ascii -> bool) (s : string) :
  (forall c, q c = true -> q' c = true) ->
  JS.forall_chars q s = true -> JS.forall_chars q' s = true.
Proof.
  intros Hq. induction s as [|c s IH]; simpl; [auto|].
  intros H. apply andb_true_iff in H. destruct H as [H1 H2].
  rewrite (Hq c H1), (IH H2). reflexivity.
Qed.

Lemma forall_chars_filter q keep (s : string) :
  (forall c, keep c = true -> q c = true) ->
  JS.forall_chars q (JS.filter_chars keep s) = true.
Proof.
  intros Hq. induction s as [|c s IH]; simpl; [reflexivity|].
  destruct (keep c) eqn:E; simpl; [rewrite (Hq c E), IH; reflexivity | exact IH].
Qed.

Lemma forall_chars_filter_keeps q keep (s : string) :
  JS.forall_chars q s = true -> JS.forall_chars q (JS.filter_chars keep s) = true.
Proof.
  induction s as [|c s IH]; simpl; [auto|].
  intros H. apply andb_true_iff in H. destruct H as [H1 H2].
  destruct (keep c); simpl; [rewrite H1, (IH H2); reflexivity | exact (IH H2)].
Qed.

Lemma forall_chars_drop_while q p (s : string) :
  JS.forall_chars q s = true -> JS.forall_chars q (JS.drop_while p s) = true.
Proof.
  induction s as [|c s IH]; simpl; [auto|].
  intros H. destruct (p c); [|exact H].
  apply andb_true_iff in H. destruct H as [_ H2]. exact (IH H2).
Qed.

Lemma forall_chars_strip_trailing q p (s : string) :
  JS.forall_chars q s = true -> JS.forall_chars q (JS.strip_trailing p s) = true.
Proof.
  intros H. unfold JS.strip_trailing. rewrite forall_chars_rev.
  apply forall_chars_drop_while. rewrite forall_chars_rev. exact H.
Qed.

Lemma forall_chars_take q n (s : string) :
  JS.forall_chars q s = true -> JS.forall_chars q (JS.take n s) = true.
Proof.
  revert n. induction s as [|c s IH]; intros [|n]; simpl; auto.
  intros H. apply andb_true_iff in H. destruct H as [H1 H2].
  rewrite H1, (IH n H2). reflexivity.
Qed.

Lemma forall_chars_drop q n (s : string) :
  JS.forall_chars q s = true -> JS.forall_chars q (JS.drop n s) = true.
Proof.
  revert n. induction s as [|c s IH]; intros [|n]; simpl; auto.
  intros H. apply andb_true_iff in H. destruct H as [H1 H2]. exact (IH n H2).
Qed.

Lemma forall_chars_map q f (s : string) :
  (forall c, q (f c) = true) -> JS.forall_chars q (JS.map_chars f s) = true.
Proof.
  intros Hq. induction s as [|c s IH]; simpl; [reflexivity|].
  rewrite Hq, IH. reflexivity.
Qed.

(** A string without [c] is one piece. *)
Lemma split_on_none c (s : string) :
  JS.forall_chars (fun x => negb (Ascii.eqb x c)) s = true -> JS.split_on c s = [s].
Proof.
  induction s as [|x s IH]; simpl; [reflexivity|].
  intros H. apply andb_true_iff in H. destruct H as [H1 H2].
  apply negb_true_iff in H1. rewrite H1, (IH H2). reflexivity.
Qed.

Lemma split_on_nonempty c (s : string) : JS.split_on c s <> [].
Proof.
  induction s as [|x s IH]; simpl; [discriminate|].
  destruct (Ascii.eqb x c); [discriminate|].
  destruct (JS.split_on c s); [contradiction | discriminate].
Qed.

Lemma split_on_app c (a b : string) :
  JS.split_on c (a ++ String c b) = (JS.split_on c a ++ JS.split_on c b)%list.
Proof.
  induction a as [|x a IH]; simpl.
  - rewrite Ascii.eqb_refl. reflexivity.
  - destruct (Ascii.eqb x c); [rewrite IH; reflexivity|].
    rewrite IH. pose proof (split_on_nonempty c a) as Hne.
    destruct (JS.split_on c a) as [|h t]; [contradiction | reflexivity].
Qed.

(** ** Joining a folder and a file name *)

Lemma normalize_segments_app a (l1 : list string) :
  forall st, exists st',
    forall l2, NodePath.normalize_segments a (l1 ++ l2) st
               = NodePath.normalize_segments a l2 st'.
Proof.
  induction l1 as [|s l1 IH]; intros st.
  - exists st. reflexivity.
  - simpl. destruct ((s =? "") || (s =? ".")); [apply IH|].
    destruct (s =? ".."); [|apply IH].
    destruct st as [|top below]; [apply IH|].
    destruct (top =? ".."); apply IH.
Qed.

Lemma normalize_segments_plain a (n : string) (st : list string) :
  Spec.plain_segment n ->
  NodePath.normalize_segments a [n] st = (List.rev st ++ [n])%list.
Proof.
  intros (H0 & H1 & H2 & _). simpl.
  apply String.eqb_neq in H0, H1, H2. rewrite H0, H1, H2. reflexivity.
Qed.

Lemma join_snoc sep (l : list string) (n : string) :
  JS.join sep (l ++ [n])
  = (match l with [] => "" | _ => JS.join sep l ++ sep end) ++ n.
Proof.
  induction l as [|x l IH]; [reflexivity|].
  destruct l as [|y l].
  - simpl. rewrite append_assoc. reflexivity.
  - change (JS.join sep ((x :: y :: l) ++ [n]))
      with (x ++ sep ++ JS.join sep ((y :: l) ++ [n])).
    rewrite IH.
    change (JS.join sep (x :: y :: l)) with (x ++ sep ++ JS.join sep (y :: l)).
    rewrite !append_assoc. reflexivity.
Qed.

Lemma plain_nonempty (n : string) : Spec.plain_segment n -> n <> "".
Proof. intros H. apply H. Qed.

Lemma plain_no_slash (n : string) :
  Spec.plain_segment n ->
  JS.forall_chars (fun c => negb (Ascii.eqb c NodePath.slash)) n = true.
Proof. intros (_ & _ & _ & H). exact H. Qed.

Lemma plain_first_char (n : string) :
  Spec.plain_segment n ->
  exists c r, n = String c r /\ Ascii.eqb c NodePath.slash = false.
Proof.
  intros (H0 & _ & _ & H). destruct n as [|c r]; [contradiction|].
  simpl in H. apply andb_true_iff in H. destruct H as [H _].
  apply negb_true_iff in H. eauto.
Qed.

Lemma plain_last_char (n : string) :
  Spec.plain_segment n ->
  exists c r, JS.rev n = String c r /\ Ascii.eqb c NodePath.slash = false.
Proof.
  intros (H0 & _ & _ & H). rewrite <- forall_chars_rev in H.
  destruct (JS.rev n) as [|c r] eqn:E.
  - exfalso. apply H0. rewrite <- (rev_involutive n), E. reflexivity.
  - simpl in H. apply andb_true_iff in H. destruct H as [H _].
    apply negb_true_iff in H. eauto.
Qed.

Lemma startsWith_slash_cons (c : ascii) (r : string) :
  JS.startsWith "/" (String c r) = Ascii.eqb c NodePath.slash.
Proof.
  unfold JS.startsWith, NodePath.slash.
  change (String.prefix "/" (String c r))
    with (match ascii_dec "/" c with
          | left _ => String.prefix "" r
          | right _ => false
          end).
  destruct (ascii_dec "/" c) as [<- | Hne].
  - destruct r; reflexivity.
  - symmetry. apply Ascii.eqb_neq. congruence.
Qed.

Lemma append_eq_nil (a b : string) : a ++ b = "" -> b = "".
Proof. destruct a; simpl; [auto | discriminate]. Qed.

(** [path.normalize] of a path that ends with a plain segment: the
    segment stays at the end, behind a text that the rest determines. *)
Lemma normalize_plain_tail (folder : string) :
  exists C, forall n,
    Spec.plain_segment n -> NodePath.normalize (folder ++ "/" ++ n) = C ++ n.
Proof.
  destruct (normalize_segments_app
              (negb (JS.startsWith "/" (folder ++ "/")))
              (JS.split_on NodePath.slash folder) []) as [st' Hst].
  exists ((if JS.startsWith "/" (folder ++ "/") then "/" else "")
          ++ match List.rev st' with [] => "" | _ => JS.join "/" (List.rev st') ++ "/" end).
  intros n Hn. unfold NodePath.normalize.
  assert (Hne : (folder ++ "/" ++ n =? "") = false).
  { apply String.eqb_neq. intros E. apply append_eq_nil in E. discriminate. }
  rewrite Hne.
  assert (Habs : JS.startsWith "/" (folder ++ "/" ++ n) = JS.startsWith "/" (folder ++ "/")).
  { destruct folder as [|c f]; cbn [append]; rewrite !startsWith_slash_cons; reflexivity. }
  rewrite Habs.
  assert (Htrail : JS.startsWith "/" (JS.rev (folder ++ "/" ++ n)) = false).
  { rewrite rev_app. change ("/" ++ n) with (String "/" n). rewrite rev_cons.
    destruct (plain_last_char n Hn) as (c & r & E & Hc). rewrite E. cbn [append].
    rewrite startsWith_slash_cons. exact Hc. }
  rewrite Htrail.
  change ("/" ++ n) with (String NodePath.slash n). rewrite split_on_app.
  rewrite (split_on_none NodePath.slash n) by (apply plain_no_slash; exact Hn).
  rewrite Hst, normalize_segments_plain by exact Hn.
  rewrite join_snoc.
  set (pre := match List.rev st' with [] => "" | _ => JS.join "/" (List.rev st') ++ "/" end).
  assert (Hbody : (pre ++ n =? "") = false).
  { apply String.eqb_neq. intros E. apply append_eq_nil in E.
    exact (plain_nonempty n Hn E). }
  cbv zeta. rewrite Hbody. rewrite append_nil_r, append_assoc. reflexivity.
Qed.

Lemma normalize_plain (n : string) : Spec.plain_segment n -> NodePath.normalize n = n.
Proof.
  intros Hn. unfold NodePath.normalize.
  assert (H0 : (n =? "") = false) by (apply String.eqb_neq, plain_nonempty, Hn).
  rewrite H0.
  destruct (plain_last_char _ Hn) as (c' & r' & E' & Hc').
  rewrite E', startsWith_slash_cons, Hc'.
  rewrite (split_on_none NodePath.slash _ (plain_no_slash n Hn)).
  rewrite normalize_segments_plain by exact Hn.
  assert (Hfirst : JS.startsWith "/" n = false).
  { destruct (plain_first_char n Hn) as (c & r & E & Hc).
    rewrite E, startsWith_slash_cons. exact Hc. }
  rewrite Hfirst.
  simpl List.rev. simpl app. simpl JS.join. rewrite H0.
  simpl. rewrite append_nil_r. reflexivity.
Qed.

(** [path.join(folder, n)] for a plain segment [n]. *)
Lemma join_plain (folder : string) :
  exists C, forall n, Spec.plain_segment n -> NodePath.join folder n = C ++ n.
Proof.
  destruct (String.eqb_spec folder "") as [-> | Hf].
  - exists "". intros n Hn. unfold NodePath.join. simpl.
    assert (H0 : (n =? "") = false) by (apply String.eqb_neq, plain_nonempty, Hn).
    rewrite H0. apply normalize_plain. exact Hn.
  - destruct (normalize_plain_tail folder) as [C HC].
    exists C. intros n Hn. unfold NodePath.join.
    apply String.eqb_neq in Hf. rewrite Hf.
    assert (H0 : (n =? "") = false) by (apply String.eqb_neq; apply plain_nonempty; exact Hn).
    rewrite H0.
    assert (Hne : (folder ++ "/" ++ n =? "") = false).
    { apply String.eqb_neq. intros E. apply append_eq_nil in E. discriminate. }
    rewrite Hne. apply HC. exact Hn.
Qed.

(** Two plain names under one folder give one path only when they are
    one name. *)
Lemma join_injective (folder n1 n2 : string) :
  Spec.plain_segment n1 -> Spec.plain_segment n2 ->
  NodePath.join folder n1 = NodePath.join folder n2 -> n1 = n2.
Proof.
  intros H1 H2 E. destruct (join_plain folder) as [C HC].
  rewrite (HC n1 H1), (HC n2 H2) in E. eapply append_cancel_l; eauto.
Qed.

(** ** File names *)

Lemma forall_chars_truncate q n (s : string) :
  JS.forall_chars q s = true -> JS.forall_chars q (SanitizeFilename.truncate n s) = true.
Proof.
  revert n. induction s as [|c s IH]; intros n; simpl; [auto|].
  intros H. apply andb_true_iff in H. destruct H as [H1 H2].
  destruct (Nat.leb (SanitizeFilename.utf8_len c) n); simpl; [|reflexivity].
  rewrite H1, (IH _ H2). reflexivity.
Qed.

Lemma forall_chars_collapse_ws q b (s : string) :
  q "_"%char = true ->
  JS.forall_chars q s = true -> JS.forall_chars q (Common.collapse_ws b s) = true.
Proof.
  intros Hq. revert b. induction s as [|c s IH]; intros b; simpl; [auto|].
  intros H. apply andb_true_iff in H. destruct H as [H1 H2].
  destruct (Common.is_space c); [destruct b|]; simpl;
    rewrite ?Hq, ?H1, (IH _ H2); reflexivity.
Qed.

Lemma sanitize_no_slash (x : string) :
  JS.forall_chars Spec.not_slash (SanitizeFilename.sanitize x) = true.
Proof.
  unfold SanitizeFilename.sanitize.
  apply forall_chars_truncate, forall_chars_strip_trailing.
  set (s2 := JS.filter_chars _ (JS.filter_chars _ x)).
  assert (H2 : JS.forall_chars Spec.not_slash s2 = true).
  { apply forall_chars_filter_keeps, forall_chars_filter.
    intros c Hc. unfold Spec.not_slash. destruct (Ascii.eqb_spec c NodePath.slash) as [-> | _];
      [discriminate Hc | reflexivity]. }
  destruct (SanitizeFilename.reserved s2); simpl.
  - reflexivity.
  - destruct (SanitizeFilename.windows_reserved s2); [reflexivity | exact H2].
Qed.

Lemma safeFileName_no_slash (x : string) :
  JS.forall_chars Spec.not_slash (Common.safeFileName x) = true.
Proof.
  unfold Common.safeFileName.
  apply forall_chars_take, forall_chars_collapse_ws; [reflexivity|].
  apply sanitize_no_slash.
Qed.

(** After [sanitize] a name is never [.] or [..]: the dots and spaces at
    its end are gone. *)
Lemma drop_while_head p (s : string) :
  match JS.drop_while p s with
  | EmptyString => True
  | String c _ => p c = false
  end.
Proof.
  induction s as [|c s IH]; simpl; [exact I|].
  destruct (p c) eqn:E; [exact IH | exact E].
Qed.

Lemma strip_trailing_not_dots (s : string) :
  JS.strip_trailing SanitizeFilename.dot_or_space s <> "." /\
  JS.strip_trailing SanitizeFilename.dot_or_space s <> "..".
Proof.
  unfold JS.strip_trailing.
  pose proof (drop_while_head SanitizeFilename.dot_or_space (JS.rev s)) as H.
  split; intros E;
    apply (f_equal JS.rev) in E; rewrite rev_involutive in E; rewrite E in H;
    discriminate H.
Qed.

Lemma utf8_len_bounds (c : ascii) :
  1 <= SanitizeFilename.utf8_len c <= 2.
Proof. unfold SanitizeFilename.utf8_len. destruct (Nat.ltb (JS.code c) 128); lia. Qed.

Lemma truncate_cons n c (r : string) :
  2 <= n ->
  SanitizeFilename.truncate n (String c r)
  = String c (SanitizeFilename.truncate (n - SanitizeFilename.utf8_len c) r).
Proof.
  intros Hn. cbn [SanitizeFilename.truncate].
  pose proof (utf8_len_bounds c) as Hc.
  destruct (Nat.leb (SanitizeFilename.utf8_len c) n) eqn:E; [reflexivity|].
  apply Nat.leb_gt in E. lia.
Qed.

Lemma truncate_nil n (z : string) :
  2 <= n -> SanitizeFilename.truncate n z = "" -> z = "".
Proof.
  intros Hn H. destruct z as [|c r]; [reflexivity|].
  rewrite truncate_cons in H by exact Hn. discriminate.
Qed.

Lemma truncate_dots n (z : string) :
  6 <= n ->
  (SanitizeFilename.truncate n z = "." -> z = ".") /\
  (SanitizeFilename.truncate n z = ".." -> z = "..").
Proof.
  intros Hn. split; intros H.
  - destruct z as [|a r]; [discriminate|].
    rewrite truncate_cons in H by lia. injection H as Ha Hr.
    pose proof (utf8_len_bounds a) as Hb.
    assert (Hr' : r = "") by (eapply truncate_nil; [|exact Hr]; lia).
    rewrite Ha, Hr'. reflexivity.
  - destruct z as [|a [|b r]]; [discriminate | |].
    + rewrite truncate_cons in H by lia. discriminate.
    + pose proof (utf8_len_bounds a) as Ha. pose proof (utf8_len_bounds b) as Hb.
      rewrite truncate_cons in H by lia.
      rewrite truncate_cons in H by lia.
      injection H as Ea Eb Hr.
      assert (Hr' : r = "") by (eapply truncate_nil; [|exact Hr]; lia).
      rewrite Ea, Eb, Hr'. reflexivity.
Qed.

Lemma sanitize_not_dots (x : string) :
  SanitizeFilename.sanitize x <> "." /\ SanitizeFilename.sanitize x <> "..".
Proof.
  unfold SanitizeFilename.sanitize. cbv zeta.
  match goal with
  | |- SanitizeFilename.truncate 255 (JS.strip_trailing _ ?s) <> _ /\ _ =>
      destruct (strip_trailing_not_dots s) as [H1 H2];
      destruct (truncate_dots 255 (JS.strip_trailing SanitizeFilename.dot_or_space s))
        as [T1 T2]; [lia|]
  end.
  split; intros E; [apply H1, T1, E | apply H2, T2, E].
Qed.

Lemma collapse_ws_nil (y : string) : Common.collapse_ws false y = "" -> y = "".
Proof.
  destruct y as [|a r]; [reflexivity|]. cbn [Common.collapse_ws].
  destruct (Common.is_space a); discriminate.
Qed.

Lemma collapse_ws_dot (y : string) : Common.collapse_ws false y = "." -> y = ".".
Proof.
  destruct y as [|a r]; [discriminate|]. cbn [Common.collapse_ws].
  destruct (Common.is_space a); [discriminate|].
  intros H. injection H as Ha Hr. rewrite Ha, (collapse_ws_nil r Hr). reflexivity.
Qed.

Lemma collapse_ws_dotdot (y : string) : Common.collapse_ws false y = ".." -> y = "..".
Proof.
  destruct y as [|a r]; [discriminate|]. cbn [Common.collapse_ws].
  destruct (Common.is_space a); [discriminate|].
  intros H. injection H as Ha Hr. rewrite Ha, (collapse_ws_dot r Hr). reflexivity.
Qed.

Lemma take_nil n (x : string) : JS.take (S n) x = "" -> x = "".
Proof. destruct x; [reflexivity | discriminate]. Qed.

Lemma take_dot n (x : string) : JS.take (S (S n)) x = "." -> x = ".".
Proof.
  destruct x as [|a r]; [discriminate|]. cbn [JS.take].
  intros H. injection H as Ha Hr. rewrite Ha, (take_nil n r Hr). reflexivity.
Qed.

Lemma take_dotdot n (x : string) : JS.take (S (S (S n))) x = ".." -> x = "..".
Proof.
  destruct x as [|a r]; [discriminate|]. cbn [JS.take].
  intros H. injection H as Ha Hr. rewrite Ha, (take_dot n r Hr). reflexivity.
Qed.

Lemma safeFileName_not_dots (x : string) :
  Common.safeFileName x <> "." /\ Common.safeFileName x <> "..".
Proof.
  unfold Common.safeFileName.
  destruct (sanitize_not_dots x) as [S1 S2].
  split; intros E.
  - apply S1, collapse_ws_dot, (take_dot 148), E.
  - apply S2, collapse_ws_dotdot, (take_dotdot 147), E.
Qed.

(** A name kept from the URL is a plain segment. *)
Lemma urlName_plain (u : string) :
  Spec.usesFallback u = false -> Spec.plain_segment (Spec.urlName u).
Proof.
  unfold Spec.usesFallback, Spec.urlName. intros H. apply negb_false_iff in H.
  destruct (safeFileName_not_dots (NodePath.basename (Common.strip_query u))) as [D1 D2].
  repeat split; auto.
  - intros E. rewrite E in H. discriminate.
  - apply safeFileName_no_slash.
Qed.

(** The extension is one of the four, in lower case. *)
Lemma lower_char_agree (c d : ascii) :
  JS.ascii_lower_char c = d -> Nat.ltb (JS.code d) 128 = true -> JS.lower_char c = d.
Proof.
  unfold JS.ascii_lower_char, JS.lower_char. destruct (JS.is_upper_alpha c); [auto|].
  intros -> Hd. unfold JS.in_range.
  apply Nat.ltb_lt in Hd.
  destruct (Nat.leb 192 (JS.code d)) eqn:E; [apply Nat.leb_le in E; lia | reflexivity].
Qed.

Lemma toLowerCase_agree (m : string) :
  JS.forall_chars (fun c => Nat.ltb (JS.code c) 128) (JS.ascii_lower m) = true ->
  JS.toLowerCase m = JS.ascii_lower m.
Proof.
  unfold JS.toLowerCase, JS.ascii_lower.
  induction m as [|c m IH]; cbn [JS.map_chars JS.forall_chars]; intros H; [reflexivity|].
  apply andb_true_iff in H. destruct H as [H1 H2].
  rewrite (lower_char_agree c _ eq_refl H1), (IH H2). reflexivity.
Qed.

Lemma first_suffix_ci_lower (es : list string) (s m : string) :
  Common.first_suffix_ci es s = Some m -> In (JS.ascii_lower m) es.
Proof.
  induction es as [|e es IH]; simpl; [discriminate|].
  unfold Common.suffix_ci at 1.
  destruct (Nat.leb (String.length e) (String.length s)
            && (JS.ascii_lower (JS.last_chars (String.length e) s) =? e)) eqn:E.
  - intros H. injection H as H. subst m.
    apply andb_true_iff in E. destruct E as [_ E]. apply String.eqb_eq in E. auto.
  - intros H. right. apply IH. exact H.
Qed.

Lemma match_image_ext_lower (s m : string) :
  Common.match_image_ext s = Some m -> In (JS.ascii_lower m) Common.image_exts.
Proof. apply first_suffix_ci_lower. Qed.

Lemma extFromUrl_known (u : string) : In (Common.extFromUrl u) Common.image_exts.
Proof.
  unfold Common.extFromUrl.
  destruct (Common.match_image_ext (Common.strip_query u)) as [m|] eqn:E.
  - pose proof (match_image_ext_lower _ _ E) as Hin.
    assert (Hm : JS.toLowerCase m = JS.ascii_lower m).
    { apply toLowerCase_agree.
      simpl in Hin. destruct Hin as [<- | [<- | [<- | [<- | []]]]]; reflexivity. }
    rewrite Hm. exact Hin.
  - simpl. auto.
Qed.

(** Digits. *)
Lemma string_of_uint_digits (d : Decimal.uint) :
  JS.forall_chars JS.is_digit (NilEmpty.string_of_uint d) = true.
Proof. induction d; simpl; auto. Qed.

Lemma repeat_char_all q c n : q c = true -> JS.forall_chars q (JS.repeat_char c n) = true.
Proof. intros H. induction n; simpl; [reflexivity | rewrite H; assumption]. Qed.

Lemma padded_digits (n : nat) :
  JS.forall_chars JS.is_digit (JS.padStart 3 "0" (JS.String_of_nat n)) = true.
Proof.
  unfold JS.padStart, JS.String_of_nat. rewrite forall_chars_app.
  rewrite repeat_char_all by reflexivity. apply string_of_uint_digits.
Qed.

(** The number a string of digits denotes. *)
Lemma value_of_zeros (k : nat) (s : string) :
  option_map Nat.of_uint (NilEmpty.uint_of_string (JS.repeat_char "0" k ++ s))
  = option_map Nat.of_uint (NilEmpty.uint_of_string s).
Proof.
  induction k as [|k IH]; simpl; [reflexivity|].
  rewrite <- IH. destruct (NilEmpty.uint_of_string (JS.repeat_char "0" k ++ s)); reflexivity.
Qed.

Lemma value_of_padded (n : nat) :
  option_map Nat.of_uint (NilEmpty.uint_of_string (JS.padStart 3 "0" (JS.String_of_nat n)))
  = Some n.
Proof.
  unfold JS.padStart. rewrite value_of_zeros. unfold JS.String_of_nat.
  rewrite NilEmpty.usu. simpl. rewrite DecimalNat.Unsigned.of_to. reflexivity.
Qed.

Lemma padded_injective (i j : nat) :
  JS.padStart 3 "0" (JS.String_of_nat i) = JS.padStart 3 "0" (JS.String_of_nat j) -> i = j.
Proof.
  intros H. pose proof (value_of_padded i) as Hi. rewrite H, value_of_padded in Hi.
  congruence.
Qed.

(** Where a run of [q]-characters ends is determined by the text. *)
Lemma run_prefix_unique q (a b r r' : string) (x y : ascii) :
  JS.forall_chars q a = true -> JS.forall_chars q b = true ->
  q x = false -> q y = false ->
  a ++ String x r = b ++ String y r' -> a = b.
Proof.
  revert b. induction a as [|c a IH]; intros b Ha Hb Hx Hy E.
  - destruct b as [|d b]; [reflexivity|]. simpl in E, Hb.
    injection E as E1 E2. subst d. apply andb_true_iff in Hb. destruct Hb; congruence.
  - destruct b as [|d b]; simpl in E, Ha.
    + injection E as E1 E2. subst c. apply andb_true_iff in Ha. destruct Ha; congruence.
    + injection E as E1 E2. subst d. simpl in Hb.
      apply andb_true_iff in Ha. apply andb_true_iff in Hb.
      f_equal. apply IH; tauto.
Qed.

Lemma ext_starts_with_dot (e : string) :
  In e Common.image_exts -> exists r, e = String "." r.
Proof.
  simpl. intros [<- | [<- | [<- | [<- | []]]]]; eexists; reflexivity.
Qed.

(** Two synthetic names of one category are equal only for one index. *)
Lemma syntheticName_injective categoryName i j e1 e2 :
  In e1 Common.image_exts -> In e2 Common.image_exts ->
  Common.syntheticName categoryName i e1 = Common.syntheticName categoryName j e2 ->
  i = j.
Proof.
  intros H1 H2 E. unfold Common.syntheticName in E.
  apply append_cancel_l in E. apply append_cancel_l in E.
  destruct (ext_starts_with_dot _ H1) as [r1 ->].
  destruct (ext_starts_with_dot _ H2) as [r2 ->].
  apply padded_injective.
  apply (run_prefix_unique JS.is_digit _ _ r1 r2 "."%char "."%char);
    [apply padded_digits | apply padded_digits | reflexivity | reflexivity | exact E].
Qed.

Lemma includes_char_app c (a b : string) :
  JS.includes_char c (a ++ b) = JS.includes_char c a || JS.includes_char c b.
Proof. apply exists_char_app. Qed.

Lemma syntheticName_plain categoryName i e :
  In e Common.image_exts -> Spec.plain_segment (Common.syntheticName categoryName i e).
Proof.
  intros He. unfold Common.syntheticName.
  assert (Hu : JS.includes_char "_"
                 (Common.safeFileName categoryName ++ "_"
                  ++ JS.padStart 3 "0" (JS.String_of_nat i) ++ e) = true).
  { rewrite includes_char_app. apply orb_true_iff. right. reflexivity. }
  repeat split.
  - intros E. rewrite E in Hu. discriminate.
  - intros E. rewrite E in Hu. discriminate.
  - intros E. rewrite E in Hu. discriminate.
  - assert (Hpad : JS.forall_chars Spec.not_slash
                     (JS.padStart 3 "0" (JS.String_of_nat i)) = true).
    { apply (forall_chars_weaken JS.is_digit); [|apply padded_digits].
      intros c Hc. unfold Spec.not_slash.
      destruct (Ascii.eqb_spec c NodePath.slash) as [-> | _];
        [discriminate Hc | reflexivity]. }
    rewrite !forall_chars_app. rewrite safeFileName_no_slash, Hpad.
    simpl in He. destruct He as [<- | [<- | [<- | [<- | []]]]]; reflexivity.
Qed.

(** ** Destinations *)

Lemma fileNameFor_cases categoryName u idx :
  Botech.fileNameFor categoryName u idx
  = if Spec.usesFallback u
    then (Common.syntheticName categoryName idx (Common.extFromUrl u), S idx)
    else (Spec.urlName u, idx).
Proof.
  unfold Botech.fileNameFor, Spec.usesFallback, Spec.urlName.
  destruct (JS.includes_char "." _); reflexivity.
Qed.

Lemma fileNameFor_counter categoryName u idx :
  idx <= snd (Botech.fileNameFor categoryName u idx).
Proof. rewrite fileNameFor_cases. destruct (Spec.usesFallback u); simpl; lia. Qed.

(** The destination of the image at position [i] is computed with a
    counter value that is at least the initial one. *)
Lemma destination_at folder categoryName imgs :
  forall idx i u d,
    nth_error imgs i = Some u ->
    nth_error (Botech.destinations folder categoryName imgs idx) i = Some d ->
    exists k, idx <= k
              /\ d = NodePath.join folder (fst (Botech.fileNameFor categoryName u k)).
Proof.
  induction imgs as [|u0 imgs IH]; intros idx [|i] u d Hu Hd;
    cbn [Botech.destinations nth_error] in *; try discriminate.
  - destruct (Botech.fileNameFor categoryName u0 idx) as [n idx'] eqn:E.
    cbn [nth_error] in Hd. injection Hu as ->. injection Hd as <-.
    exists idx. rewrite E. split; [lia | reflexivity].
  - pose proof (fileNameFor_counter categoryName u0 idx) as Hle.
    destruct (Botech.fileNameFor categoryName u0 idx) as [n idx'].
    cbn [nth_error snd] in Hd, Hle. destruct (IH idx' i u d Hu Hd) as (k & Hk & ->).
    exists k. split; [lia | reflexivity].
Qed.

(** After an image that took the counter, every later image sees a
    larger counter. *)
Lemma counter_increases folder categoryName imgs :
  forall idx i j ui uj di dj,
    i < j ->
    nth_error imgs i = Some ui -> nth_error imgs j = Some uj ->
    nth_error (Botech.destinations folder categoryName imgs idx) i = Some di ->
    nth_error (Botech.destinations folder categoryName imgs idx) j = Some dj ->
    Spec.usesFallback ui = true ->
    exists ki kj,
      ki < kj
      /\ di = NodePath.join folder
                (Common.syntheticName categoryName ki (Common.extFromUrl ui))
      /\ dj = NodePath.join folder (fst (Botech.fileNameFor categoryName uj kj)).
Proof.
  induction imgs as [|u0 imgs IH]; intros idx i j ui uj di dj Hij Hui Huj Hdi Hdj Hfb.
  - destruct i; discriminate.
  - destruct j as [|j]; [lia|].
    destruct i as [|i]; cbn [Botech.destinations nth_error] in *.
    + injection Hui as ->. rewrite fileNameFor_cases, Hfb in Hdi, Hdj.
      cbn [nth_error] in Hdi, Hdj. injection Hdi as <-.
      destruct (destination_at folder categoryName imgs (S idx) j uj dj Huj Hdj)
        as (k & Hk & ->).
      exists idx, k. repeat split; auto.
    + destruct (Botech.fileNameFor categoryName u0 idx) as [n idx'].
      cbn [nth_error] in Hdi, Hdj. apply (IH idx' i j ui uj di dj); auto. lia.
Qed.

(** C2, as the code has it.  Within one category the destination of an
    image is its folder joined with its file name, so two images share a
    destination exactly when they share the file name.  Two images that
    both take the synthetic sequence name never do: the counter grows
    between them.  Two images that both keep the sanitized basename of
    their URL do as soon as these basenames are equal.  Both copies
    compute the same destinations. *)
Theorem destinations_differ_by_file_name :
  forall (folder categoryName : string) (imgs : list string)
         (i j : nat) (ui uj di dj : string),
    i < j ->
    nth_error imgs i = Some ui ->
    nth_error imgs j = Some uj ->
    nth_error (Botech.destinations folder categoryName imgs 1) i = Some di ->
    nth_error (Botech.destinations folder categoryName imgs 1) j = Some dj ->
    Part001.destinations folder categoryName imgs 1
      = Botech.destinations folder categoryName imgs 1 /\
    (Spec.usesFallback ui = true -> Spec.usesFallback uj = true -> di <> dj) /\
    (Spec.usesFallback ui = false -> Spec.usesFallback uj = false ->
     (di = dj <-> Spec.urlName ui = Spec.urlName uj)).
Proof.
  intros folder categoryName imgs i j ui uj di dj Hij Hui Huj Hdi Hdj.
  split; [apply destinations_same|]. split.
  - intros Hfi Hfj.
    destruct (counter_increases folder categoryName imgs 1 i j ui uj di dj)
      as (ki & kj & Hk & -> & ->); auto.
    rewrite fileNameFor_cases, Hfj. simpl. intros E.
    apply join_injective in E; try (apply syntheticName_plain, extFromUrl_known).
    apply syntheticName_injective in E; try apply extFromUrl_known. lia.
  - intros Hfi Hfj.
    destruct (destination_at folder categoryName imgs 1 i ui di Hui Hdi) as (ki & _ & ->).
    destruct (destination_at folder categoryName imgs 1 j uj dj Huj Hdj) as (kj & _ & ->).
    rewrite !fileNameFor_cases, Hfi, Hfj. simpl. split.
    + intros E. apply join_injective in E; auto using urlName_plain.
    + intros ->. reflexivity.
Qed.

(** C2 as stated fails.  On the site above the final image set of the
    category holds two different URLs with the basename [lit.jpg], and
    both are sent to one file.  The synthetic name does not help either:
    the name made up for a URL whose own name is unusable is the name
    that another URL may bring along. *)
Lemma different_urls_one_destination :
  snd (Botech.collectImages Site.platform "Berceaux" "prod/berceaux-maroc" Site.fresh)
    = Ok (Site.images, Site.links) /\
  NoDup Site.images /\
  nth_error Site.images 2 = Some "https://www.botech.ma/images/produits/a/lit.jpg" /\
  nth_error Site.images 3 = Some "https://www.botech.ma/images/produits/b/lit.jpg" /\
  nth_error (Botech.destinations (Botech.folderOf Site.platform "Berceaux") "Berceaux"
               Site.images 1) 2 = Some "/srv/botech_images/Berceaux/lit.jpg" /\
  nth_error (Botech.destinations (Botech.folderOf Site.platform "Berceaux") "Berceaux"
               Site.images 1) 3 = Some "/srv/botech_images/Berceaux/lit.jpg" /\
  Botech.destinations "/srv/botech_images/Berceaux" "Berceaux"
    ["https://www.botech.ma/images/produits/con.jpg";
     "https://www.botech.ma/images/produits/Berceaux_001.jpg"] 1
  = ["/srv/botech_images/Berceaux/Berceaux_001.jpg";
     "/srv/botech_images/Berceaux/Berceaux_001.jpg"].
Proof.
  split; [vm_compute; reflexivity|].
  split.
  { unfold Site.images. repeat constructor; simpl; intuition discriminate. }
  repeat split; vm_compute; reflexivity.
Qed.

(** ** The URL parser on plain references *)

Lemma plain_char_facts (c : ascii) :
  Spec.plain_char c = true ->
  WhatwgURL.c0_or_space c = false
  /\ WhatwgURL.tab_or_newline c = false
  /\ Ascii.eqb c ":" = false
  /\ WhatwgURL.is_separator true c = Ascii.eqb c "/"
  /\ WhatwgURL.slash_or_backslash c = Ascii.eqb c "/"
  /\ Ascii.eqb c "?" = false
  /\ Ascii.eqb c "#" = false
  /\ WhatwgURL.percent_encode WhatwgURL.path_set c = String c "".
Proof.
  intros H.
  destruct c as [[|] [|] [|] [|] [|] [|] [|] [|]];
    vm_compute in H; try discriminate H; vm_compute; repeat split; reflexivity.
Qed.

Lemma filter_chars_all keep (s : string) :
  JS.forall_chars keep s = true -> JS.filter_chars keep s = s.
Proof.
  induction s as [|c s IH]; simpl; [reflexivity|].
  intros H. apply andb_true_iff in H. destruct H as [H1 H2].
  rewrite H1, (IH H2). reflexivity.
Qed.

Lemma drop_while_none p (s : string) :
  JS.forall_chars (fun c => negb (p c)) s = true -> JS.drop_while p s = s.
Proof.
  destruct s as [|c s]; simpl; [reflexivity|].
  intros H. apply andb_true_iff in H. destruct H as [H1 _].
  apply negb_true_iff in H1. rewrite H1. reflexivity.
Qed.

Lemma plain_chars_weaken q (p : string) :
  (forall c, Spec.plain_char c = true -> q c = true) ->
  JS.forall_chars Spec.plain_char p = true -> JS.forall_chars q p = true.
Proof. apply forall_chars_weaken. Qed.

Lemma preprocess_plain (p : string) :
  JS.forall_chars Spec.plain_char p = true -> WhatwgURL.preprocess p = p.
Proof.
  intros H. unfold WhatwgURL.preprocess, JS.strip_trailing.
  assert (Hsp : JS.forall_chars (fun c => negb (WhatwgURL.c0_or_space c)) p = true).
  { apply (plain_chars_weaken _ p); [|exact H].
    intros c Hc. destruct (plain_char_facts c Hc) as (-> & _). reflexivity. }
  rewrite (drop_while_none _ p Hsp).
  rewrite drop_while_none by (rewrite forall_chars_rev; exact Hsp).
  rewrite rev_involutive. apply filter_chars_all.
  apply (plain_chars_weaken _ p); [|exact H].
  intros c Hc. destruct (plain_char_facts c Hc) as (_ & -> & _). reflexivity.
Qed.

Lemma scheme_state_none (s buffer : string) :
  JS.forall_chars (fun c => negb (Ascii.eqb c ":")) s = true ->
  WhatwgURL.scheme_state s buffer = None.
Proof.
  revert buffer. induction s as [|c s IH]; intros buffer; simpl; [reflexivity|].
  intros H. apply andb_true_iff in H. destruct H as [H1 H2].
  apply negb_true_iff in H1. rewrite H1.
  match goal with |- (if ?b then _ else _) = _ => destruct b end;
    [apply IH; exact H2 | reflexivity].
Qed.

Lemma scheme_start_none (s : string) :
  JS.forall_chars (fun c => negb (Ascii.eqb c ":")) s = true ->
  WhatwgURL.scheme_start_state s = None.
Proof.
  destruct s as [|c s]; simpl; [reflexivity|].
  intros H. apply andb_true_iff in H. destruct H as [_ H].
  destruct (JS.is_alpha c); [apply scheme_state_none; exact H | reflexivity].
Qed.

Lemma no_colon_plain (p : string) :
  JS.forall_chars Spec.plain_char p = true ->
  JS.forall_chars (fun c => negb (Ascii.eqb c ":")) p = true.
Proof.
  apply plain_chars_weaken. intros c Hc.
  destruct (plain_char_facts c Hc) as (_ & _ & -> & _). reflexivity.
Qed.

(** The segments of [buffer ++ s], [buffer] being the start of the first. *)
Lemma split_on_buffer (buffer s : string) :
  JS.forall_chars Spec.not_slash buffer = true ->
  JS.split_on "/" (buffer ++ s)
  = match JS.split_on "/" s with
    | h :: t => (buffer ++ h) :: t
    | [] => [buffer]
    end.
Proof.
  induction buffer as [|c b IH]; intros H.
  - simpl. destruct (JS.split_on "/" s) eqn:E; [|reflexivity].
    exfalso. exact (split_on_nonempty _ _ E).
  - simpl in H. apply andb_true_iff in H. destruct H as [H1 H2].
    unfold Spec.not_slash, NodePath.slash in H1. apply negb_true_iff in H1.
    cbn [append JS.split_on]. rewrite H1, (IH H2).
    destruct (JS.split_on "/" s); reflexivity.
Qed.

(** The path state on plain text: the segments between the slashes are
    appended to the path as they are. *)
Lemma path_state_plain (s : string) :
  forall buffer path,
    JS.forall_chars Spec.plain_char s = true ->
    JS.forall_chars Spec.not_slash buffer = true ->
    forallb (fun seg => negb (WhatwgURL.is_single_dot seg || WhatwgURL.is_double_dot seg))
      (JS.split_on "/" (buffer ++ s)) = true ->
    WhatwgURL.path_state true s buffer path
    = ((path ++ JS.split_on "/" (buffer ++ s))%list, None, None).
Proof.
  induction s as [|c s IH]; intros buffer path Hs Hb Hsegs.
  - rewrite append_nil_r in *. rewrite (split_on_none "/" buffer Hb) in *.
    simpl in Hsegs. rewrite andb_true_r in Hsegs. apply negb_true_iff in Hsegs.
    apply orb_false_iff in Hsegs. destruct Hsegs as [H1 H2].
    cbn [WhatwgURL.path_state]. unfold WhatwgURL.flush_segment. rewrite H1, H2. reflexivity.
  - cbn [JS.forall_chars] in Hs. apply andb_true_iff in Hs. destruct Hs as [Hc Hs].
    destruct (plain_char_facts c Hc) as (_ & _ & _ & Hsep & _ & Hq & Hh & Henc).
    cbn [WhatwgURL.path_state]. rewrite Hsep.
    destruct (Ascii.eqb_spec c "/") as [-> | Hne].
    + change (buffer ++ String "/" s) with (buffer ++ String NodePath.slash s) in *.
      rewrite split_on_app in *. rewrite (split_on_none _ buffer Hb) in *.
      cbn [app forallb] in Hsegs. apply andb_true_iff in Hsegs. destruct Hsegs as [Hbuf Hrest].
      apply negb_true_iff in Hbuf. apply orb_false_iff in Hbuf. destruct Hbuf as [H1 H2].
      unfold WhatwgURL.flush_segment. rewrite H1, H2.
      rewrite (IH "" (path ++ [buffer])%list Hs eq_refl Hrest).
      cbn [append]. rewrite <- app_assoc. reflexivity.
    + rewrite Hq, Hh, Henc.
      assert (Hb' : JS.forall_chars Spec.not_slash (buffer ++ String c "") = true).
      { rewrite forall_chars_app, Hb. cbn [JS.forall_chars]. unfold Spec.not_slash, NodePath.slash.
        apply Ascii.eqb_neq in Hne. rewrite Hne. reflexivity. }
      assert (E : (buffer ++ String c "") ++ s = buffer ++ String c s).
      { rewrite append_assoc. reflexivity. }
      rewrite (IH (buffer ++ String c "") path Hs Hb'); rewrite E; [reflexivity | exact Hsegs].
Qed.

Lemma serialize_segments (segs : list string) :
  segs <> [] ->
  String.concat "" (map (fun seg => "/" ++ seg) segs) = "/" ++ JS.join "/" segs.
Proof.
  induction segs as [|x segs IH]; intros Hne; [contradiction|].
  destruct segs as [|y segs].
  - simpl. reflexivity.
  - change (String.concat "" (map (fun seg => "/" ++ seg) (x :: y :: segs)))
      with (("/" ++ x) ++ "" ++ String.concat "" (map (fun seg => "/" ++ seg) (y :: segs))).
    rewrite IH by discriminate.
    change (JS.join "/" (x :: y :: segs)) with (x ++ "/" ++ JS.join "/" (y :: segs)).
    cbn [append]. reflexivity.
Qed.

Lemma join_cons sep (x : string) (l : list string) :
  l <> [] -> JS.join sep (x :: l) = x ++ sep ++ JS.join sep l.
Proof. destruct l; [contradiction | reflexivity]. Qed.

Lemma join_split (s : string) : JS.join "/" (JS.split_on "/" s) = s.
Proof.
  induction s as [|c s IH]; [reflexivity|].
  cbn [JS.split_on]. pose proof (split_on_nonempty "/" s) as Hn.
  destruct (Ascii.eqb_spec c "/") as [-> | Hne].
  - rewrite join_cons by exact Hn. rewrite IH. reflexivity.
  - destruct (JS.split_on "/" s) as [|h t] eqn:E; [contradiction|].
    destruct t as [|h' t].
    + cbn [JS.join] in *. rewrite IH. reflexivity.
    + rewrite join_cons by discriminate.
      rewrite join_cons in IH by discriminate. rewrite <- IH. reflexivity.
Qed.

Lemma plain_reference_parts (p : string) :
  Spec.plain_reference p = true ->
  exists c r,
    p = String c r
    /\ Ascii.eqb c "/" = false
    /\ JS.forall_chars Spec.plain_char p = true
    /\ forallb (fun seg => negb (WhatwgURL.is_single_dot seg || WhatwgURL.is_double_dot seg))
         (JS.split_on "/" p) = true.
Proof.
  unfold Spec.plain_reference. intros H.
  apply andb_true_iff in H. destruct H as [H Hsegs].
  apply andb_true_iff in H. destruct H as [H Hslash].
  apply andb_true_iff in H. destruct H as [Hne Hplain].
  destruct p as [|c r]; [discriminate|].
  exists c, r. rewrite startsWith_slash_cons in Hslash. apply negb_true_iff in Hslash.
  auto.
Qed.

(** The base URL of the program, parsed. *)
Lemma base_parsed :
  WhatwgURL.basic_parse "https://www.botech.ma/" None
  = WhatwgURL.Parsed
      (WhatwgURL.mkURL "https" "" "" (Some "www.botech.ma") None [""] None None None).
Proof. vm_compute. reflexivity. Qed.

(** The modelled URL parser resolves a plain reference, with or without
    a slash in front, to the base followed by the reference. *)
Lemma href_of_plain_reference (p : string) :
  Spec.plain_reference p = true ->
  WhatwgURL.href p "https://www.botech.ma/"
    = WhatwgURL.Parsed ("https://www.botech.ma/" ++ p) /\
  WhatwgURL.href (String "/" p) "https://www.botech.ma/"
    = WhatwgURL.Parsed ("https://www.botech.ma/" ++ p).
Proof.
  intros Hp. destruct (plain_reference_parts p Hp) as (c & r & E & Hc & Hplain & Hsegs).
  assert (Hpath : WhatwgURL.path_state true p "" []
                  = (JS.split_on "/" p, None, None)).
  { rewrite (path_state_plain p "" []); [reflexivity | exact Hplain | reflexivity | exact Hsegs]. }
  assert (Hser : forall segs, segs = JS.split_on "/" p ->
             WhatwgURL.serialize
               (WhatwgURL.mkURL "https" "" "" (Some "www.botech.ma") None segs None None None)
             = "https://www.botech.ma/" ++ p).
  { intros segs ->. unfold WhatwgURL.serialize, WhatwgURL.serialize_path.
    cbn [WhatwgURL.scheme WhatwgURL.host WhatwgURL.username WhatwgURL.password
         WhatwgURL.port WhatwgURL.opaque_path WhatwgURL.path WhatwgURL.query
         WhatwgURL.fragment].
    rewrite serialize_segments by apply split_on_nonempty.
    rewrite join_split. cbn [String.eqb andb append].
    rewrite append_nil_r. reflexivity. }
  assert (Hc' : Spec.plain_char c = true).
  { rewrite E in Hplain. cbn [JS.forall_chars] in Hplain.
    apply andb_true_iff in Hplain. apply Hplain. }
  destruct (plain_char_facts c Hc') as (_ & _ & _ & Hsep & Hsb & Hq & Hh & _).
  split.
  - unfold WhatwgURL.href. rewrite base_parsed. cbn [WhatwgURL.bind].
    unfold WhatwgURL.basic_parse. rewrite (preprocess_plain p Hplain).
    rewrite (scheme_start_none p (no_colon_plain p Hplain)).
    unfold WhatwgURL.no_scheme_state.
    cbn [WhatwgURL.opaque_path WhatwgURL.scheme].
    change ("https" =? "file") with false. cbv iota.
    unfold WhatwgURL.relative_state. cbn [WhatwgURL.scheme WhatwgURL.path].
    change (WhatwgURL.is_special "https") with true.
    rewrite E at 1. rewrite Hsep, Hc, Hq, Hh. cbv iota.
    change (removelast [""]) with (@nil string). rewrite Hpath.
    cbn [WhatwgURL.bind WhatwgURL.username WhatwgURL.password WhatwgURL.host WhatwgURL.port].
    rewrite (Hser _ eq_refl). reflexivity.
  - unfold WhatwgURL.href. rewrite base_parsed. cbn [WhatwgURL.bind].
    assert (Hplain' : JS.forall_chars Spec.plain_char (String "/" p) = true).
    { cbn [JS.forall_chars]. rewrite Hplain. reflexivity. }
    unfold WhatwgURL.basic_parse. rewrite (preprocess_plain _ Hplain').
    rewrite (scheme_start_none _ (no_colon_plain _ Hplain')).
    unfold WhatwgURL.no_scheme_state.
    cbn [WhatwgURL.opaque_path WhatwgURL.scheme].
    change ("https" =? "file") with false. cbv iota.
    unfold WhatwgURL.relative_state. cbn [WhatwgURL.scheme WhatwgURL.path].
    change (WhatwgURL.is_special "https") with true.
    change (WhatwgURL.is_separator true "/") with true. cbv iota.
    unfold WhatwgURL.relative_slash_state. cbn [WhatwgURL.scheme].
    change (WhatwgURL.is_special "https") with true.
    rewrite E at 1. rewrite Hsb, Hc. cbn [andb]. cbv iota.
    rewrite Hpath.
    cbn [WhatwgURL.bind WhatwgURL.username WhatwgURL.password WhatwgURL.host WhatwgURL.port].
    rewrite (Hser _ eq_refl). reflexivity.
Qed.

(** ** Where the two normalizers agree *)

Lemma prefix_decompose (a s : string) :
  String.prefix a s = true -> exists rest, s = a ++ rest.
Proof.
  revert s. induction a as [|x a IH]; intros s H.
  - exists s. reflexivity.
  - destruct s as [|y s]; [discriminate|].
    cbn [String.prefix] in H. destruct (ascii_dec x y) as [<- | _]; [|discriminate].
    destruct (IH s H) as [rest ->]. exists rest. reflexivity.
Qed.

Lemma lower_keeps_no_colon (c : ascii) :
  Ascii.eqb (JS.ascii_lower_char c) ":" = Ascii.eqb c ":".
Proof.
  destruct c as [[|] [|] [|] [|] [|] [|] [|] [|]]; vm_compute; reflexivity.
Qed.

Lemma no_colon_no_scheme (u : string) :
  JS.forall_chars (fun c => negb (Ascii.eqb c ":")) u = true ->
  JS.startsWith_ci "http://" u || JS.startsWith_ci "https://" u = false
  /\ JS.startsWith "http://" u || JS.startsWith "https://" u = false.
Proof.
  intros H.
  assert (Hl : JS.forall_chars (fun c => negb (Ascii.eqb c ":")) (JS.ascii_lower u) = true).
  { unfold JS.ascii_lower. clear -H. induction u as [|c u IH]; [reflexivity|].
    cbn [JS.map_chars JS.forall_chars] in *. apply andb_true_iff in H. destruct H as [H1 H2].
    rewrite lower_keeps_no_colon, H1, (IH H2). reflexivity. }
  assert (Hno : forall pre s,
             JS.forall_chars (fun c => negb (Ascii.eqb c ":")) s = true ->
             JS.forall_chars (fun c => negb (Ascii.eqb c ":")) pre = false ->
             String.prefix pre s = false).
  { intros pre s Hs Hpre. destruct (String.prefix pre s) eqn:E; [|reflexivity].
    destruct (prefix_decompose _ _ E) as [rest ->].
    rewrite forall_chars_app, Hpre in Hs. discriminate. }
  unfold JS.startsWith_ci, JS.startsWith.
  rewrite !(Hno _ _ Hl), !(Hno _ _ H) by reflexivity. split; reflexivity.
Qed.

Lemma plain_reference_not_dot_slash (p : string) :
  Spec.plain_reference p = true -> JS.startsWith "./" p = false.
Proof.
  intros Hp. destruct (plain_reference_parts p Hp) as (c & r & E & Hc & Hplain & Hsegs).
  destruct (JS.startsWith "./" p) eqn:S; [|reflexivity].
  destruct (prefix_decompose _ _ S) as [rest ->].
  change ("./" ++ rest) with (String "." (String "/" rest)) in Hsegs.
  cbn [JS.split_on] in Hsegs.
  change (Ascii.eqb "." "/") with false in Hsegs.
  change (Ascii.eqb "/" "/") with true in Hsegs. cbv iota in Hsegs.
  cbn [forallb] in Hsegs. discriminate Hsegs.
Qed.

Lemma scheme_prefix_ci (u : string) :
  JS.startsWith "http://" u || JS.startsWith "https://" u = true ->
  JS.startsWith_ci "http://" u || JS.startsWith_ci "https://" u = true.
Proof.
  intros Hs. apply orb_true_iff in Hs. apply orb_true_iff.
  destruct Hs as [H | H]; [left | right]; (apply prefix_lower_ci; [reflexivity | exact H]).
Qed.

(** A string that starts with [http://] or [https://] in some letter
    case starts with neither a slash nor a dot. *)
Lemma scheme_ci_first_char (u : string) :
  JS.startsWith_ci "http://" u || JS.startsWith_ci "https://" u = true ->
  (u =? "") = false /\ JS.startsWith "/" u = false /\ Common.strip_dot_slash u = u.
Proof.
  intros H. destruct u as [|c r].
  { vm_compute in H. discriminate H. }
  assert (Hc : JS.ascii_lower_char c = "h"%char).
  { unfold JS.startsWith_ci, JS.ascii_lower in H. cbn [JS.map_chars String.prefix] in H.
    destruct (ascii_dec "h" (JS.ascii_lower_char c)) as [E|N];
      [symmetry; exact E | discriminate H]. }
  assert (Hslash : JS.startsWith "/" (String c r) = false).
  { rewrite startsWith_slash_cons.
    destruct (Ascii.eqb_spec c NodePath.slash) as [->|]; [|reflexivity].
    vm_compute in Hc. discriminate Hc. }
  split; [reflexivity|]. split; [exact Hslash|].
  unfold Common.strip_dot_slash. rewrite Hslash.
  assert (Hdot : JS.startsWith "./" (String c r) = false).
  { unfold JS.startsWith. cbn [String.prefix].
    destruct (ascii_dec "." c) as [<-|]; [vm_compute in Hc; discriminate Hc | reflexivity]. }
  rewrite Hdot. reflexivity.
Qed.

Lemma base_in_front_differs (u : string) : u <> "https://www.botech.ma/" ++ u.
Proof.
  intros E. apply (f_equal String.length) in E. rewrite string_length_app in E.
  cbn [String.length] in E. lia.
Qed.

(** C10, as the code has it.  The two copies of [toAbs] agree on null, on
    the empty string and on every string that starts with [http://] or
    [https://]; and, with a URL parser that resolves a plain relative
    reference to the base followed by the reference, as the URL standard
    asks and as the parser modelled above does, they agree on every plain
    relative reference, written as it is, behind [./] or behind [/]: both
    return the base followed by the reference.  They are not equal
    everywhere: on a string that starts with [http://] or [https://]
    written with a capital letter, scrape-botech.js returns the string
    and part_001 the base followed by it. *)
Theorem toAbs_copies_agree_on_plain_references :
  Urls.resolves_plain_references Site.platform /\
  forall (P : Platform) (u : string),
    Botech.toAbs P None = Part001.toAbs P None /\
    Botech.toAbs P (Some "") = Part001.toAbs P (Some "") /\
    (JS.startsWith "http://" u || JS.startsWith "https://" u = true ->
     Botech.toAbs P (Some u) = Part001.toAbs P (Some u)) /\
    (Urls.resolves_plain_references P ->
     Spec.plain_reference u = true ->
     forall v, In v [u; "./" ++ u; "/" ++ u] ->
       Botech.toAbs P (Some v) = Ok (Some ("https://www.botech.ma/" ++ u)) /\
       Part001.toAbs P (Some v) = Ok (Some ("https://www.botech.ma/" ++ u))) /\
    (JS.startsWith_ci "http://" u || JS.startsWith_ci "https://" u = true ->
     JS.startsWith "http://" u || JS.startsWith "https://" u = false ->
     Botech.toAbs P (Some u) = Ok (Some u) /\
     Part001.toAbs P (Some u) = Ok (Some ("https://www.botech.ma/" ++ u)) /\
     Botech.toAbs P (Some u) <> Part001.toAbs P (Some u)).
Proof.
  split.
  { intros u Hp. cbn [URL_href Site.platform]. unfold Site.URL_href.
    destruct (href_of_plain_reference u Hp) as [Hrel Habs].
    change ("/" ++ u) with (String "/" u). rewrite Hrel, Habs. split; reflexivity. }
  intros P u.
  split; [reflexivity|]. split; [reflexivity|]. split; [|split].
  { intros Hs. destruct (String.eqb_spec u "") as [-> | Hne]; [discriminate Hs|].
    apply String.eqb_neq in Hne. unfold Botech.toAbs, Part001.toAbs.
    rewrite Hne, Hs, (scheme_prefix_ci u Hs). reflexivity. }
  { intros HP Hp v Hv.
    destruct (plain_reference_parts u Hp) as (c & r & E & Hc & Hplain & Hsegs).
    destruct (HP u Hp) as [Hu Hu'].
    assert (Hslash : JS.startsWith "/" u = false).
    { rewrite E, startsWith_slash_cons. exact Hc. }
    pose proof (plain_reference_not_dot_slash u Hp) as Hds.
    assert (Hv' : JS.forall_chars Spec.plain_char v = true).
    { destruct Hv as [<- | [<- | [<- | []]]]; cbn [append JS.forall_chars];
        rewrite ?Hplain; reflexivity. }
    destruct (no_colon_no_scheme v (no_colon_plain v Hv')) as [Hci Hcs].
    assert (Hne : (v =? "") = false).
    { destruct Hv as [<- | [<- | [<- | []]]]; [rewrite E | |]; reflexivity. }
    unfold Botech.toAbs, Part001.toAbs. rewrite Hne, Hci, Hcs.
    unfold Botech.BASE_URL, Part001.BASE.
    destruct Hv as [<- | [<- | [<- | []]]].
    - unfold Common.strip_dot_slash. rewrite Hslash, Hds, Hu. split; reflexivity.
    - assert (H1 : Common.strip_dot_slash ("./" ++ u) = u) by (destruct u; reflexivity).
      assert (H2 : JS.startsWith "/" ("./" ++ u) = false) by reflexivity.
      rewrite H1, H2, Hu. split; reflexivity.
    - assert (H1 : Common.strip_dot_slash ("/" ++ u) = u) by (destruct u; reflexivity).
      assert (H2 : JS.startsWith "/" ("/" ++ u) = true) by (destruct u; reflexivity).
      rewrite H1, H2, Hu, Hu'. split; reflexivity. }
  intros Hci Hcs. destruct (scheme_ci_first_char u Hci) as (Hne & Hslash & Hstrip).
  assert (HB : Botech.toAbs P (Some u) = Ok (Some u)).
  { unfold Botech.toAbs. rewrite Hne, Hci. reflexivity. }
  assert (HA : Part001.toAbs P (Some u) = Ok (Some ("https://www.botech.ma/" ++ u))).
  { unfold Part001.toAbs. rewrite Hne, Hcs, Hslash, Hstrip. reflexivity. }
  split; [exact HB|]. split; [exact HA|]. rewrite HB, HA.
  intros E. inversion E as [E']. exact (base_in_front_differs u E').
Qed.

(** ** The statements at work on the site *)

(** C1 on the site: after a first complete run of the category, the
    download phase sends nothing. *)
Lemma rerun_on_site_fetches_nothing :
  snd (Botech.downloadPhase Site.platform "Berceaux" Site.images Site.after_first_run)
    = Ok tt /\
  snd (Part001.downloadPhase Site.platform "Berceaux" Site.images Site.after_first_run)
    = Ok tt /\
  fetch_count
    (trace (fst (Botech.downloadPhase Site.platform "Berceaux" Site.images
                   Site.after_first_run)))
  = fetch_count (trace Site.after_first_run).
Proof.
  destruct (rerun_of_download_phase_fetches_nothing
              Site.platform "Berceaux" Site.images Site.after_first_run)
    as (HA & HB & Hcount).
  { intros d Hd. vm_compute in Hd. vm_compute.
    repeat (destruct Hd as [<- | Hd]; [repeat (first [left; reflexivity | right])|]).
    destruct Hd. }
  rewrite HA, HB. cbn [fst snd trace]. split; [reflexivity|]. split; [reflexivity|].
  exact Hcount.
Defined.

(** C2 on the site: the two images named [lit.jpg] share their
    destination because they share their name; two images that take the
    synthetic name get different destinations. *)
Lemma destinations_on_site :
  ("/srv/botech_images/Berceaux/lit.jpg" = "/srv/botech_images/Berceaux/lit.jpg" <->
   Spec.urlName "https://www.botech.ma/images/produits/a/lit.jpg"
   = Spec.urlName "https://www.botech.ma/images/produits/b/lit.jpg") /\
  "/srv/botech_images/Berceaux/Berceaux_001.jpg"
    <> "/srv/botech_images/Berceaux/Berceaux_002.png".
Proof.
  split.
  - apply (destinations_differ_by_file_name "/srv/botech_images/Berceaux" "Berceaux"
             Site.images 2 3
             "https://www.botech.ma/images/produits/a/lit.jpg"
             "https://www.botech.ma/images/produits/b/lit.jpg");
      first [lia | vm_compute; reflexivity].
  - apply (destinations_differ_by_file_name "/srv/botech_images/Berceaux" "Berceaux"
             ["https://www.botech.ma/images/produits/con.jpg";
              "https://www.botech.ma/images/produits/nul.PNG"] 0 1
             "https://www.botech.ma/images/produits/con.jpg"
             "https://www.botech.ma/images/produits/nul.PNG");
      first [lia | vm_compute; reflexivity].
Defined.

(** C6 on the site: the second product page is never served; whatever
    the order of the turns, the category gets its five images, those of
    the first and of the third product among them. *)
Lemma failed_product_on_site :
  (exists c' r,
      Async.runs Site.platform
        (BotechAsync.collectImages Site.platform "Berceaux" "prod/berceaux-maroc")
        (Site.fresh, []) c' r) /\
  (forall c' r,
      Async.runs Site.platform
        (BotechAsync.collectImages Site.platform "Berceaux" "prod/berceaux-maroc")
        (Site.fresh, []) c' r ->
      r = Ok (Site.images, Site.links)).
Proof.
  destruct (failed_product_page_leaves_the_others Site.platform "Berceaux"
              "prod/berceaux-maroc" (Site.fresh, [])
              (Some "https://www.botech.ma/prod/berceaux-maroc") Site.LISTING
              ["https://www.botech.ma/images/produits/berceau-1.jpg";
               "https://www.botech.ma/images/produits/berceau-2.png"]
              Site.links 1 (Some "https://www.botech.ma/details/berceau-2"))
    as [HA _].
  - reflexivity.
  - intros history. reflexivity.
  - reflexivity.
  - intros history. eexists. reflexivity.
  - destruct HA as [Hrun Hall]; [vm_compute; reflexivity ..|].
    split; [exact Hrun|].
    intros c' r H. destruct (Hall c' r H) as (pages & Hpages & Hfailed & Hserved & _ & -> & _).
    pose proof (Hserved 0 (Some "https://www.botech.ma/details/berceau-1") Site.PRODUCT_1
                  eq_refl (fun _ => eq_refl)) as H1.
    pose proof (Hserved 2 (Some "https://www.botech.ma/details/berceau-3") Site.PRODUCT_3
                  eq_refl (fun _ => eq_refl)) as H3.
    unfold Site.links in Hpages.
    inversion Hpages as [|u1 p1 l1 q1 _ Hall1]; subst.
    inversion Hall1 as [|u2 p2 l2 q2 _ Hall2]; subst.
    inversion Hall2 as [|u3 p3 l3 q3 _ Hall3]; subst.
    inversion Hall3; subst.
    cbn [nth_error] in Hfailed, H1, H3.
    inversion Hfailed. inversion H1. inversion H3. subst.
    vm_compute. reflexivity.
Defined.


(** C7 on the site: the listing of the first category is never served,
    the second category is scraped, [main] returns. *)
Lemma main_on_site_returns :
  (exists c',
      Async.runs Site.platform (Part001Async.main_over Site.platform Site.two_categories)
        (Site.fresh, []) c' (Ok tt)) /\
  (forall c' r,
      Async.runs Site.platform (Part001Async.main_over Site.platform Site.two_categories)
        (Site.fresh, []) c' r ->
      r = Ok tt).
Proof.
  destruct (main_attempts_every_category Site.platform Site.two_categories Site.fresh)
    as (_ & [Hrun Hall] & _); [reflexivity|].
  split; [exact Hrun|]. intros c' r H. exact (proj1 (Hall c' r H)).
Defined.

(** C9 on the site: whatever the order of the turns, the fetch phase
    returns the first page, the empty body for the second, which is
    never served, and the third page; and the three pages are requested
    one after the other before anything else happens, so that a second
    request for the second page comes after the request for the third
    page. *)
Lemma fetch_phase_on_site :
  (exists c' r,
      Async.runs Site.platform (BotechAsync.fetchPages Site.links) (Site.fresh, []) c' r) /\
  (forall c' r,
      Async.runs Site.platform (BotechAsync.fetchPages Site.links) (Site.fresh, []) c' r ->
      r = Ok [Site.PRODUCT_1; ""; Site.PRODUCT_3] /\
      firstn 3 (trace (fst c'))
      = [EvGet (PageGet (Some "https://www.botech.ma/details/berceau-1") []);
         EvGet (PageGet (Some "https://www.botech.ma/details/berceau-2") []);
         EvGet (PageGet (Some "https://www.botech.ma/details/berceau-3") [])]).
Proof.
  destruct (pipeline_results_are_index_aligned Site.platform string
              Common.FETCH_CONCURRENCY 0 (map BotechAsync.fetchWorker Site.links)
              (Site.fresh, [])) as (Hrun & _ & _ & _ & Hpages & _).
  { unfold Common.FETCH_CONCURRENCY. lia. }
  split.
  - destruct Hrun as (c' & r & H). exists c', r.
    unfold BotechAsync.fetchPages, Async.all_of. cbn [Async.runs Async.exec].
    exists c', r. split; [exact H | split; reflexivity].
  - intros c' r H. split.
    2:{ unfold BotechAsync.fetchPages, Async.all_of in H.
        cbn [Async.runs Async.exec] in H. destruct H as (c1 & x & H & -> & ->).
        apply all_starts_first in H; [|reflexivity].
        destruct H as (w1 & q1 & E1 & H). vm_compute in E1. inversion E1; subst w1 q1; clear E1.
        apply all_starts_first in H; [|reflexivity].
        destruct H as (w2 & q2 & E2 & H). vm_compute in E2. inversion E2; subst w2 q2; clear E2.
        apply all_starts_first in H; [|reflexivity].
        destruct H as (w3 & q3 & E3 & H). vm_compute in E3. inversion E3; subst w3 q3; clear E3.
        apply all_extends in H. destruct H as [evs Hevs]. cbn [fst trace] in Hevs.
        rewrite Hevs. reflexivity. }
    destruct (Hpages Site.links c' r H) as (pages & -> & Hall).
    f_equal. unfold Site.links in Hall.
    inversion Hall as [|u1 p1 l1 q1 H1 Hall1]; subst.
    inversion Hall1 as [|u2 p2 l2 q2 H2 Hall2]; subst.
    inversion Hall2 as [|u3 p3 l3 q3 H3 Hall3]; subst.
    inversion Hall3; subst.
    assert (E1 : p1 = Site.PRODUCT_1).
    { destruct H1 as [[h E] | [_ (h & e & E)]]; vm_compute in E; [|discriminate E].
      inversion E. reflexivity. }
    assert (E2 : p2 = "").
    { destruct H2 as [[h E] | [E _]]; [vm_compute in E; discriminate E | exact E]. }
    assert (E3 : p3 = Site.PRODUCT_3).
    { destruct H3 as [[h E] | [_ (h & e & E)]]; vm_compute in E; [|discriminate E].
      inversion E. reflexivity. }
    subst. reflexivity.
Defined.

(** C10 on a path of the category table. *)
Lemma toAbs_copies_agree_on_a_category_path :
  Botech.toAbs Site.platform (Some "prod/berceaux-maroc")
    = Ok (Some "https://www.botech.ma/prod/berceaux-maroc") /\
  Part001.toAbs Site.platform (Some "prod/berceaux-maroc")
    = Ok (Some "https://www.botech.ma/prod/berceaux-maroc").
Proof.
  destruct toAbs_copies_agree_on_plain_references as [Hsite H].
  destruct (H Site.platform "prod/berceaux-maroc") as (_ & _ & _ & Hplain & _).
  apply (Hplain Hsite eq_refl "prod/berceaux-maroc"). left. reflexivity.
Defined.

(** C8 on the site: the image of the first product is found on the
    listing and on the product page, and is kept once. *)
Lemma final_image_set_on_site :
  NoDup Site.images /\
  count_occ string_dec Site.images "https://www.botech.ma/images/produits/berceau-1.jpg" = 1.
Proof.
  destruct (final_image_set_has_no_duplicates Site.platform "Berceaux" "prod/berceaux-maroc"
              Site.fresh) as (H & _).
  split.
  - eapply H. vm_compute. reflexivity.
  - vm_compute. reflexivity.
Defined.

(* ===================================================================== *)
(** * Further properties of the code                                      *)
(* ===================================================================== *)

(** ** Image URLs and their extension *)

Lemma length_map_chars f (s : string) : String.length (JS.map_chars f s) = String.length s.
Proof. induction s as [|c s IH]; simpl; [reflexivity | rewrite IH; reflexivity]. Qed.

Lemma take_drop n (s : string) : JS.take n s ++ JS.drop n s = s.
Proof.
  revert s. induction n as [|n IH]; intros [|c s]; simpl; try reflexivity.
  rewrite IH. reflexivity.
Qed.

Lemma drop_app_length (a b : string) : JS.drop (String.length a) (a ++ b) = b.
Proof. induction a as [|c a IH]; simpl; [destruct b; reflexivity | exact IH]. Qed.

Lemma last_chars_app (a m : string) : JS.last_chars (String.length m) (a ++ m) = m.
Proof.
  unfold JS.last_chars. rewrite string_length_app.
  replace (String.length a + String.length m - String.length m) with (String.length a) by lia.
  apply drop_app_length.
Qed.

Lemma suffix_ci_inv (e s m : string) :
  Common.suffix_ci e s = Some m ->
  JS.ascii_lower m = e /\ exists stem, s = stem ++ m.
Proof.
  unfold Common.suffix_ci.
  destruct (Nat.leb (String.length e) (String.length s)
            && (JS.ascii_lower (JS.last_chars (String.length e) s) =? e)) eqn:E;
    [|discriminate].
  intros H. injection H as H. apply andb_true_iff in E. destruct E as [_ E].
  apply String.eqb_eq in E. rewrite H in E. split; [exact E|].
  exists (JS.take (String.length s - String.length e) s).
  rewrite <- H. unfold JS.last_chars. symmetry. apply take_drop.
Qed.

Lemma suffix_ci_app (stem m : string) :
  Common.suffix_ci (JS.ascii_lower m) (stem ++ m) = Some m.
Proof.
  unfold Common.suffix_ci, JS.ascii_lower. rewrite length_map_chars, last_chars_app.
  rewrite String.eqb_refl, string_length_app.
  replace (Nat.leb (String.length m) (String.length stem + String.length m)) with true
    by (symmetry; apply Nat.leb_le; lia).
  reflexivity.
Qed.

Lemma first_suffix_ci_inv (es : list string) (s m : string) :
  Common.first_suffix_ci es s = Some m ->
  In (JS.ascii_lower m) es /\ exists stem, s = stem ++ m.
Proof.
  intros H. split; [exact (first_suffix_ci_lower _ _ _ H)|].
  induction es as [|e es IH]; simpl in H; [discriminate|].
  destruct (Common.suffix_ci e s) as [m'|] eqn:E.
  - injection H as ->. apply suffix_ci_inv in E. tauto.
  - auto.
Qed.

Lemma first_suffix_ci_found (es : list string) (stem m : string) :
  In (JS.ascii_lower m) es -> Common.first_suffix_ci es (stem ++ m) <> None.
Proof.
  induction es as [|e es IH]; simpl; [tauto|].
  intros [->|Hin].
  - rewrite suffix_ci_app. discriminate.
  - destruct (Common.suffix_ci e (stem ++ m)); [discriminate | auto].
Qed.

Lemma before_char_idem c (u q : string) :
  JS.before_char c (JS.before_char c u ++ String c q) = JS.before_char c u.
Proof.
  induction u as [|x u IH]; simpl.
  - rewrite Ascii.eqb_refl. reflexivity.
  - destruct (Ascii.eqb x c) eqn:E; simpl.
    + rewrite Ascii.eqb_refl. reflexivity.
    + rewrite E, IH. reflexivity.
Qed.

(** X1. [isImageUrl(u)] holds exactly when the part of [u] before its
    first question mark ends with [.jpg], [.jpeg], [.png] or [.webp]
    written in any mix of upper and lower case; whatever follows the
    question mark has no influence. *)
Theorem isImageUrl_reads_the_extension :
  forall u : string,
    (Common.isImageUrl u = true <->
       exists stem m,
         Common.strip_query u = stem ++ m /\ In (JS.ascii_lower m) Common.image_exts) /\
    (forall q, Common.isImageUrl (Common.strip_query u ++ "?" ++ q) = Common.isImageUrl u).
Proof.
  intros u. split; [split|].
  - unfold Common.isImageUrl, Common.match_image_ext.
    destruct (Common.first_suffix_ci Common.image_exts (Common.strip_query u)) as [m|] eqn:E;
      [|discriminate].
    intros _. apply first_suffix_ci_inv in E. destruct E as [Hin [stem Hs]].
    exists stem, m. auto.
  - intros (stem & m & Hs & Hin). unfold Common.isImageUrl, Common.match_image_ext.
    rewrite Hs. pose proof (first_suffix_ci_found _ stem m Hin) as Hf.
    destruct (Common.first_suffix_ci Common.image_exts (stem ++ m)); [reflexivity | tauto].
  - intros q. unfold Common.isImageUrl, Common.strip_query.
    change ("?" ++ q) with (String "?" q). rewrite before_char_idem. reflexivity.
Qed.

(** X2. [extFromUrl(u)] is always one of the four extensions in lower
    case.  For a [u] that [isImageUrl] rejects it is [.jpg]; for one that
    it accepts it is the lower-case spelling of the ending that the path
    of [u] has. *)
Theorem extFromUrl_follows_isImageUrl :
  forall u : string,
    In (Common.extFromUrl u) Common.image_exts /\
    ((Common.isImageUrl u = false /\ Common.extFromUrl u = ".jpg") \/
     (Common.isImageUrl u = true /\
      exists stem m,
        Common.strip_query u = stem ++ m /\ Common.extFromUrl u = JS.ascii_lower m)).
Proof.
  intros u. split; [apply extFromUrl_known|].
  unfold Common.isImageUrl, Common.extFromUrl, Common.match_image_ext.
  destruct (Common.first_suffix_ci Common.image_exts (Common.strip_query u)) as [m|] eqn:E.
  - right. split; [reflexivity|].
    apply first_suffix_ci_inv in E. destruct E as [Hin [stem Hs]].
    exists stem, m. split; [exact Hs|].
    apply toLowerCase_agree.
    simpl in Hin. destruct Hin as [<- | [<- | [<- | [<- | []]]]]; reflexivity.
  - left. auto.
Qed.

(** ** File names *)

Lemma forall_chars_and p q (s : string) :
  JS.forall_chars p s = true -> JS.forall_chars q s = true ->
  JS.forall_chars (fun c => p c && q c) s = true.
Proof.
  induction s as [|c s IH]; simpl; [auto|].
  intros H1 H2. apply andb_true_iff in H1, H2.
  destruct H1 as [-> H1], H2 as [-> H2]. simpl. auto.
Qed.

Lemma collapse_ws_no_space b (s : string) :
  JS.forall_chars (fun c => negb (Common.is_space c)) (Common.collapse_ws b s) = true.
Proof.
  revert b. induction s as [|c s IH]; intros b; simpl; [reflexivity|].
  destruct (Common.is_space c) eqn:E; [destruct b|]; simpl; rewrite ?E, IH; reflexivity.
Qed.

Lemma length_take n (s : string) : String.length (JS.take n s) <= n.
Proof.
  revert s. induction n as [|n IH]; intros [|c s]; simpl; try lia.
  specialize (IH s). lia.
Qed.

Lemma sanitize_legal (x : string) :
  JS.forall_chars
    (fun c => negb (SanitizeFilename.illegal c) && negb (SanitizeFilename.control c))
    (SanitizeFilename.sanitize x) = true.
Proof.
  unfold SanitizeFilename.sanitize.
  apply forall_chars_truncate, forall_chars_strip_trailing.
  set (s2 := JS.filter_chars _ (JS.filter_chars _ x)).
  assert (H2 : JS.forall_chars
                 (fun c => negb (SanitizeFilename.illegal c)
                           && negb (SanitizeFilename.control c)) s2 = true).
  { apply forall_chars_and.
    - apply forall_chars_filter_keeps, forall_chars_filter. auto.
    - apply forall_chars_filter. auto. }
  destruct (SanitizeFilename.reserved s2); simpl.
  - reflexivity.
  - destruct (SanitizeFilename.windows_reserved s2); [reflexivity | exact H2].
Qed.

(** X3. Whatever the name given, [safeFileName] returns at most 150
    code units, none of which is a path separator, another character
    that sanitize-filename removes, a control character or white space;
    and it never returns [.] or [..]. *)
Theorem safeFileName_is_a_safe_name :
  forall name : string,
    String.length (Common.safeFileName name) <= 150 /\
    JS.forall_chars Names.allowed (Common.safeFileName name) = true /\
    Common.safeFileName name <> "." /\
    Common.safeFileName name <> "..".
Proof.
  intros name. split; [apply length_take|]. split; [|apply safeFileName_not_dots].
  unfold Common.safeFileName, Names.allowed. apply forall_chars_take.
  apply forall_chars_and.
  - apply forall_chars_collapse_ws; [reflexivity | apply sanitize_legal].
  - apply collapse_ws_no_space.
Qed.

(** ** Removing duplicates *)

Section UniqOrder.
Context {A : Type} (eqb : A -> A -> bool).
Hypothesis eqb_eq : forall x y, eqb x y = true <-> x = y.

Let unseen (s : list A) (y : A) : bool := negb (Common.set_has eqb s y).

Lemma filter_unseen_app (s t l : list A) :
  filter (unseen (s ++ t)) l = filter (unseen s) (filter (unseen t) l).
Proof.
  induction l as [|y l IH]; cbn [filter]; [reflexivity|].
  assert (E : unseen (s ++ t) y = unseen t y && unseen s y).
  { unfold unseen, Common.set_has. rewrite existsb_app.
    destruct (existsb (eqb y) s), (existsb (eqb y) t); reflexivity. }
  rewrite E. destruct (unseen t y); cbn [andb filter]; [|exact IH].
  destruct (unseen s y); rewrite IH; reflexivity.
Qed.

Lemma filter_unseen_absorb (s : list A) (x : A) (l : list A) :
  Common.set_has eqb s x = true ->
  filter (unseen s) (filter (unseen [x]) l) = filter (unseen s) l.
Proof.
  intros Hx. induction l as [|y l IH]; cbn [filter]; [reflexivity|].
  assert (E : unseen [x] y = negb (eqb y x)).
  { unfold unseen, Common.set_has. simpl. rewrite orb_false_r. reflexivity. }
  rewrite E. destruct (eqb y x) eqn:Eyx; cbn [negb filter].
  - apply eqb_eq in Eyx. subst y.
    assert (Ex : unseen s x = false) by (unfold unseen; rewrite Hx; reflexivity).
    rewrite Ex. exact IH.
  - destruct (unseen s y); rewrite IH; reflexivity.
Qed.

Lemma fold_set_add_from (l s : list A) :
  fold_left (Common.set_add eqb) l s
  = (s ++ filter (unseen s) (fold_left (Common.set_add eqb) l []))%list.
Proof.
  revert s. induction l as [|x l IH]; intros s; cbn [fold_left].
  - simpl. rewrite app_nil_r. reflexivity.
  - rewrite (IH (Common.set_add eqb [] x)). rewrite (IH (Common.set_add eqb s x)).
    change (Common.set_add eqb [] x) with [x].
    rewrite filter_app. cbn [filter]. unfold Common.set_add.
    assert (Ex : unseen s x = negb (Common.set_has eqb s x)) by reflexivity.
    rewrite Ex. destruct (Common.set_has eqb s x) eqn:Hx; cbn [negb app].
    + rewrite filter_unseen_absorb by exact Hx. reflexivity.
    + rewrite filter_unseen_app, <- app_assoc. reflexivity.
Qed.

Lemma uniq_cons (x : A) (l : list A) :
  Botech.uniq eqb (x :: l) = x :: filter (fun y => negb (eqb y x)) (Botech.uniq eqb l).
Proof.
  unfold Botech.uniq. simpl. rewrite fold_set_add_from. unfold Common.set_add. simpl.
  f_equal. apply filter_ext. intros y. unfold unseen, Common.set_has. simpl.
  rewrite orb_false_r. reflexivity.
Qed.

Lemma filter_absent (x : A) (l : list A) :
  ~ In x l -> filter (fun y => negb (eqb y x)) l = l.
Proof.
  induction l as [|y l IH]; simpl; [reflexivity|].
  intros H. destruct (eqb y x) eqn:E.
  - apply eqb_eq in E. subst y. tauto.
  - simpl. rewrite IH; [reflexivity | tauto].
Qed.

Lemma uniq_fixes_NoDup (l : list A) : NoDup l -> Botech.uniq eqb l = l.
Proof.
  induction 1 as [|x l Hx Hl IH]; [reflexivity|].
  rewrite uniq_cons, IH, filter_absent by exact Hx. reflexivity.
Qed.

End UniqOrder.

(** X4. The two versions of [uniq] (the Set spread of scrape-botech.js and
    the explicit loop of part_001) return the same list.  The result
    keeps the first element of the input first and continues with the
    result for the rest of the input, that element left out; running
    [uniq] on its own result changes nothing. *)
Theorem uniq_keeps_first_occurrences :
  forall (x : string) (l : list string),
    Part001.uniq String.eqb l = Botech.uniq String.eqb l /\
    Botech.uniq String.eqb (x :: l)
      = x :: filter (fun y => negb (y =? x)) (Botech.uniq String.eqb l) /\
    Part001.uniq String.eqb (x :: l)
      = x :: filter (fun y => negb (y =? x)) (Part001.uniq String.eqb l) /\
    Botech.uniq String.eqb (Botech.uniq String.eqb l) = Botech.uniq String.eqb l /\
    Part001.uniq String.eqb (Part001.uniq String.eqb l) = Part001.uniq String.eqb l.
Proof.
  intros x l.
  assert (Hc := uniq_cons String.eqb string_eqb_eq x l).
  assert (Hi : Botech.uniq String.eqb (Botech.uniq String.eqb l) = Botech.uniq String.eqb l).
  { apply uniq_fixes_NoDup; [exact string_eqb_eq|]. apply uniq_NoDup, string_eqb_eq. }
  rewrite !(uniq_same String.eqb).
  repeat split; assumption.
Qed.

(** ** Downloading one file *)

Lemma downloadFile_unfold P url dest attempt w :
  Common.downloadFile P url dest attempt w =
  match ensureDir P (NodePath.dirname dest) w with
  | (w0, Throw e) => (w0, Throw e)
  | (w0, Ok _) =>
      match Common.download_attempt P url dest w0 with
      | (w1, Ok _) => (w1, Ok tt)
      | (w1, Throw e) =>
          if Nat.leb Common.MAX_RETRIES attempt
          then console_error ["Failed:"; url; "->"; dest; message e] w1
          else Common.downloadFile P url dest (attempt + 1)
                 (fst (sleep (Common.RETRY_DELAY_MS * attempt) w1))
      end
  end.
Proof.
  rewrite Common.downloadFile_equation_1.
  destruct (ensureDir P (NodePath.dirname dest) w) as [w0 [[]|e]]; [|reflexivity].
  cbn [Common.downloadFile_unfold_clause_1].
  destruct (Common.download_attempt P url dest w0) as [w1 [[]|e]]; [reflexivity|].
  destruct (Nat.leb Common.MAX_RETRIES attempt) eqn:E;
    [apply Nat.leb_le in E | apply Nat.leb_gt in E];
    cbn [Common.downloadFile_unfold_clause_1_clause_2];
    destruct (le_lt_dec Common.MAX_RETRIES attempt) as [Hle|Hlt];
    try reflexivity; exfalso; lia.
Qed.

Ltac log_app :=
  unfold Log.requests, Log.sleeps, Log.mkdirs, Log.writes, Log.errors;
  rewrite ?flat_map_app; cbn [flat_map app].

(** The body of the [try] block: one request, and one write when the
    request was answered. *)
Lemma download_attempt_run P url dest w0 :
  exists w1 r pre,
    Common.download_attempt P url dest w0 = (w1, r)
    /\ trace w1 = (trace w0 ++ pre)%list
    /\ Log.requests pre = [AssetGet url]
    /\ Log.mkdirs pre = [] /\ Log.sleeps pre = [] /\ Log.errors pre = []
    /\ incl (Log.writes pre) [dest]
    /\ ((r = Ok tt /\ paths w1 = dest :: paths w0)
        \/ ((exists e, r = Throw e) /\ paths w1 = paths w0)).
Proof.
  unfold Common.download_attempt, bindM, axios_get, request.
  destruct (http_get P (trace w0) (AssetGet url)) as [data|e].
  - unfold writeFile. cbn [paths trace].
    destruct (fs_write P (trace w0 ++ [EvGet (AssetGet url)]) dest) as [e|].
    + eexists _, _, [EvGet (AssetGet url); EvWrite dest]. split; [reflexivity|].
      cbn [trace paths]. rewrite <- app_assoc.
      repeat split; try reflexivity; [apply incl_refl | right; eauto].
    + eexists _, _, [EvGet (AssetGet url); EvWrite dest]. split; [reflexivity|].
      cbn [trace paths]. rewrite <- app_assoc.
      repeat split; try reflexivity; [apply incl_refl | left; auto].
  - eexists _, _, [EvGet (AssetGet url)]. split; [reflexivity|].
    cbn [trace paths].
    repeat split; try reflexivity; [apply incl_nil_l | right; eauto].
Qed.

Lemma delays_one attempt : Log.delays attempt 1 = [].
Proof. reflexivity. Qed.

Lemma delays_next attempt k :
  1 <= k ->
  Log.delays attempt (S k)
  = Common.RETRY_DELAY_MS * attempt :: Log.delays (attempt + 1) k.
Proof.
  intros Hk. unfold Log.delays. replace (S k - 1) with (S (k - 1)) by lia.
  cbn [seq map]. rewrite Nat.add_1_r. reflexivity.
Qed.

(** What one call of [downloadFile] does: [k] attempts, each opened by
    [ensureDir]; it ends with the failure of [ensureDir], with the file
    written, or with the report of the last failure. *)
Lemma downloadFile_run P url dest :
  forall n attempt w,
    Common.MAX_RETRIES - attempt < n ->
    exists w' r evs k,
      Common.downloadFile P url dest attempt w = (w', r)
      /\ trace w' = (trace w ++ evs)%list
      /\ incl (paths w) (paths w')
      /\ incl (paths w') (dest :: NodePath.dirname dest :: paths w)
      /\ 1 <= k /\ attempt + k <= Nat.max (S attempt) (S Common.MAX_RETRIES)
      /\ Log.mkdirs evs = repeat (NodePath.dirname dest) k
      /\ Log.sleeps evs = Log.delays attempt k
      /\ incl (Log.writes evs) [dest]
      /\ ((exists e h, fs_mkdir P h (NodePath.dirname dest) = Some e /\ r = Throw e
            /\ Log.requests evs = repeat (AssetGet url) (k - 1) /\ Log.errors evs = [])
          \/ (r = Ok tt /\ Log.requests evs = repeat (AssetGet url) k
              /\ Log.errors evs = [] /\ In dest (paths w'))
          \/ (r = Ok tt /\ Log.requests evs = repeat (AssetGet url) k
              /\ Common.MAX_RETRIES < attempt + k
              /\ exists e, Log.errors evs = [["Failed:"; url; "->"; dest; message e]])).
Proof.
  induction n as [|n IH]; intros attempt w Hn; [lia|].
  rewrite downloadFile_unfold. unfold ensureDir. cbn [paths trace].
  set (dir := NodePath.dirname dest).
  destruct (fs_mkdir P (trace w) dir) as [e|] eqn:Hmk.
  { exists (mkWorld (paths w) (trace w ++ [EvMkdir dir])), (Throw e), [EvMkdir dir], 1.
    cbn [paths trace].
    split; [reflexivity|]. split; [reflexivity|]. split; [apply incl_refl|].
    split; [do 2 apply incl_tl; apply incl_refl|].
    split; [lia|]. split; [lia|]. split; [reflexivity|]. split; [reflexivity|].
    split; [apply incl_nil_l|].
    left. exists e, (trace w). repeat split; auto. }
  set (w0 := mkWorld (dir :: paths w) (trace w ++ [EvMkdir dir])).
  destruct (download_attempt_run P url dest w0)
    as (w1 & r1 & pre & Hrun & Htr & Hreq & Hmd & Hsl & Her & Hwr & Hout).
  rewrite Hrun. cbn [trace w0] in Htr. rewrite <- app_assoc in Htr. cbn [app] in Htr.
  destruct Hout as [[-> Hp] | [[e ->] Hp]]; cbn [paths w0] in Hp.
  { exists w1, (Ok tt), (EvMkdir dir :: pre), 1.
    split; [reflexivity|]. split; [exact Htr|]. rewrite Hp.
    split; [do 2 apply incl_tl; apply incl_refl|].
    split; [apply incl_refl|].
    split; [lia|]. split; [lia|].
    split; [change (EvMkdir dir :: pre) with ([EvMkdir dir] ++ pre)%list; log_app;
            fold (Log.mkdirs pre); rewrite Hmd; reflexivity|].
    split; [change (EvMkdir dir :: pre) with ([EvMkdir dir] ++ pre)%list; log_app;
            fold (Log.sleeps pre); rewrite Hsl; reflexivity|].
    split; [exact Hwr|].
    right. left. repeat split; auto. left. reflexivity. }
  destruct (Nat.leb Common.MAX_RETRIES attempt) eqn:E.
  { apply Nat.leb_le in E.
    exists (mkWorld (paths w1)
              (trace w1 ++ [EvError ["Failed:"; url; "->"; dest; message e]])),
      (Ok tt), (EvMkdir dir :: pre ++ [EvError ["Failed:"; url; "->"; dest; message e]]), 1.
    cbn [paths trace]. split; [reflexivity|].
    split; [rewrite Htr, <- app_assoc; reflexivity|]. rewrite Hp.
    split; [apply incl_tl, incl_refl|].
    split; [apply incl_tl, incl_refl|].
    split; [lia|]. split; [lia|].
    change (EvMkdir dir :: pre ++ [EvError ["Failed:"; url; "->"; dest; message e]])
      with ([EvMkdir dir] ++ pre ++ [EvError ["Failed:"; url; "->"; dest; message e]])%list.
    split; [log_app; fold (Log.mkdirs pre); rewrite Hmd; reflexivity|].
    split; [log_app; fold (Log.sleeps pre); rewrite Hsl; reflexivity|].
    split; [log_app; fold (Log.writes pre); rewrite app_nil_r; exact Hwr|].
    right. right. split; [reflexivity|].
    split; [log_app; fold (Log.requests pre); rewrite Hreq; reflexivity|].
    split; [lia|]. exists e. log_app. fold (Log.errors pre). rewrite Her. reflexivity. }
  apply Nat.leb_gt in E.
  set (w2 := fst (sleep (Common.RETRY_DELAY_MS * attempt) w1)).
  destruct (IH (attempt + 1) w2 ltac:(lia))
    as (w' & r & evs & k & Hrec & Htr' & Hin1 & Hin2 & Hk1 & Hk2 & Hmd' & Hsl' & Hwr' & Hout).
  assert (Hp2 : paths w2 = dir :: paths w) by (cbn; exact Hp).
  assert (Htr2 : trace w2
                 = (trace w ++ EvMkdir dir :: pre
                      ++ [EvSleep (Common.RETRY_DELAY_MS * attempt)])%list).
  { cbn. rewrite Htr, <- app_assoc. reflexivity. }
  exists w', r,
    ([EvMkdir dir] ++ pre ++ [EvSleep (Common.RETRY_DELAY_MS * attempt)] ++ evs)%list,
    (S k).
  split; [exact Hrec|].
  split; [rewrite Htr', Htr2; repeat first [rewrite <- app_assoc | progress cbn [app]];
          reflexivity|].
  rewrite Hp2 in Hin1, Hin2.
  split; [intros p Hpin; apply Hin1; right; exact Hpin|].
  split; [intros p Hpin; apply Hin2 in Hpin; cbn in Hpin |- *; tauto|].
  split; [lia|]. split; [unfold Common.MAX_RETRIES in *; lia|].
  split; [log_app; fold (Log.mkdirs pre) (Log.mkdirs evs); rewrite Hmd, Hmd'; reflexivity|].
  split; [log_app; fold (Log.sleeps pre) (Log.sleeps evs);
          rewrite Hsl, Hsl', delays_next by exact Hk1; reflexivity|].
  split; [log_app; fold (Log.writes pre) (Log.writes evs);
          apply incl_app; assumption|].
  destruct Hout as [(e' & h & Hh & -> & Hrq & Herr)
                   | [(-> & Hrq & Herr & Hd) | (-> & Hrq & Hlt & e' & Herr)]].
  - left. exists e', h. repeat split; auto.
    + log_app. fold (Log.requests pre) (Log.requests evs). rewrite Hreq, Hrq.
      replace (S k - 1) with (S (k - 1)) by lia. reflexivity.
    + log_app. fold (Log.errors pre) (Log.errors evs). rewrite Her, Herr. reflexivity.
  - right. left. repeat split; auto.
    + log_app. fold (Log.requests pre) (Log.requests evs). rewrite Hreq, Hrq. reflexivity.
    + log_app. fold (Log.errors pre) (Log.errors evs). rewrite Her, Herr. reflexivity.
  - right. right. repeat split; auto.
    + log_app. fold (Log.requests pre) (Log.requests evs). rewrite Hreq, Hrq. reflexivity.
    + lia.
    + exists e'. log_app. fold (Log.errors pre) (Log.errors evs).
      rewrite Her, Herr. reflexivity.
Qed.

(** ** What the phases put in the history *)

Lemma since_app (w w' : World) (evs : list Event) :
  trace w' = (trace w ++ evs)%list -> Log.since w w' = evs.
Proof.
  intros H. unfold Log.since. rewrite H.
  rewrite skipn_app, skipn_all, Nat.sub_diag. reflexivity.
Qed.


Lemma attempts_next (req : Request) n k :
  1 <= k ->
  (EvGet req :: EvSleep (Common.RETRY_DELAY_MS * n) :: Spec.attempts req (n + 1) k
   = Spec.attempts req n (S k))%list.
Proof. intros Hk. destruct k as [|k]; [lia|]. rewrite Nat.add_1_r. reflexivity. Qed.

(** One call of [fetchWithRetry], whatever the number of its first
    attempt: [k] requests and the waits between them, nothing else. *)
Lemma fetchWithRetry_run P url opts :
  forall n attempt w,
    Common.MAX_RETRIES - attempt < n ->
    exists k,
      1 <= k /\ attempt + k <= Nat.max (S attempt) (S Common.MAX_RETRIES)
      /\ fst (Common.fetchWithRetry P url opts attempt w)
         = mkWorld (paths w) (trace w ++ Spec.attempts (PageGet url opts) attempt k)
      /\ ((exists body, snd (Common.fetchWithRetry P url opts attempt w) = Ok body)
          \/ Common.MAX_RETRIES < attempt + k).
Proof.
  induction n as [|n IH]; intros attempt w Hn; [lia|].
  rewrite fetchWithRetry_unfold. unfold client_get, request.
  destruct (http_get P (trace w) (PageGet url opts)) as [res|e] eqn:A.
  - exists 1. cbn [fst snd]. repeat split; try lia. left. eauto.
  - destruct (Nat.leb Common.MAX_RETRIES attempt) eqn:E.
    + apply Nat.leb_le in E. exists 1. cbn [fst snd]. repeat split; lia.
    + apply Nat.leb_gt in E.
      match goal with
      | |- context [Common.fetchWithRetry P url opts (attempt + 1) ?w1] =>
          destruct (IH (attempt + 1) w1 ltac:(lia)) as (k & Hk1 & Hk2 & Hw & Hr)
      end.
      exists (S k). split; [lia|]. split; [unfold Common.MAX_RETRIES in *; lia|].
      split.
      * rewrite Hw. cbn [sleep emit fst paths trace].
        rewrite <- !app_assoc. cbn [app]. rewrite attempts_next by exact Hk1. reflexivity.
      * destruct Hr as [Hr | Hr]; [left; exact Hr | right; lia].
Qed.

(** X5. [downloadFile(url, dest)] makes between one and [MAX_RETRIES] = 3
    attempts.  Each attempt asks for the directory of [dest] and then, if
    that succeeded, sends one request for [url]; the waits between the
    attempts are 1200 ms and 2400 ms; no path other than [dest] is
    written.  The call ends in one of three ways: [ensureDir] failed and
    its error is thrown; the file was written, is on disk and nothing is
    reported; or the third attempt failed in the request or in the write,
    one failure is reported and the call returns normally.  A failure of
    the network or of the write is never thrown. *)
Theorem downloadFile_policy :
  forall (P : Platform) (url dest : string) (w : World),
    let run := Common.downloadFile P url dest 1 w in
    let events := Log.since w (fst run) in
    exists k,
      1 <= k <= Common.MAX_RETRIES
      /\ trace (fst run) = (trace w ++ events)%list
      /\ Log.mkdirs events = repeat (NodePath.dirname dest) k
      /\ Log.sleeps events = Log.delays 1 k
      /\ incl (Log.writes events) [dest]
      /\ ((exists e history,
              fs_mkdir P history (NodePath.dirname dest) = Some e
              /\ snd run = Throw e
              /\ Log.requests events = repeat (AssetGet url) (k - 1)
              /\ Log.errors events = [])
          \/ (snd run = Ok tt
              /\ Log.requests events = repeat (AssetGet url) k
              /\ Log.errors events = []
              /\ In dest (paths (fst run)))
          \/ (snd run = Ok tt
              /\ Log.requests events = repeat (AssetGet url) k
              /\ k = Common.MAX_RETRIES
              /\ exists e, Log.errors events = [["Failed:"; url; "->"; dest; message e]])).
Proof.
  intros P url dest w run events.
  destruct (downloadFile_run P url dest (S Common.MAX_RETRIES) 1 w
              ltac:(unfold Common.MAX_RETRIES; lia))
    as (w' & r & evs & k & Hrun & Htr & _ & _ & Hk1 & Hk2 & Hmd & Hsl & Hwr & Hout).
  assert (Hev : events = evs).
  { unfold events, run. rewrite Hrun. apply since_app. exact Htr. }
  unfold run in *. rewrite Hrun, Hev. cbn [fst snd].
  exists k. split; [unfold Common.MAX_RETRIES in *; lia|].
  split; [exact Htr|]. split; [exact Hmd|]. split; [exact Hsl|]. split; [exact Hwr|].
  destruct Hout as [Ha | [Hb | (Hr & Hrq & Hlt & He)]]; [left; exact Ha | right; left; exact Hb|].
  right. right. repeat split; auto. unfold Common.MAX_RETRIES in *. lia.
Qed.

(** ** The download phase *)













(** ** The fetch phase *)




















(** ** What the extractors return *)

Lemma foldR_inv {A S : Type} (f : S -> A -> Result S) (Inv : S -> Prop) :
  (forall s x s', Inv s -> f s x = Ok s' -> Inv s') ->
  forall l s s', Inv s -> Common.foldR f l s = Ok s' -> Inv s'.
Proof.
  intros Hf. induction l as [|x l IH]; intros s s' Hs; cbn [Common.foldR].
  - intros H. inversion H. subst. exact Hs.
  - destruct (f s x) as [s1|e] eqn:E; cbn [bindR]; [|discriminate].
    apply IH. exact (Hf _ _ _ Hs E).
Qed.

Lemma mapR_Forall {A B : Type} (f : A -> Result B) (Q : B -> Prop) (l : list A) :
  (forall x y, In x l -> f x = Ok y -> Q y) ->
  forall ys, mapR f l = Ok ys -> Forall Q ys.
Proof.
  induction l as [|x l IH]; intros Hf ys; cbn [mapR].
  - intros H. inversion H. constructor.
  - destruct (f x) as [y|e] eqn:E; cbn [bindR]; [|discriminate].
    destruct (mapR f l) as [ys'|e] eqn:E'; cbn [bindR]; [|discriminate].
    intros H. inversion H. subst ys. constructor.
    + apply (Hf x y); [left; reflexivity | exact E].
    + apply IH; [|reflexivity]. intros x' y' Hin. apply Hf. right. exact Hin.
Qed.

Lemma Forall_uniq {A : Type} (eqb : A -> A -> bool) (Q : A -> Prop) (l : list A) :
  (forall x y, eqb x y = true <-> x = y) ->
  Forall Q l -> Forall Q (Botech.uniq eqb l).
Proof.
  intros Heq H. apply Forall_forall. intros x Hx.
  apply (proj1 (uniq_In eqb Heq l x)) in Hx. exact (proj1 (Forall_forall Q l) H x Hx).
Qed.

Lemma set_add_Forall (Q : string -> Prop) (s : list string) (x : string) :
  Forall Q s -> Q x -> Forall Q (Common.set_add String.eqb s x).
Proof.
  intros Hs Hx. unfold Common.set_add.
  destruct (Common.set_has String.eqb s x); [exact Hs|].
  apply Forall_app. split; [exact Hs | constructor; [exact Hx | constructor]].
Qed.

Lemma image_list_uniq (urls : list string) :
  Forall (fun u => Common.isImageUrl u = true) urls ->
  Names.image_list (Botech.uniq String.eqb urls).
Proof.
  intros H. split; [apply uniq_NoDup, string_eqb_eq | apply Forall_uniq; [apply string_eqb_eq | exact H]].
Qed.

Lemma image_list_add (urls : list string) (a : string) :
  Names.image_list urls -> Common.isImageUrl a = true ->
  Names.image_list (Common.set_add String.eqb urls a).
Proof.
  intros [H1 H2] Ha. split; [apply set_add_NoDup; [apply string_eqb_eq | exact H1]|].
  apply set_add_Forall; assumption.
Qed.

Lemma extractCategoryImages_images P html urls :
  Botech.extractCategoryImages P html = Ok urls -> Names.image_list urls.
Proof.
  unfold Botech.extractCategoryImages. intros H. apply bindR_ok_inv in H.
  destruct H as (l & _ & H). inversion H. apply image_list_uniq.
  apply Forall_forall. intros u Hu. apply filter_In in Hu. tauto.
Qed.

Lemma extractProductImages_images P html urls :
  Botech.extractProductImages P html = Ok urls -> Names.image_list urls.
Proof.
  unfold Botech.extractProductImages. intros H. apply bindR_ok_inv in H.
  destruct H as (urls0 & H0 & H).
  assert (I0 : Names.image_list urls0).
  { revert H0. apply foldR_inv; [|split; constructor].
    intros s el s' Hs. unfold Botech.addHolderImage. intros Hf.
    apply bindR_ok_inv in Hf. destruct Hf as ([a|] & _ & Hf); [|inversion Hf; subst; exact Hs].
    destruct (JS.truthy (Some a) && Common.isImageUrl a) eqn:E;
      inversion Hf; subst; [|exact Hs].
    apply andb_true_iff in E. apply image_list_add; tauto. }
  revert H. apply foldR_inv; [|exact I0].
  intros s el s' Hs. unfold Botech.addProductImage. intros Hf.
  apply bindR_ok_inv in Hf. destruct Hf as ([a|] & _ & Hf); [|inversion Hf; subst; exact Hs].
  destruct (JS.truthy (Some a) && Common.isImageUrl a && Common.underProductImages a) eqn:E;
    inversion Hf; subst; [|exact Hs].
  apply andb_true_iff in E. destruct E as [E _]. apply andb_true_iff in E.
  apply image_list_add; tauto.
Qed.

Lemma pushIf_images keep (urls : list string) (abs : option string) :
  (forall a, keep a = true -> Common.isImageUrl a = true) ->
  Forall (fun u => Common.isImageUrl u = true) urls ->
  Forall (fun u => Common.isImageUrl u = true) (Part001.pushIf keep urls abs).
Proof.
  intros Hkeep H. unfold Part001.pushIf. destruct abs as [a|]; [|exact H].
  destruct (JS.truthy (Some a) && keep a) eqn:E; [|exact H].
  apply andb_true_iff in E. apply Forall_app. split; [exact H|].
  constructor; [apply Hkeep; tauto | constructor].
Qed.

Lemma getCategoryPageImageUrls_images P html urls :
  Part001.getCategoryPageImageUrls P html = Ok urls -> Names.image_list urls.
Proof.
  unfold Part001.getCategoryPageImageUrls. intros H. apply bindR_ok_inv in H.
  destruct H as (urls0 & H0 & H). inversion H. rewrite uniq_same.
  apply image_list_uniq. revert H0. apply foldR_inv; [|constructor].
  intros s el s' Hs Hf. apply bindR_ok_inv in Hf. destruct Hf as (abs & _ & Hf).
  inversion Hf. apply pushIf_images; auto.
Qed.

Lemma getProductImages_images P html urls :
  Part001.getProductImages P html = Ok urls -> Names.image_list urls.
Proof.
  unfold Part001.getProductImages. intros H. apply bindR_ok_inv in H.
  destruct H as (urls0 & H0 & H). apply bindR_ok_inv in H.
  destruct H as (urls1 & H1 & H). inversion H. rewrite uniq_same.
  apply image_list_uniq. revert H1. apply foldR_inv.
  - intros s el s' Hs Hf. apply bindR_ok_inv in Hf. destruct Hf as (abs & _ & Hf).
    inversion Hf. apply pushIf_images; [|exact Hs].
    intros a Ha. apply andb_true_iff in Ha. tauto.
  - revert H0. apply foldR_inv; [|constructor].
    intros s el s' Hs Hf. apply bindR_ok_inv in Hf. destruct Hf as (abs & _ & Hf).
    inversion Hf. apply pushIf_images; auto.
Qed.

Lemma opt_eqb_eq (x y : option string) : Common.opt_eqb x y = true <-> x = y.
Proof.
  destruct x as [x|], y as [y|]; simpl; try (split; [discriminate | intros H; discriminate H]).
  - rewrite String.eqb_eq. split; [intros ->; reflexivity | intros H; inversion H; reflexivity].
  - tauto.
Qed.

Lemma isProductHref_not_empty (href : string) :
  Common.isProductHref href = true -> (href =? "") = false.
Proof. destruct href; [discriminate | reflexivity]. Qed.

Lemma toAbs_botech_not_null P (u : string) r :
  (u =? "") = false -> Botech.toAbs P (Some u) = Ok r -> r <> None.
Proof.
  unfold Botech.toAbs. intros ->.
  destruct (JS.startsWith_ci "http://" u || JS.startsWith_ci "https://" u).
  - intros H. inversion H. discriminate.
  - destruct (URL_href P (Common.strip_dot_slash u) Botech.BASE_URL);
      intros H; inversion H; discriminate.
Qed.

Lemma toAbs_part001_not_null P (u : string) r :
  (u =? "") = false -> Part001.toAbs P (Some u) = Ok r -> r <> None.
Proof.
  unfold Part001.toAbs. intros ->.
  destruct (JS.startsWith "http://" u || JS.startsWith "https://" u).
  - intros H. inversion H. discriminate.
  - destruct (JS.startsWith "/" u).
    + destruct (URL_href P u Part001.BASE); intros H; inversion H; discriminate.
    + intros H. inversion H. discriminate.
Qed.

Lemma foldR_inv_in {A S : Type} (f : S -> A -> Result S) (Inv : S -> Prop) (l : list A) :
  (forall s x s', In x l -> Inv s -> f s x = Ok s' -> Inv s') ->
  forall s s', Inv s -> Common.foldR f l s = Ok s' -> Inv s'.
Proof.
  induction l as [|x l IH]; intros Hf s s' Hs; cbn [Common.foldR].
  - intros H. inversion H. subst. exact Hs.
  - destruct (f s x) as [s1|e] eqn:E; cbn [bindR]; [|discriminate].
    apply IH.
    + intros s0 x0 s0' Hin. apply Hf. right. exact Hin.
    + exact (Hf _ _ _ (or_introl eq_refl) Hs E).
Qed.

Lemma somes_In {A : Type} (l : list (option A)) (x : A) :
  In x (Common.somes l) -> In (Some x) l.
Proof.
  induction l as [|[y|] l IH]; cbn [Common.somes]; [tauto | |].
  - intros [-> | H]; [left; reflexivity | right; exact (IH H)].
  - intros H. right. exact (IH H).
Qed.

Lemma extractProductLinks_links P html links :
  Botech.extractProductLinks P html = Ok links ->
  NoDup links
  /\ Forall (fun l => exists el href,
                 In el (cheerio_select P html Common.SEL_CARD_LINK)
                 /\ Common.attr el "href" = Some href
                 /\ Common.isProductHref href = true
                 /\ Botech.toAbs P (Some href) = Ok l) links.
Proof.
  unfold Botech.extractProductLinks. intros H. apply bindR_ok_inv in H.
  destruct H as (links0 & H0 & H). inversion H.
  split; [apply uniq_NoDup, opt_eqb_eq|].
  apply Forall_uniq; [apply opt_eqb_eq|].
  revert H0. apply mapR_Forall. intros href r Hhref Hr.
  apply filter_In in Hhref. destruct Hhref as [Hin Hp].
  apply somes_In, in_map_iff in Hin. destruct Hin as (el & Hel & Hin).
  exists el, href. auto.
Qed.

Lemma getProductLinksFromCategory_links P html links :
  Part001.getProductLinksFromCategory P html = Ok links ->
  NoDup links
  /\ Forall (fun l => exists el href,
                 In el (cheerio_select P html Common.SEL_CARD_LINK)
                 /\ Common.attr el "href" = Some href
                 /\ Common.isProductHref href = true
                 /\ Part001.toAbs P (Some href) = Ok l) links.
Proof.
  unfold Part001.getProductLinksFromCategory. intros H. apply bindR_ok_inv in H.
  destruct H as (links0 & H0 & H). inversion H. rewrite uniq_same.
  split; [apply uniq_NoDup, opt_eqb_eq|].
  apply Forall_uniq; [apply opt_eqb_eq|].
  revert H0. apply foldR_inv_in; [|constructor].
  intros s el s' Hel Hs.
  destruct (Common.attr el "href") as [href|] eqn:Hattr;
    [|intros E; inversion E; subst; exact Hs].
  destruct (JS.truthy (Some href) && Common.isProductHref href) eqn:E;
    [|intros E'; inversion E'; subst; exact Hs].
  apply andb_true_iff in E. destruct E as [_ E].
  intros Hf. apply bindR_ok_inv in Hf. destruct Hf as (abs & Habs & Hf). inversion Hf.
  apply Forall_app. split; [exact Hs|]. constructor; [|constructor].
  exists el, href. auto.
Qed.

Lemma Forall_concat {A : Type} (Q : A -> Prop) (ls : list (list A)) :
  Forall (Forall Q) ls -> Forall Q (List.concat ls).
Proof.
  induction 1 as [|l ls Hl Hls IH]; cbn [List.concat]; [constructor|].
  apply Forall_app. split; assumption.
Qed.

Lemma allImages_botech_images P thumbs pages imgs :
  Forall (fun u => Common.isImageUrl u = true) thumbs ->
  Botech.allImages P thumbs pages = Ok imgs ->
  Forall (fun u => Common.isImageUrl u = true) imgs.
Proof.
  intros Ht H. apply allImages_botech_spec in H. destruct H as (pimgs & Hp & ->).
  apply Forall_uniq; [apply string_eqb_eq|]. apply Forall_app. split; [exact Ht|].
  unfold Botech.productImages in Hp. apply bindR_ok_inv in Hp.
  destruct Hp as (ls & Hls & Hp). inversion Hp. apply Forall_concat.
  revert Hls. apply mapR_Forall. intros page urls _ Hu.
  exact (proj2 (extractProductImages_images P page urls Hu)).
Qed.

Lemma allImages_part001_images P thumbs pages imgs :
  Forall (fun u => Common.isImageUrl u = true) thumbs ->
  Part001.allImages P thumbs pages = Ok imgs ->
  Forall (fun u => Common.isImageUrl u = true) imgs.
Proof.
  intros Ht H. apply allImages_part001_spec in H. destruct H as (pimgs & Hp & ->).
  rewrite ?uniq_same. apply Forall_uniq; [apply string_eqb_eq|].
  apply Forall_app. split; [exact Ht|].
  unfold Part001.productImages in Hp. revert Hp. apply foldR_inv; [|constructor].
  intros s p s' Hs. destruct (negb (JS.truthy (Some (Part001.page_html p))));
    [intros E; inversion E; subst; exact Hs|].
  intros Hf. apply bindR_ok_inv in Hf. destruct Hf as (urls & Hu & Hf). inversion Hf.
  apply Forall_app. split; [exact Hs|].
  exact (proj2 (getProductImages_images P _ urls Hu)).
Qed.

Lemma collectImages_botech_parts P categoryName relativePath w w' imgs links :
  Botech.collectImages P categoryName relativePath w = (w', Ok (imgs, links)) ->
  exists html thumbs pages,
    Botech.extractCategoryImages P html = Ok thumbs
    /\ Botech.extractProductLinks P html = Ok links
    /\ Botech.allImages P thumbs pages = Ok imgs.
Proof.
  unfold Botech.collectImages. intros H. split_run H.
  apply lift_ok_inv in Hstep3, Hstep4, Hstep6.
  destruct Hstep3 as [H3 _], Hstep4 as [H4 _], Hstep6 as [H6 _].
  match goal with E : (_, _) = (imgs, links) |- _ => inversion E; subst end.
  eauto 6.
Qed.

Lemma collectImages_part001_parts P categoryName relativePath w w' imgs links :
  Part001.collectImages P categoryName relativePath w = (w', Ok (imgs, links)) ->
  exists html thumbs pages,
    Part001.getCategoryPageImageUrls P html = Ok thumbs
    /\ Part001.getProductLinksFromCategory P html = Ok links
    /\ Part001.allImages P thumbs pages = Ok imgs.
Proof.
  unfold Part001.collectImages. intros H. split_run H.
  apply lift_ok_inv in Hstep3, Hstep4, Hstep6.
  destruct Hstep3 as [H3 _], Hstep4 as [H4 _], Hstep6 as [H6 _].
  match goal with E : (_, _) = (imgs, links) |- _ => inversion E; subst end.
  eauto 6.
Qed.

(** X9. Every list of URLs that an image extractor returns (the listing
    thumbnails and the product images, in either copy) holds no URL twice
    and holds only URLs that [isImageUrl] accepts; so does the final image
    set handed to the download phase. *)
Theorem extractors_return_image_urls :
  forall (P : Platform) (html : string),
    (forall urls, Botech.extractCategoryImages P html = Ok urls -> Names.image_list urls) /\
    (forall urls, Botech.extractProductImages P html = Ok urls -> Names.image_list urls) /\
    (forall urls, Part001.getCategoryPageImageUrls P html = Ok urls -> Names.image_list urls) /\
    (forall urls, Part001.getProductImages P html = Ok urls -> Names.image_list urls) /\
    (forall categoryName relativePath w w' imgs links,
        Botech.collectImages P categoryName relativePath w = (w', Ok (imgs, links)) ->
        Names.image_list imgs) /\
    (forall categoryName relativePath w w' imgs links,
        Part001.collectImages P categoryName relativePath w = (w', Ok (imgs, links)) ->
        Names.image_list imgs).
Proof.
  intros P html.
  split; [intros urls; apply extractCategoryImages_images|].
  split; [intros urls; apply extractProductImages_images|].
  split; [intros urls; apply getCategoryPageImageUrls_images|].
  split; [intros urls; apply getProductImages_images|].
  split.
  - intros categoryName relativePath w w' imgs links H.
    apply collectImages_botech_parts in H. destruct H as (page & thumbs & pages & Ht & _ & Ha).
    split.
    + apply allImages_botech_spec in Ha. destruct Ha as (pimgs & _ & ->).
      apply uniq_NoDup, string_eqb_eq.
    + apply (allImages_botech_images P thumbs pages); [|exact Ha].
      exact (proj2 (extractCategoryImages_images P page thumbs Ht)).
  - intros categoryName relativePath w w' imgs links H.
    apply collectImages_part001_parts in H. destruct H as (page & thumbs & pages & Ht & _ & Ha).
    split.
    + apply allImages_part001_spec in Ha. destruct Ha as (pimgs & _ & ->).
      rewrite ?uniq_same. apply uniq_NoDup, string_eqb_eq.
    + apply (allImages_part001_images P thumbs pages); [|exact Ha].
      exact (proj2 (getCategoryPageImageUrls_images P page thumbs Ht)).
Qed.

(** X9 on the site: the first product page yields two image URLs. *)
Lemma extractors_on_site :
  Names.image_list ["https://www.botech.ma/images/produits/berceau-1.jpg";
                    "https://www.botech.ma/images/produits/a/lit.jpg"] /\
  Names.image_list Site.images.
Proof.
  destruct (extractors_return_image_urls Site.platform Site.PRODUCT_1)
    as (_ & HA & _ & _ & HC & _).
  split.
  - apply HA. vm_compute. reflexivity.
  - apply (HC "Berceaux" "prod/berceaux-maroc" Site.fresh
              (fst (Botech.collectImages Site.platform "Berceaux" "prod/berceaux-maroc"
                      Site.fresh)) Site.images Site.links).
    vm_compute. reflexivity.
Defined.

(** X10. The product links that a listing page yields are pairwise
    distinct, and each of them is what [toAbs] returned for the [href]
    of a matched anchor that contains [details/] or [prod/] in some
    letter case; none of them is null.  This holds in either copy. *)
Theorem product_links_come_from_product_hrefs :
  forall (P : Platform) (html : string),
    let from_href (toAbs : option string -> Result (option string)) (l : option string) :=
      l <> None /\
      exists el href,
        In el (cheerio_select P html Common.SEL_CARD_LINK)
        /\ Common.attr el "href" = Some href
        /\ Common.isProductHref href = true
        /\ toAbs (Some href) = Ok l in
    (forall links,
        Botech.extractProductLinks P html = Ok links ->
        NoDup links /\ Forall (from_href (Botech.toAbs P)) links) /\
    (forall links,
        Part001.getProductLinksFromCategory P html = Ok links ->
        NoDup links /\ Forall (from_href (Part001.toAbs P)) links).
Proof.
  intros P html from_href. unfold from_href. split; intros links H.
  - apply extractProductLinks_links in H. destruct H as [Hn Hf]. split; [exact Hn|].
    revert Hf. apply Forall_impl. intros l (el & href & H1 & H2 & H3 & H4).
    split; [|exists el, href; auto].
    exact (toAbs_botech_not_null P href l (isProductHref_not_empty href H3) H4).
  - apply getProductLinksFromCategory_links in H. destruct H as [Hn Hf]. split; [exact Hn|].
    revert Hf. apply Forall_impl. intros l (el & href & H1 & H2 & H3 & H4).
    split; [|exists el, href; auto].
    exact (toAbs_part001_not_null P href l (isProductHref_not_empty href H3) H4).
Qed.

(** X10 on the site: the listing names four product anchors, one of them
    twice, and one anchor that is no product link. *)
Lemma product_links_on_site :
  NoDup Site.links /\ ~ In None Site.links.
Proof.
  destruct (product_links_come_from_product_hrefs Site.platform Site.LISTING) as [HA _].
  destruct (HA Site.links) as [Hn Hf]; [vm_compute; reflexivity|].
  split; [exact Hn|]. intros Hin.
  exact (proj1 (proj1 (Forall_forall _ _) Hf None Hin) eq_refl).
Defined.

(** ** When the listing or the output directory is out of reach *)

Lemma bindM_ok {A B : Type} (m : M A) (k : A -> M B) w w1 a :
  m w = (w1, Ok a) -> bindM m k w = k a w1.
Proof. intros H. unfold bindM. rewrite H. reflexivity. Qed.

Lemma bindM_throw {A B : Type} (m : M A) (k : A -> M B) w w1 e :
  m w = (w1, Throw e) -> bindM m k w = (w1, Throw e).
Proof. intros H. unfold bindM. rewrite H. reflexivity. Qed.

(** A page that is never served costs [fetchWithRetry] its three
    attempts. *)
Lemma fetchWithRetry_never_served P url w :
  Spec.never_served P url ->
  exists e,
    Common.fetchWithRetry P url [] 1 w
    = (mkWorld (paths w) (trace w ++ Spec.attempts (PageGet url []) 1 Common.MAX_RETRIES),
       Throw e).
Proof.
  intros Hnever.
  destruct (fetchWithRetry_run P url [] (S Common.MAX_RETRIES) 1 w
              ltac:(unfold Common.MAX_RETRIES; lia)) as (k & Hk1 & Hk2 & Hw & Hr).
  destruct (fetchWithRetry_outcome P url w) as (w' & r & Hrun & _ & _ & Hthrow & _).
  destruct (Hthrow Hnever) as [e ->]. rewrite Hrun in Hw, Hr. cbn [fst snd] in Hw, Hr.
  assert (Hk : k = Common.MAX_RETRIES).
  { destruct Hr as [[body Hb] | Hlt]; [discriminate Hb|].
    unfold Common.MAX_RETRIES in *. lia. }
  exists e. rewrite Hrun, Hw, Hk. reflexivity.
Qed.

(** X11. When the listing page of a category is never served,
    [scrapeCategory] creates the category folder, logs the category,
    asks for the listing three times with waits of 1200 ms and 2400 ms,
    and then throws the failure of the request: it extracts nothing,
    fetches no product page and downloads nothing. *)
Theorem scrapeCategory_fails_with_its_listing :
  forall (P : Platform) (categoryName relativePath : string) (categoryUrl : option string)
         (w : World),
    fs_mkdir P (trace w) (Botech.folderOf P categoryName) = None ->
    Botech.toAbs P (Some relativePath) = Ok categoryUrl ->
    Part001.toAbs P (Some relativePath) = Ok categoryUrl ->
    Spec.never_served P categoryUrl ->
    let folder := Botech.folderOf P categoryName in
    let requests := Spec.attempts (PageGet categoryUrl []) 1 Common.MAX_RETRIES in
    exists e e',
      Botech.scrapeCategory P categoryName relativePath w
      = (mkWorld (folder :: paths w)
           (trace w ++ [EvMkdir folder; EvLog ["==>"; categoryName; show categoryUrl]]
              ++ requests), Throw e) /\
      Part001.scrapeCategory P categoryName relativePath w
      = (mkWorld (folder :: paths w)
           (trace w ++ [EvMkdir folder; EvLog ["==> Category:"; categoryName; show categoryUrl]]
              ++ requests), Throw e').
Proof.
  intros P categoryName relativePath categoryUrl w Hdir HA HB Hnever folder requests.
  pose proof (ensureDir_ok P folder w Hdir) as Hmk.
  set (w0 := mkWorld (folder :: paths w) (trace w ++ [EvMkdir folder])) in Hmk.
  destruct (fetchWithRetry_never_served P categoryUrl
              (mkWorld (paths w0)
                 (trace w0 ++ [EvLog ["==>"; categoryName; show categoryUrl]])) Hnever)
    as [e He].
  destruct (fetchWithRetry_never_served P categoryUrl
              (mkWorld (paths w0)
                 (trace w0 ++ [EvLog ["==> Category:"; categoryName; show categoryUrl]])) Hnever)
    as [e' He'].
  exists e, e'. split.
  - unfold Botech.scrapeCategory, Botech.collectImages. fold folder.
    erewrite bindM_throw; [reflexivity|].
    erewrite bindM_ok by exact Hmk.
    erewrite bindM_ok by (rewrite HA; reflexivity).
    erewrite bindM_ok by reflexivity.
    erewrite bindM_throw by exact He.
    cbn [paths trace w0]. rewrite <- !app_assoc. reflexivity.
  - unfold Part001.scrapeCategory, Part001.collectImages.
    change (Part001.folderOf P categoryName) with folder.
    erewrite bindM_throw; [reflexivity|].
    erewrite bindM_ok by exact Hmk.
    erewrite bindM_ok by (rewrite HB; reflexivity).
    erewrite bindM_ok by reflexivity.
    erewrite bindM_throw by exact He'.
    cbn [paths trace w0]. rewrite <- !app_assoc. reflexivity.
Qed.

(** X11 on the site: the listing of the hospital beds is never served. *)
Lemma unreachable_listing_on_site :
  exists e,
    snd (Botech.scrapeCategory Site.platform "Lits hospitaliers" "cat/lits-hospitaliers-maroc"
           Site.fresh) = Throw e /\
    Log.requests
      (trace (fst (Botech.scrapeCategory Site.platform "Lits hospitaliers"
                     "cat/lits-hospitaliers-maroc" Site.fresh)))
    = repeat (PageGet (Some "https://www.botech.ma/cat/lits-hospitaliers-maroc") []) 3.
Proof.
  destruct (scrapeCategory_fails_with_its_listing Site.platform "Lits hospitaliers"
              "cat/lits-hospitaliers-maroc"
              (Some "https://www.botech.ma/cat/lits-hospitaliers-maroc") Site.fresh)
    as (e & e' & HA & _).
  - reflexivity.
  - vm_compute. reflexivity.
  - vm_compute. reflexivity.
  - intros history. eexists. reflexivity.
  - exists e. rewrite HA. split; reflexivity.
Defined.

(** X12. When the output directory cannot be created, [main] throws the
    error of [ensureDir] at once, in either copy: no line is logged, no
    category is tried and no request is sent; the process of part_001
    reports the error and ends with exit code 1.  The exit code of
    part_001 is 1 in that case only. *)
Theorem main_stops_without_output_directory :
  forall (P : Platform) (w : World),
    (forall e,
        fs_mkdir P (trace w) (OUTPUT_DIR P) = Some e ->
        let stopped := mkWorld (paths w) (trace w ++ [EvMkdir (OUTPUT_DIR P)]) in
        Botech.main P w = (stopped, Throw e) /\
        Part001.main P w = (stopped, Throw e) /\
        Part001.run P w
        = (mkWorld (paths w) (trace w ++ [EvMkdir (OUTPUT_DIR P); EvError [message e]]), 1)) /\
    (snd (Part001.run P w) = 1 <-> fs_mkdir P (trace w) (OUTPUT_DIR P) <> None).
Proof.
  intros P w.
  assert (Hfail : forall e,
             fs_mkdir P (trace w) (OUTPUT_DIR P) = Some e ->
             Botech.main P w
             = (mkWorld (paths w) (trace w ++ [EvMkdir (OUTPUT_DIR P)]), Throw e) /\
             Part001.main P w
             = (mkWorld (paths w) (trace w ++ [EvMkdir (OUTPUT_DIR P)]), Throw e)).
  { intros e He.
    assert (Hmk : ensureDir P (OUTPUT_DIR P) w
                  = (mkWorld (paths w) (trace w ++ [EvMkdir (OUTPUT_DIR P)]), Throw e)).
    { unfold ensureDir. rewrite He. reflexivity. }
    unfold Botech.main, Botech.main_over, Part001.main, Part001.main_over.
    split; (erewrite bindM_throw by exact Hmk; reflexivity). }
  split.
  - intros e He stopped. destruct (Hfail e He) as [HA HB].
    split; [exact HA|]. split; [exact HB|].
    unfold Part001.run. rewrite HB. cbn [console_error emit fst paths trace].
    rewrite <- app_assoc. reflexivity.
  - destruct (fs_mkdir P (trace w) (OUTPUT_DIR P)) as [e|] eqn:He.
    + destruct (Hfail e eq_refl) as [_ HB]. unfold Part001.run. rewrite HB. cbn [snd].
      split; [discriminate | reflexivity].
    + split; [|intros H; exfalso; apply H; reflexivity].
      unfold Part001.run, Part001.main, Part001.main_over.
      erewrite bindM_ok by (apply ensureDir_ok; exact He).
      erewrite bindM_ok by reflexivity.
      destruct (for_each_returns (Part001.scrapeCategory P) (Part001.attemptCategory P)
                  (fun name rel => eq_refl) Common.CATEGORIES
                  (mkWorld (paths (mkWorld (OUTPUT_DIR P :: paths w)
                                     (trace w ++ [EvMkdir (OUTPUT_DIR P)])))
                     (trace (mkWorld (OUTPUT_DIR P :: paths w)
                               (trace w ++ [EvMkdir (OUTPUT_DIR P)]))
                        ++ [EvLog ["Saving into:"; OUTPUT_DIR P]])))
        as (w' & Hrun).
      erewrite bindM_ok by exact Hrun. cbn [console_log emit snd]. discriminate.
Qed.

(** X12 on a disk where no directory can be made. *)
Lemma main_on_read_only_disk :
  snd (Part001.run Faults.read_only Site.fresh) = 1 /\
  Log.requests (trace (fst (Part001.run Faults.read_only Site.fresh))) = [].
Proof.
  destruct (main_stops_without_output_directory Faults.read_only Site.fresh) as [H _].
  destruct (H (FsError "EACCES: permission denied, mkdir") eq_refl) as (_ & _ & Hrun).
  rewrite Hrun. split; reflexivity.
Defined.

(** ** Where the files go *)

Lemma fileNameFor_plain categoryName u idx :
  Spec.plain_segment (fst (Botech.fileNameFor categoryName u idx)).
Proof.
  rewrite fileNameFor_cases. destruct (Spec.usesFallback u) eqn:E; cbn [fst].
  - apply syntheticName_plain, extFromUrl_known.
  - apply urlName_plain. exact E.
Qed.

Lemma append_cancel_r (a b c : string) : a ++ c = b ++ c -> a = b.
Proof.
  intros H. apply (f_equal JS.rev) in H. rewrite !rev_app in H.
  apply append_cancel_l in H. apply (f_equal JS.rev) in H.
  rewrite !rev_involutive in H. exact H.
Qed.

Lemma normalize_plain_tail_form (folder : string) :
  exists C,
    (C = "" \/ exists C', C = C' ++ "/")
    /\ forall n, Spec.plain_segment n -> NodePath.normalize (folder ++ "/" ++ n) = C ++ n.
Proof.
  destruct (normalize_plain_tail folder) as [C HC].
  destruct (normalize_segments_app
              (negb (JS.startsWith "/" (folder ++ "/")))
              (JS.split_on NodePath.slash folder) []) as [st' Hst].
  exists C. split; [|exact HC].
  assert (Ha : Spec.plain_segment "a") by (repeat split; discriminate).
  specialize (HC "a" Ha). unfold NodePath.normalize in HC.
  assert (Hne : (folder ++ "/" ++ "a" =? "") = false).
  { apply String.eqb_neq. intros E. apply append_eq_nil in E. discriminate. }
  rewrite Hne in HC.
  assert (Habs : JS.startsWith "/" (folder ++ "/" ++ "a") = JS.startsWith "/" (folder ++ "/")).
  { destruct folder as [|c f]; cbn [append]; rewrite !startsWith_slash_cons; reflexivity. }
  rewrite Habs in HC.
  assert (Htrail : JS.startsWith "/" (JS.rev (folder ++ "/" ++ "a")) = false).
  { rewrite rev_app. reflexivity. }
  rewrite Htrail in HC.
  change ("/" ++ "a") with (String NodePath.slash "a") in HC. rewrite split_on_app in HC.
  rewrite (split_on_none NodePath.slash "a") in HC by reflexivity.
  rewrite Hst, normalize_segments_plain in HC by exact Ha.
  rewrite join_snoc in HC.
  set (pre := match List.rev st' with [] => "" | _ => JS.join "/" (List.rev st') ++ "/" end)
    in HC.
  assert (Hbody : (pre ++ "a" =? "") = false).
  { apply String.eqb_neq. intros E. apply append_eq_nil in E. discriminate. }
  cbv zeta in HC. rewrite Hbody in HC. rewrite append_nil_r, <- append_assoc in HC.
  apply append_cancel_r in HC. subst C. unfold pre.
  destruct (JS.startsWith "/" (folder ++ "/")), (List.rev st') as [|s0 l0].
  - right. exists "". reflexivity.
  - right. exists ("/" ++ JS.join "/" (s0 :: l0)). rewrite append_assoc. reflexivity.
  - left. reflexivity.
  - right. exists (JS.join "/" (s0 :: l0)). reflexivity.
Qed.

Lemma join_plain_form (folder : string) :
  exists C,
    (C = "" \/ exists C', C = C' ++ "/")
    /\ forall n, Spec.plain_segment n -> NodePath.join folder n = C ++ n.
Proof.
  destruct (String.eqb_spec folder "") as [-> | Hf].
  - exists "". split; [left; reflexivity|]. intros n Hn. unfold NodePath.join. simpl.
    assert (H0 : (n =? "") = false) by (apply String.eqb_neq, plain_nonempty, Hn).
    rewrite H0. apply normalize_plain. exact Hn.
  - destruct (normalize_plain_tail_form folder) as (C & Hform & HC).
    exists C. split; [exact Hform|]. intros n Hn. unfold NodePath.join.
    apply String.eqb_neq in Hf. rewrite Hf.
    assert (H0 : (n =? "") = false) by (apply String.eqb_neq; apply plain_nonempty; exact Hn).
    rewrite H0.
    assert (Hne : (folder ++ "/" ++ n =? "") = false).
    { apply String.eqb_neq. intros E. apply append_eq_nil in E. discriminate. }
    rewrite Hne. apply HC. exact Hn.
Qed.

Lemma before_char_stop c (a b : string) :
  JS.forall_chars (fun x => negb (Ascii.eqb x c)) a = true ->
  JS.before_char c (a ++ String c b) = a.
Proof.
  induction a as [|x a IH]; cbn [append JS.before_char JS.forall_chars].
  - rewrite Ascii.eqb_refl. reflexivity.
  - intros H. apply andb_true_iff in H. destruct H as [Hx Ha].
    apply negb_true_iff in Hx. rewrite Hx, (IH Ha). reflexivity.
Qed.

Lemma before_char_none c (a : string) :
  JS.forall_chars (fun x => negb (Ascii.eqb x c)) a = true -> JS.before_char c a = a.
Proof.
  induction a as [|x a IH]; cbn [JS.before_char JS.forall_chars]; [reflexivity|].
  intros H. apply andb_true_iff in H. destruct H as [Hx Ha].
  apply negb_true_iff in Hx. rewrite Hx, (IH Ha). reflexivity.
Qed.

Lemma strip_trailing_plain_end (p n : string) :
  Spec.plain_segment n -> JS.strip_trailing NodePath.is_slash (p ++ n) = p ++ n.
Proof.
  intros Hn. unfold JS.strip_trailing. rewrite rev_app.
  destruct (plain_last_char n Hn) as (c & r & E & Hc). rewrite E. cbn [append JS.drop_while].
  unfold NodePath.is_slash at 1. rewrite Hc.
  change (String c (r ++ JS.rev p)) with (String c r ++ JS.rev p).
  rewrite <- E, <- rev_app, rev_involutive. reflexivity.
Qed.

Lemma basename_of_join (folder n : string) :
  Spec.plain_segment n -> NodePath.basename (NodePath.join folder n) = n.
Proof.
  intros Hn. destruct (join_plain_form folder) as (C & Hform & HC). rewrite (HC n Hn).
  unfold NodePath.basename. rewrite strip_trailing_plain_end by exact Hn.
  assert (Hrev : JS.forall_chars (fun x => negb (Ascii.eqb x NodePath.slash)) (JS.rev n) = true).
  { rewrite forall_chars_rev. apply plain_no_slash. exact Hn. }
  destruct Hform as [-> | [C' ->]].
  - cbn [append]. rewrite before_char_none by exact Hrev. apply rev_involutive.
  - rewrite append_assoc, rev_app. change ("/" ++ n) with (String "/" n).
    rewrite rev_cons, append_assoc. cbn [append].
    change "/"%char with NodePath.slash.
    rewrite before_char_stop by exact Hrev. apply rev_involutive.
Qed.

(** X13. Every destination of the download phase is a file directly
    inside the category folder: it is the folder joined with a single
    path segment (not empty, not [.] or [..], without a separator), that
    segment is its base name, and all destinations of a category share
    the text in front of it.  The two copies compute the same
    destinations. *)
Theorem destinations_are_files_of_the_folder :
  forall (folder categoryName : string) (imgs : list string) (idx : nat),
    Part001.destinations folder categoryName imgs idx
    = Botech.destinations folder categoryName imgs idx /\
    exists C,
      (C = "" \/ exists C', C = C' ++ "/") /\
      Forall (fun d => exists n,
                  Spec.plain_segment n
                  /\ d = NodePath.join folder n
                  /\ d = C ++ n
                  /\ NodePath.basename d = n)
        (Botech.destinations folder categoryName imgs idx).
Proof.
  intros folder categoryName imgs idx. split; [apply destinations_same|].
  destruct (join_plain_form folder) as (C & Hform & HC).
  exists C. split; [exact Hform|].
  revert idx. induction imgs as [|u imgs IH]; intros idx; cbn [Botech.destinations].
  - constructor.
  - pose proof (fileNameFor_plain categoryName u idx) as Hn.
    destruct (Botech.fileNameFor categoryName u idx) as [fileName idx']. cbn [fst] in Hn.
    constructor; [|apply IH].
    exists fileName. split; [exact Hn|]. split; [reflexivity|].
    split; [apply HC; exact Hn | apply basename_of_join; exact Hn].
Qed.

Lemma fallbacks_cons (u : string) (l : list string) :
  Names.fallbacks (u :: l)
  = (if Spec.usesFallback u then 1 else 0) + Names.fallbacks l.
Proof.
  unfold Names.fallbacks. cbn [filter]. destruct (Spec.usesFallback u); reflexivity.
Qed.

(** X14. The sequence numbers of the synthetic names follow the order of
    the image list without gaps: the image at position [i] that has no
    usable name of its own gets the start value of the counter plus the
    number of such images before it, whether or not any of them is
    downloaded or skipped; an image with a usable name keeps it. *)
Theorem synthetic_names_are_numbered_in_order :
  forall (folder categoryName : string) (imgs : list string) (idx i : nat),
    nth_error (Botech.destinations folder categoryName imgs idx) i
    = option_map
        (fun u =>
           NodePath.join folder
             (if Spec.usesFallback u
              then Common.syntheticName categoryName
                     (idx + Names.fallbacks (firstn i imgs)) (Common.extFromUrl u)
              else Spec.urlName u))
        (nth_error imgs i).
Proof.
  intros folder categoryName imgs. induction imgs as [|u imgs IH]; intros idx i.
  - destruct i; reflexivity.
  - cbn [Botech.destinations]. rewrite fileNameFor_cases.
    destruct i as [|i].
    + cbn [firstn nth_error option_map]. unfold Names.fallbacks. cbn [filter List.length].
      rewrite Nat.add_0_r. destruct (Spec.usesFallback u); reflexivity.
    + cbn [firstn]. rewrite fallbacks_cons.
      destruct (Spec.usesFallback u); cbn [nth_error]; rewrite IH;
        destruct (nth_error imgs i) as [v|]; cbn [option_map]; try reflexivity.
      * replace (S idx + Names.fallbacks (firstn i imgs))
          with (idx + (1 + Names.fallbacks (firstn i imgs))) by lia. reflexivity.
Qed.

(** ** How many pages are asked for *)
















(** ** The attempt argument *)

(** X16. The third argument of [fetchWithRetry] and of [downloadFile]
    counts the attempts already made: a call that starts at [attempt]
    makes at most [MAX_RETRIES + 1 - attempt] attempts and at least one,
    the wait after a failed attempt being 1200 ms times its number.  In
    particular a call that starts at [MAX_RETRIES] or above makes a
    single attempt and never waits. *)
Theorem attempt_argument_counts_attempts_made :
  forall (P : Platform) (url : option string) (opts : Options) (asset dest : string)
         (attempt : nat) (w : World),
    (exists k,
        1 <= k /\ attempt + k <= Nat.max (S attempt) (S Common.MAX_RETRIES)
        /\ (Common.MAX_RETRIES <= attempt -> k = 1)
        /\ fst (Common.fetchWithRetry P url opts attempt w)
           = mkWorld (paths w) (trace w ++ Spec.attempts (PageGet url opts) attempt k)) /\
    (exists k,
        1 <= k /\ attempt + k <= Nat.max (S attempt) (S Common.MAX_RETRIES)
        /\ (Common.MAX_RETRIES <= attempt -> k = 1)
        /\ Log.mkdirs (Log.since w (fst (Common.downloadFile P asset dest attempt w)))
           = repeat (NodePath.dirname dest) k
        /\ Log.sleeps (Log.since w (fst (Common.downloadFile P asset dest attempt w)))
           = Log.delays attempt k
        /\ List.length
             (Log.requests (Log.since w (fst (Common.downloadFile P asset dest attempt w))))
           <= k).
Proof.
  intros P url opts asset dest attempt w. split.
  - destruct (fetchWithRetry_run P url opts (S (Common.MAX_RETRIES - attempt)) attempt w
                ltac:(lia)) as (k & Hk1 & Hk2 & Hw & _).
    exists k. repeat split; try assumption. unfold Common.MAX_RETRIES in *. lia.
  - destruct (downloadFile_run P asset dest (S (Common.MAX_RETRIES - attempt)) attempt w
                ltac:(lia))
      as (w' & r & evs & k & Hrun & Htr & _ & _ & Hk1 & Hk2 & Hmd & Hsl & _ & Hout).
    rewrite Hrun. cbn [fst]. rewrite (since_app _ _ _ Htr).
    exists k. repeat split; try assumption; [unfold Common.MAX_RETRIES in *; lia|].
    destruct Hout as [(e & h & _ & _ & Hq & _) | [(_ & Hq & _) | (_ & Hq & _)]];
      rewrite Hq, repeat_length; lia.
Qed.

(** X5 on a disk that takes no file: three requests, one report, and the
    call returns. *)
Lemma downloadFile_on_full_disk :
  snd (Common.downloadFile Faults.disk_full "https://www.botech.ma/images/produits/a/lit.jpg"
         "/srv/botech_images/Berceaux/lit.jpg" 1 Site.fresh) = Ok tt /\
  List.length
    (Log.requests
       (Log.since Site.fresh
          (fst (Common.downloadFile Faults.disk_full
                  "https://www.botech.ma/images/produits/a/lit.jpg"
                  "/srv/botech_images/Berceaux/lit.jpg" 1 Site.fresh)))) = 3.
Proof.
  destruct (downloadFile_policy Faults.disk_full
              "https://www.botech.ma/images/produits/a/lit.jpg"
              "/srv/botech_images/Berceaux/lit.jpg" Site.fresh)
    as (k & _ & _ & _ & _ & _ & Hout).
  split; [vm_compute; reflexivity|].
  destruct Hout as [(e & h & Hh & _) | [(_ & _ & Herr & _) | (_ & Hrq & Hk & _)]].
  - discriminate Hh.
  - vm_compute in Herr. discriminate Herr.
  - rewrite Hrq, Hk. reflexivity.
Defined.

(** X17. The folder of a category lies directly inside the output
    directory: its base name is the sanitized category name, which is a
    single path segment.  The one exception is a category name of which
    [safeFileName] keeps nothing; its folder is the output directory
    itself.  Both copies compute the same folder. *)
Theorem category_folder_is_inside_output_directory :
  forall (P : Platform) (categoryName : string),
    Part001.folderOf P categoryName = Botech.folderOf P categoryName /\
    ((Common.safeFileName categoryName = ""
      /\ Botech.folderOf P categoryName = NodePath.join (OUTPUT_DIR P) "")
     \/ (Spec.plain_segment (Common.safeFileName categoryName)
         /\ NodePath.basename (Botech.folderOf P categoryName)
            = Common.safeFileName categoryName)).
Proof.
  intros P categoryName. split; [reflexivity|]. unfold Botech.folderOf.
  destruct (String.eqb_spec (Common.safeFileName categoryName) "") as [E | Hne].
  - left. rewrite E. auto.
  - right.
    assert (Hplain : Spec.plain_segment (Common.safeFileName categoryName)).
    { destruct (safeFileName_not_dots categoryName) as [H1 H2].
      repeat split; auto. apply safeFileName_no_slash. }
    split; [exact Hplain | apply basename_of_join; exact Hplain].
Qed.

(** ** Normalizing twice *)

Lemma drop_while_snoc p (s : string) (c : ascii) :
  p c = false -> JS.drop_while p (s ++ String c "") = JS.drop_while p s ++ String c "".
Proof.
  intros Hc. induction s as [|x s IH]; cbn [append JS.drop_while].
  - rewrite Hc. reflexivity.
  - destruct (p x); [exact IH | reflexivity].
Qed.

Lemma strip_trailing_cons p (c : ascii) (r : string) :
  p c = false -> JS.strip_trailing p (String c r) = String c (JS.strip_trailing p r).
Proof.
  intros Hc. unfold JS.strip_trailing.
  rewrite rev_cons, drop_while_snoc by exact Hc. rewrite rev_app. reflexivity.
Qed.

Lemma preprocess_slash (r : string) :
  exists r', WhatwgURL.preprocess (String "/" r) = String "/" r'.
Proof.
  unfold WhatwgURL.preprocess. cbn [JS.drop_while].
  change (WhatwgURL.c0_or_space "/") with false. cbv iota.
  rewrite strip_trailing_cons by reflexivity. cbn [JS.filter_chars].
  change (negb (WhatwgURL.tab_or_newline "/")) with true. cbv iota. eauto.
Qed.

Lemma preprocess_no_colon (s : string) :
  JS.forall_chars (fun c => negb (Ascii.eqb c ":")) s = true ->
  JS.forall_chars (fun c => negb (Ascii.eqb c ":")) (WhatwgURL.preprocess s) = true.
Proof.
  intros H. unfold WhatwgURL.preprocess.
  apply forall_chars_filter_keeps, forall_chars_strip_trailing, forall_chars_drop_while, H.
Qed.

Lemma authority_onwards_host (sch s : string) (u : WhatwgURL.URLRecord) :
  WhatwgURL.authority_onwards sch s = WhatwgURL.Parsed u ->
  WhatwgURL.scheme u = sch /\ WhatwgURL.host u <> None.
Proof.
  unfold WhatwgURL.authority_onwards, WhatwgURL.bind.
  destruct (WhatwgURL.authority_state _ _ _ _ _ _ _ _) as [[[user pass] hoststart]| |];
    try discriminate.
  destruct (WhatwgURL.host_state _ _ _ _ _) as [[[h p] rest]| |]; try discriminate.
  destruct (WhatwgURL.path_start_state _ _) as [[segs q] f].
  intros H. inversion H. cbn. split; [reflexivity | discriminate].
Qed.

(** A reference without a scheme keeps the scheme of the base and has a
    host. *)
Lemma relative_state_host (b u : WhatwgURL.URLRecord) (s : string) :
  Urls.https_with_host b ->
  WhatwgURL.relative_state b s = WhatwgURL.Parsed u -> Urls.https_with_host u.
Proof.
  intros [Hs Hh]. unfold Urls.https_with_host.
  assert (Hauth : forall t, WhatwgURL.authority_onwards (WhatwgURL.scheme b) t
                            = WhatwgURL.Parsed u ->
                            WhatwgURL.scheme u = "https" /\ WhatwgURL.host u <> None).
  { intros t H. apply authority_onwards_host in H. rewrite Hs in H. exact H. }
  unfold WhatwgURL.relative_state. destruct s as [|c r].
  - intros H. inversion H. cbn. auto.
  - destruct (WhatwgURL.is_separator _ c).
    + unfold WhatwgURL.relative_slash_state. destruct r as [|c' r'].
      * destruct (WhatwgURL.path_state _ _ _ _) as [[segs q] f].
        intros H. inversion H. cbn. auto.
      * destruct (WhatwgURL.is_special (WhatwgURL.scheme b)
                  && WhatwgURL.slash_or_backslash c').
        { unfold WhatwgURL.special_authority. apply Hauth. }
        destruct (Ascii.eqb c' "/"); [apply Hauth|].
        destruct (WhatwgURL.path_state _ _ _ _) as [[segs q] f].
        intros H. inversion H. cbn. auto.
    + destruct (Ascii.eqb c "?").
      * destruct (WhatwgURL.query_state _ r) as [q f]. intros H. inversion H. cbn. auto.
      * destruct (Ascii.eqb c "#"); [intros H; inversion H; cbn; auto|].
        destruct (WhatwgURL.path_state _ _ _ _) as [[segs q] f].
        intros H. inversion H. cbn. auto.
Qed.

Lemma startsWith_app (p x : string) : JS.startsWith p (p ++ x) = true.
Proof.
  unfold JS.startsWith. induction p as [|c p IH]; cbn [append].
  - destruct x; reflexivity.
  - cbn [String.prefix]. destruct (ascii_dec c c) as [_|N]; [exact IH | contradiction].
Qed.

Lemma serialize_https (u : WhatwgURL.URLRecord) :
  Urls.https_with_host u -> Urls.absolute (WhatwgURL.serialize u) = true.
Proof.
  intros [Hs Hh]. unfold WhatwgURL.serialize. rewrite Hs.
  destruct (WhatwgURL.host u) as [h|]; [|contradiction].
  unfold Urls.absolute. apply orb_true_iff. right. cbn [append].
  exact (startsWith_app "https://" _).
Qed.

(** What the parser modelled here returns for a reference in which no
    scheme can be read. *)
Lemma href_without_scheme (input h : string) :
  WhatwgURL.scheme_start_state (WhatwgURL.preprocess input) = None ->
  Site.URL_href input "https://www.botech.ma/" = Some h -> Urls.absolute h = true.
Proof.
  intros Hnone. unfold Site.URL_href, WhatwgURL.href. rewrite base_parsed.
  set (b := WhatwgURL.mkURL "https" "" "" (Some "www.botech.ma") None [""] None None None).
  assert (Hb : Urls.https_with_host b) by (split; [reflexivity | discriminate]).
  assert (Hparse : WhatwgURL.basic_parse input (Some b)
                   = WhatwgURL.relative_state b (WhatwgURL.preprocess input)).
  { unfold WhatwgURL.basic_parse. rewrite Hnone. reflexivity. }
  cbn [WhatwgURL.bind]. rewrite Hparse.
  destruct (WhatwgURL.relative_state b (WhatwgURL.preprocess input)) as [u| |] eqn:E;
    cbn [WhatwgURL.bind]; try discriminate.
  intros H. inversion H. apply serialize_https.
  exact (relative_state_host b u _ Hb E).
Qed.

Lemma absolute_not_empty (h : string) : Urls.absolute h = true -> (h =? "") = false.
Proof. destruct h; [discriminate | reflexivity]. Qed.

(** The parser modelled here reads no scheme where there is none. *)
Lemma site_keeps_scheme_of_base : Urls.keeps_scheme_of_base Site.platform.
Proof.
  intros input h Hin. cbn [URL_href Site.platform]. apply href_without_scheme.
  destruct Hin as [Hslash | Hcolon].
  - destruct input as [|c r]; [discriminate|].
    rewrite startsWith_slash_cons in Hslash. apply Ascii.eqb_eq in Hslash. subst c.
    change NodePath.slash with "/"%char.
    destruct (preprocess_slash r) as [r' ->]. reflexivity.
  - apply scheme_start_none, preprocess_no_colon. exact Hcolon.
Qed.

Lemma toAbs_part001_absolute P :
  Urls.keeps_scheme_of_base P ->
  forall v h, Part001.toAbs P v = Ok (Some h) -> Urls.absolute h = true.
Proof.
  intros HP [u|] h; [|discriminate]. unfold Part001.toAbs.
  destruct (u =? ""); [discriminate|].
  destruct (JS.startsWith "http://" u || JS.startsWith "https://" u) eqn:Hs.
  - intros H. inversion H. subst h. exact Hs.
  - destruct (JS.startsWith "/" u) eqn:Hslash.
    + destruct (URL_href P u Part001.BASE) as [h'|] eqn:E; [|discriminate].
      intros H. inversion H. subst h'. exact (HP u h (or_introl Hslash) E).
    + intros H. inversion H. unfold Urls.absolute. apply orb_true_iff. right.
      exact (startsWith_app "https://" _).
Qed.

Lemma pushIf_Forall (Q : string -> Prop) keep (urls : list string) (abs : option string) :
  (forall a, abs = Some a -> Q a) -> Forall Q urls -> Forall Q (Part001.pushIf keep urls abs).
Proof.
  intros Ha H. unfold Part001.pushIf. destruct abs as [a|]; [|exact H].
  destruct (JS.truthy (Some a) && keep a); [|exact H].
  apply Forall_app. split; [exact H | constructor; [apply Ha; reflexivity | constructor]].
Qed.

Lemma part001_images_absolute P :
  Urls.keeps_scheme_of_base P ->
  forall categoryName relativePath w w' imgs links,
    Part001.collectImages P categoryName relativePath w = (w', Ok (imgs, links)) ->
    Forall (fun u => Urls.absolute u = true) imgs.
Proof.
  intros HP categoryName relativePath w w' imgs links H.
  pose proof (toAbs_part001_absolute P HP) as Habs.
  assert (Hpush : forall keep html sel urls0 urls,
             Forall (fun u => Urls.absolute u = true) urls0 ->
             Common.foldR (fun urls el =>
                 bindR (Part001.toAbs P (Common.attr el "src")) (fun abs =>
                   Ok (Part001.pushIf keep urls abs)))
               (cheerio_select P html sel) urls0 = Ok urls ->
             Forall (fun u => Urls.absolute u = true) urls).
  { intros keep html sel urls0 urls H0. apply foldR_inv; [|exact H0].
    intros s el s' Hs Hf. apply bindR_ok_inv in Hf. destruct Hf as (abs & Ht & Hf).
    inversion Hf. apply pushIf_Forall; [|exact Hs].
    intros a ->. exact (Habs _ _ Ht). }
  apply collectImages_part001_parts in H. destruct H as (page & thumbs & pages & Ht & _ & Ha).
  apply allImages_part001_spec in Ha. destruct Ha as (pimgs & Hp & ->).
  rewrite ?uniq_same. apply Forall_uniq; [apply string_eqb_eq|]. apply Forall_app. split.
  - unfold Part001.getCategoryPageImageUrls in Ht. apply bindR_ok_inv in Ht.
    destruct Ht as (urls0 & Hfold & Ht). inversion Ht. rewrite uniq_same.
    apply Forall_uniq; [apply string_eqb_eq|]. revert Hfold. apply Hpush. constructor.
  - unfold Part001.productImages in Hp. revert Hp. apply foldR_inv; [|constructor].
    intros s p s' Hs. destruct (negb (JS.truthy (Some (Part001.page_html p))));
      [intros E; inversion E; subst; exact Hs|].
    intros Hf. apply bindR_ok_inv in Hf. destruct Hf as (urls & Hu & Hf). inversion Hf.
    apply Forall_app. split; [exact Hs|].
    unfold Part001.getProductImages in Hu. apply bindR_ok_inv in Hu.
    destruct Hu as (urls0 & Hfold0 & Hu). apply bindR_ok_inv in Hu.
    destruct Hu as (urls1 & Hfold1 & Hu). inversion Hu. rewrite uniq_same.
    apply Forall_uniq; [apply string_eqb_eq|]. revert Hfold1. apply Hpush.
    revert Hfold0. apply foldR_inv; [|constructor].
    intros s0 el s0' Hs0 Hf0. apply bindR_ok_inv in Hf0. destruct Hf0 as (abs & Ht0 & Hf0).
    inversion Hf0. apply pushIf_Forall; [|exact Hs0].
    intros a ->. exact (Habs _ _ Ht0).
Qed.

(** X18. Let the URL parser read no scheme where there is none, as the
    URL standard asks and as the parser modelled above does.  Then every
    string that part_001's [toAbs] returns starts with [http://] or
    [https://], and [toAbs] is idempotent: applied to its own result it
    returns that result.  Hence every URL of the final image set of
    part_001 starts with [http://] or [https://].  The [toAbs] of
    scrape-botech.js is idempotent on the references that contain no
    colon. *)
Theorem toAbs_is_idempotent :
  forall (P : Platform),
    Urls.keeps_scheme_of_base P ->
    forall (v r : option string),
      Part001.toAbs P v = Ok r ->
      (forall h, r = Some h -> Urls.absolute h = true) /\
      Part001.toAbs P r = Ok r /\
      (forall categoryName relativePath w w' imgs links,
          Part001.collectImages P categoryName relativePath w = (w', Ok (imgs, links)) ->
          Forall (fun u => Urls.absolute u = true) imgs) /\
      (forall u r',
          Urls.no_colon u = true ->
          Botech.toAbs P (Some u) = Ok r' ->
          Botech.toAbs P r' = Ok r').
Proof.
  intros P HP v r H.
  assert (Habs : forall h, r = Some h -> Urls.absolute h = true).
  { intros h ->. exact (toAbs_part001_absolute P HP v h H). }
  split; [exact Habs|]. split; [|split; [exact (part001_images_absolute P HP)|]].
  - destruct r as [h|]; [|reflexivity].
    pose proof (Habs h eq_refl) as Hh. unfold Part001.toAbs.
    rewrite (absolute_not_empty h Hh). unfold Urls.absolute in Hh. rewrite Hh. reflexivity.
  - intros u r' Hcolon. unfold Urls.no_colon in Hcolon. unfold Botech.toAbs at 1.
    destruct (u =? ""); [intros E; inversion E; reflexivity|].
    destruct (no_colon_no_scheme u Hcolon) as [Hci _]. rewrite Hci.
    destruct (URL_href P (Common.strip_dot_slash u) Botech.BASE_URL) as [h|] eqn:E;
      [|discriminate].
    intros E'. inversion E'. subst r'.
    assert (Hh : Urls.absolute h = true).
    { apply (HP (Common.strip_dot_slash u) h); [right | exact E].
      unfold Urls.no_colon, Common.strip_dot_slash.
      destruct (JS.startsWith "./" u); [apply forall_chars_drop; exact Hcolon|].
      destruct (JS.startsWith "/" u); [apply forall_chars_drop; exact Hcolon | exact Hcolon]. }
    unfold Botech.toAbs. rewrite (absolute_not_empty h Hh).
    rewrite (scheme_prefix_ci h Hh). reflexivity.
Qed.

(** X18 on the site. *)
Lemma toAbs_twice_on_site :
  Urls.keeps_scheme_of_base Site.platform /\
  Part001.toAbs Site.platform (Some "https://www.botech.ma/images/produits/berceau-1.jpg")
  = Ok (Some "https://www.botech.ma/images/produits/berceau-1.jpg") /\
  Forall (fun u => Urls.absolute u = true) Site.images.
Proof.
  split; [exact site_keeps_scheme_of_base|].
  destruct (toAbs_is_idempotent Site.platform site_keeps_scheme_of_base
              (Some "/images/produits/berceau-1.jpg")
              (Some "https://www.botech.ma/images/produits/berceau-1.jpg"))
    as (_ & Hidem & Himgs & _); [vm_compute; reflexivity|].
  split; [exact Hidem|].
  apply (Himgs "Berceaux" "prod/berceaux-maroc" Site.fresh
           (fst (Part001.collectImages Site.platform "Berceaux" "prod/berceaux-maroc"
                   Site.fresh)) Site.images Site.links).
  vm_compute. reflexivity.
Defined.

(** ** The two readings of the program *)

(** Run one invocation at a time, the processes are the functions of
    the first part. *)

Section InOrder.
Variable P : Platform.

Lemma alone_bind {A B : Type} (t : Async.Task A) (f : A -> Async.Task B) w :
  Async.alone P (Async.bind t f) w
  = bindM (Async.alone P t) (fun a => Async.alone P (f a)) w.
Proof.
  revert w. induction t as [[a|e]|X op k IH]; intros w; cbn [Async.bind Async.alone];
    unfold bindM; cbn [Async.alone]; try reflexivity.
  destruct (Async.perform P op w) as [w1 x]. rewrite IH. reflexivity.
Qed.

Lemma alone_try_catch {A : Type} (t : Async.Task A) (h : Error -> Async.Task A) w :
  Async.alone P (Async.try_catch t h) w
  = try_catch (Async.alone P t) (fun e => Async.alone P (h e)) w.
Proof.
  revert w. induction t as [[a|e]|X op k IH]; intros w; cbn [Async.try_catch Async.alone];
    unfold try_catch; cbn [Async.alone]; try reflexivity.
  destruct (Async.perform P op w) as [w1 x]. rewrite IH. reflexivity.
Qed.

Lemma alone_io {X : Type} (op : Async.Op X) w :
  Async.alone P (Async.io op) w = Async.perform P op w.
Proof. cbn [Async.io Async.alone]. destruct (Async.perform P op w) as [w1 x]. reflexivity. Qed.

Lemma alone_fetchWithRetry_within url opts :
  forall n calls attempt w,
    Common.MAX_RETRIES - attempt < n ->
    Common.MAX_RETRIES - attempt <= calls ->
    Async.alone P (Async.fetchWithRetry_within calls url opts attempt) w
    = Common.fetchWithRetry P url opts attempt w.
Proof.
  induction n as [|n IH]; intros calls attempt w Hn Hcalls; [lia|].
  rewrite fetchWithRetry_unfold. unfold client_get.
  assert (E : Async.fetchWithRetry_within calls url opts attempt
              = Async.try_catch (Async.io (Async.Get (PageGet url opts)))
                  (fun e =>
                     if Nat.leb Common.MAX_RETRIES attempt then Async.throw e
                     else
                       Async.bind (Async.io (Async.Sleep (Common.RETRY_DELAY_MS * attempt)))
                         (fun _ =>
                            match calls with
                            | S calls' =>
                                Async.fetchWithRetry_within calls' url opts (attempt + 1)
                            | 0 => Async.throw e
                            end))) by (destruct calls; reflexivity).
  rewrite E, alone_try_catch. unfold try_catch. rewrite alone_io. cbn [Async.perform].
  destruct (request P (PageGet url opts) w) as [w1 [res|e]]; [reflexivity|].
  destruct (Nat.leb Common.MAX_RETRIES attempt) eqn:L; [reflexivity|].
  apply Nat.leb_gt in L. rewrite alone_bind. unfold bindM. rewrite alone_io.
    cbn [Async.perform].
  unfold sleep at 1, emit. cbn [sleep emit fst].
  destruct calls as [|calls]; [lia|]. apply IH; lia.
Qed.

Lemma alone_fetchWithRetry url opts attempt w :
  Async.alone P (Async.fetchWithRetry url opts attempt) w
  = Common.fetchWithRetry P url opts attempt w.
Proof.
  apply (alone_fetchWithRetry_within url opts (S (Common.MAX_RETRIES - attempt))); lia.
Qed.

Lemma alone_downloadFile_within url dest :
  forall n calls attempt w,
    Common.MAX_RETRIES - attempt < n ->
    Common.MAX_RETRIES - attempt <= calls ->
    Async.alone P (Async.downloadFile_within calls url dest attempt) w
    = Common.downloadFile P url dest attempt w.
Proof.
  induction n as [|n IH]; intros calls attempt w Hn Hcalls; [lia|].
  rewrite downloadFile_unfold.
  assert (E : Async.downloadFile_within calls url dest attempt
              = Async.bind (Async.io (Async.EnsureDir (NodePath.dirname dest)))
                  (fun _ =>
                     Async.try_catch
                       (Async.bind (Async.io (Async.Get (AssetGet url)))
                          (fun _ => Async.io (Async.WriteFile dest)))
                       (fun e =>
                          if Nat.leb Common.MAX_RETRIES attempt then
                            Async.io (Async.LogError ["Failed:"; url; "->"; dest; message e])
                          else
                            Async.bind
                              (Async.io (Async.Sleep (Common.RETRY_DELAY_MS * attempt)))
                              (fun _ =>
                                 match calls with
                                 | S calls' =>
                                     Async.downloadFile_within calls' url dest (attempt + 1)
                                 | 0 => Async.ret tt
                                 end)))) by (destruct calls; reflexivity).
  rewrite E, alone_bind. unfold bindM at 1. rewrite alone_io. cbn [Async.perform].
  destruct (ensureDir P (NodePath.dirname dest) w) as [w0 [[]|e]]; [|reflexivity].
  rewrite alone_try_catch. unfold try_catch. rewrite alone_bind.
  unfold Common.download_attempt, axios_get.
  unfold bindM at 1. rewrite alone_io. cbn [Async.perform]. unfold bindM at 1.
  destruct (request P (AssetGet url) w0) as [w1 [data|e]].
  - rewrite alone_io. cbn [Async.perform].
    destruct (writeFile P dest w1) as [w2 [[]|e]]; [reflexivity|].
    destruct (Nat.leb Common.MAX_RETRIES attempt) eqn:L; [apply alone_io|].
    apply Nat.leb_gt in L. rewrite alone_bind. unfold bindM. rewrite alone_io.
    cbn [Async.perform].
    unfold sleep at 1, emit. cbn [sleep emit fst].
    destruct calls as [|calls]; [lia|]. apply IH; lia.
  - destruct (Nat.leb Common.MAX_RETRIES attempt) eqn:L; [apply alone_io|].
    apply Nat.leb_gt in L. rewrite alone_bind. unfold bindM. rewrite alone_io.
    cbn [Async.perform].
    unfold sleep at 1, emit. cbn [sleep emit fst].
    destruct calls as [|calls]; [lia|]. apply IH; lia.
Qed.

Lemma alone_downloadFile url dest attempt w :
  Async.alone P (Async.downloadFile url dest attempt) w
  = Common.downloadFile P url dest attempt w.
Proof.
  apply (alone_downloadFile_within url dest (S (Common.MAX_RETRIES - attempt))); lia.
Qed.

End InOrder.

Section InOrderProgram.
Variable P : Platform.

Lemma bindM_ext {A B : Type} (m m' : M A) (k k' : A -> M B) w :
  (forall w0, m w0 = m' w0) -> (forall a w0, k a w0 = k' a w0) ->
  bindM m k w = bindM m' k' w.
Proof.
  intros Hm Hk. unfold bindM. rewrite Hm. destruct (m' w) as [w1 [a|e]]; [apply Hk | reflexivity].
Qed.

Lemma try_catch_ext {A : Type} (m m' : M A) (h h' : Error -> M A) w :
  (forall w0, m w0 = m' w0) -> (forall e w0, h e w0 = h' e w0) ->
  try_catch m h w = try_catch m' h' w.
Proof.
  intros Hm Hh. unfold try_catch. rewrite Hm.
  destruct (m' w) as [w1 [a|e]]; [reflexivity | apply Hh].
Qed.

Lemma in_order_bind {A B : Type} (p : Async.Proc A) (f : A -> Async.Proc B) w :
  Async.in_order P (Async.bind p f) w
  = bindM (Async.in_order P p) (fun a => Async.in_order P (f a)) w.
Proof.
  revert w. induction p as [[a|e]|X cmd k IH]; intros w;
    cbn [Async.bind Async.in_order]; unfold bindM; cbn [Async.in_order]; try reflexivity.
  destruct (Async.exec_in_order P cmd w) as [w1 x]. rewrite IH. reflexivity.
Qed.

Lemma in_order_try_catch {A : Type} (p : Async.Proc A) (h : Error -> Async.Proc A) w :
  Async.in_order P (Async.try_catch p h) w
  = try_catch (Async.in_order P p) (fun e => Async.in_order P (h e)) w.
Proof.
  revert w. induction p as [[a|e]|X cmd k IH]; intros w;
    cbn [Async.try_catch Async.in_order]; unfold try_catch; cbn [Async.in_order];
    try reflexivity.
  destruct (Async.exec_in_order P cmd w) as [w1 x]. rewrite IH. reflexivity.
Qed.

Lemma in_order_call {A : Type} (t : Async.Task A) w :
  Async.in_order P (Async.call t) w = Async.alone P t w.
Proof.
  revert w. induction t as [r|X op k IH]; intros w;
    cbn [Async.call Async.in_order Async.alone Async.exec_in_order]; [reflexivity|].
  destruct (Async.perform P op w) as [w1 x]. apply IH.
Qed.

Lemma in_order_io {X : Type} (op : Async.Op X) w :
  Async.in_order P (Async.call (Async.io op)) w = Async.perform P op w.
Proof. rewrite in_order_call. apply alone_io. Qed.

Lemma in_order_for_each {A : Type} (body : A -> Async.Proc unit) (body' : A -> M unit) items :
  (forall x w, Async.in_order P (body x) w = body' x w) ->
  forall w, Async.in_order P (Async.for_each body items) w = Common.for_each body' items w.
Proof.
  intros Hbody. induction items as [|x items IH]; intros w;
    cbn [Async.for_each Common.for_each]; [reflexivity|].
  rewrite in_order_bind. apply bindM_ext; [apply Hbody | intros _; exact IH].
Qed.

(** *** The workers *)

Lemma alone_fetchProduct_botech u w :
  Async.alone P (BotechAsync.fetchProduct u) w = Botech.fetchProduct P u w.
Proof.
  unfold BotechAsync.fetchProduct, Botech.fetchProduct. rewrite alone_try_catch.
  apply try_catch_ext; [apply alone_fetchWithRetry|].
  intros e w0. rewrite alone_bind. apply bindM_ext; [apply alone_io | reflexivity].
Qed.

Lemma alone_fetchProduct_part001 u w :
  Async.alone P (Part001Async.fetchProduct u) w = Part001.fetchProduct P u w.
Proof.
  unfold Part001Async.fetchProduct, Part001.fetchProduct. rewrite alone_try_catch.
  apply try_catch_ext.
  - intros w0. rewrite alone_bind. apply bindM_ext; [apply alone_fetchWithRetry | reflexivity].
  - intros e w0. rewrite alone_bind. apply bindM_ext; [apply alone_io | reflexivity].
Qed.

Lemma alone_downloadTo_botech folder imgUrl fileName w :
  Async.alone P (BotechAsync.downloadTo folder imgUrl fileName) w
  = Botech.downloadTo P folder imgUrl fileName w.
Proof.
  unfold BotechAsync.downloadTo, Botech.downloadTo. cbv zeta. rewrite alone_bind.
  apply bindM_ext; [apply alone_io|].
  intros [|] w0; cbn [negb]; [reflexivity|].
  rewrite alone_bind. apply bindM_ext; [apply alone_downloadFile | intros _; apply alone_io].
Qed.

Lemma alone_downloadTo_part001 folder imgUrl fileName w :
  Async.alone P (Part001Async.downloadTo folder imgUrl fileName) w
  = Part001.downloadTo P folder imgUrl fileName w.
Proof.
  unfold Part001Async.downloadTo, Part001.downloadTo. cbv zeta. rewrite alone_bind.
  apply bindM_ext; [apply alone_io|].
  intros [|] w0; [reflexivity|].
  rewrite alone_bind. apply bindM_ext; [apply alone_downloadFile | intros _; apply alone_io].
Qed.

(** *** The queues *)

Lemma queue_alone_fetch {R : Type} (worker : option string -> Async.Task R)
  (worker' : option string -> M R) links :
  (forall u w, Async.alone P (worker u) w = worker' u w) ->
  forall index w,
    Async.queue_alone P (map (fun u (n : nat) => (n, worker u)) links) index w
    = Common.run_queue worker' links w.
Proof.
  intros Hw. induction links as [|u links IH]; intros index w;
    cbn [map Async.queue_alone Common.run_queue]; [reflexivity|].
  rewrite Hw. destruct (worker' u w) as [w1 r]. rewrite IH. reflexivity.
Qed.

Lemma queue_alone_download_botech folder categoryName imgs :
  forall index w,
    Async.queue_alone P (map (BotechAsync.downloadWorker folder categoryName) imgs) index w
    = Botech.downloadAll P folder categoryName imgs index w.
Proof.
  induction imgs as [|u imgs IH]; intros index w;
    cbn [map Async.queue_alone Botech.downloadAll]; [reflexivity|].
  unfold BotechAsync.downloadWorker at 1.
  destruct (Botech.fileNameFor categoryName u index) as [fileName index'].
  rewrite alone_downloadTo_botech.
  destruct (Botech.downloadTo P folder u fileName w) as [w1 r]. rewrite IH. reflexivity.
Qed.

Lemma queue_alone_download_part001 folder categoryName imgs :
  forall index w,
    Async.queue_alone P (map (Part001Async.downloadWorker folder categoryName) imgs) index w
    = Part001.downloadAll P folder categoryName imgs index w.
Proof.
  induction imgs as [|u imgs IH]; intros index w;
    cbn [map Async.queue_alone Part001.downloadAll]; [reflexivity|].
  unfold Part001Async.downloadWorker at 1.
  destruct (Part001.fileNameFor categoryName u index) as [fileName index'].
  rewrite alone_downloadTo_part001.
  destruct (Part001.downloadTo P folder u fileName w) as [w1 r]. rewrite IH. reflexivity.
Qed.

(** *** The orchestrators *)

Lemma in_order_collectImages_botech categoryName relativePath w :
  Async.in_order P (BotechAsync.collectImages P categoryName relativePath) w
  = Botech.collectImages P categoryName relativePath w.
Proof.
  unfold BotechAsync.collectImages, Botech.collectImages.
  rewrite in_order_bind. apply bindM_ext; [apply in_order_io | intros _ w1].
  rewrite in_order_bind. apply bindM_ext; [reflexivity | intros categoryUrl w2].
  rewrite in_order_bind. apply bindM_ext; [apply in_order_io | intros _ w3].
  rewrite in_order_bind. apply bindM_ext.
  { intros w0. rewrite in_order_call. apply alone_fetchWithRetry. }
  intros catHtml w4.
  rewrite in_order_bind. apply bindM_ext; [reflexivity | intros catThumbs w5].
  rewrite in_order_bind. apply bindM_ext; [reflexivity | intros productLinks w6].
  rewrite in_order_bind. apply bindM_ext.
  { intros w0. unfold BotechAsync.fetchPages, Async.all_of.
    cbn [Async.in_order Async.exec_in_order]. unfold BotechAsync.fetchWorker.
    rewrite (queue_alone_fetch BotechAsync.fetchProduct (Botech.fetchProduct P))
      by apply alone_fetchProduct_botech.
    destruct (Common.run_queue (Botech.fetchProduct P) productLinks w0) as [w7 rs].
    reflexivity. }
  intros productPages w7.
  rewrite in_order_bind. apply bindM_ext; [reflexivity | intros imgs w8]. reflexivity.
Qed.

Lemma in_order_collectImages_part001 categoryName relativePath w :
  Async.in_order P (Part001Async.collectImages P categoryName relativePath) w
  = Part001.collectImages P categoryName relativePath w.
Proof.
  unfold Part001Async.collectImages, Part001.collectImages.
  rewrite in_order_bind. apply bindM_ext; [apply in_order_io | intros _ w1].
  rewrite in_order_bind. apply bindM_ext; [reflexivity | intros categoryUrl w2].
  rewrite in_order_bind. apply bindM_ext; [apply in_order_io | intros _ w3].
  rewrite in_order_bind. apply bindM_ext.
  { intros w0. rewrite in_order_call. apply alone_fetchWithRetry. }
  intros catHtml w4.
  rewrite in_order_bind. apply bindM_ext; [reflexivity | intros catThumbs w5].
  rewrite in_order_bind. apply bindM_ext; [reflexivity | intros productLinks w6].
  rewrite in_order_bind. apply bindM_ext.
  { intros w0. unfold Part001Async.fetchPages, Async.all_of.
    cbn [Async.in_order Async.exec_in_order]. unfold Part001Async.fetchWorker.
    rewrite (queue_alone_fetch Part001Async.fetchProduct (Part001.fetchProduct P))
      by apply alone_fetchProduct_part001.
    destruct (Common.run_queue (Part001.fetchProduct P) productLinks w0) as [w7 rs].
    reflexivity. }
  intros productPages w7.
  rewrite in_order_bind. apply bindM_ext; [reflexivity | intros imgs w8]. reflexivity.
Qed.

Lemma in_order_scrapeCategory_botech categoryName relativePath w :
  Async.in_order P (BotechAsync.scrapeCategory P categoryName relativePath) w
  = Botech.scrapeCategory P categoryName relativePath w.
Proof.
  unfold BotechAsync.scrapeCategory, Botech.scrapeCategory.
  rewrite in_order_bind. apply bindM_ext; [apply in_order_collectImages_botech|].
  intros [imgs links] w1.
  rewrite in_order_bind. apply bindM_ext; [apply in_order_io | intros _ w2].
  unfold BotechAsync.downloadPhase, Botech.downloadPhase, Async.all_of.
  cbn [Async.bind Async.in_order Async.exec_in_order].
  rewrite queue_alone_download_botech.
  destruct (Botech.downloadAll P (Botech.folderOf P categoryName) categoryName imgs 1 w2)
    as [w3 rs].
  destruct (Common.all_settled rs) as [l|e]; reflexivity.
Qed.

Lemma in_order_scrapeCategory_part001 categoryName relativePath w :
  Async.in_order P (Part001Async.scrapeCategory P categoryName relativePath) w
  = Part001.scrapeCategory P categoryName relativePath w.
Proof.
  unfold Part001Async.scrapeCategory, Part001.scrapeCategory.
  rewrite in_order_bind. apply bindM_ext; [apply in_order_collectImages_part001|].
  intros [imgs links] w1.
  rewrite in_order_bind. apply bindM_ext; [apply in_order_io | intros _ w2].
  unfold Part001Async.downloadPhase, Part001.downloadPhase, Async.all_of.
  cbn [Async.bind Async.in_order Async.exec_in_order].
  rewrite queue_alone_download_part001.
  destruct (Part001.downloadAll P (Part001.folderOf P categoryName) categoryName imgs 1 w2)
    as [w3 rs].
  destruct (Common.all_settled rs) as [l|e]; reflexivity.
Qed.

(** Run one invocation at a time, [main] of the processes is [main] of
    the first part, in either copy. *)
Lemma in_order_main categories w :
  Async.in_order P (BotechAsync.main_over P categories) w = Botech.main_over P categories w
  /\ Async.in_order P (Part001Async.main_over P categories) w
     = Part001.main_over P categories w.
Proof.
  split.
  - unfold BotechAsync.main_over, Botech.main_over.
    rewrite in_order_bind. apply bindM_ext; [apply in_order_io | intros _ w1].
    rewrite in_order_bind. apply bindM_ext; [apply in_order_io | intros _ w2].
    rewrite in_order_bind. apply bindM_ext; [|intros _ w3; apply in_order_io].
    apply in_order_for_each. intros [name rel] w0.
    cbn [BotechAsync.attemptCategory Botech.attemptCategory].
    rewrite in_order_try_catch.
    apply try_catch_ext; [apply in_order_scrapeCategory_botech | intros e w4; apply in_order_io].
  - unfold Part001Async.main_over, Part001.main_over.
    rewrite in_order_bind. apply bindM_ext; [apply in_order_io | intros _ w1].
    rewrite in_order_bind. apply bindM_ext; [apply in_order_io | intros _ w2].
    rewrite in_order_bind. apply bindM_ext; [|intros _ w3; apply in_order_io].
    apply in_order_for_each. intros [name rel] w0.
    cbn [Part001Async.attemptCategory Part001.attemptCategory].
    rewrite in_order_try_catch.
    apply try_catch_ext; [apply in_order_scrapeCategory_part001 | intros e w4; apply in_order_io].
Qed.

End InOrderProgram.
